(** * VAST declaration lowering: a shallow embedding of
    [vast/CodeGen/CodeGenDeclVisitor.hpp] and [vast/Util/Pipeline.hpp].

  The development follows the layout of the sources:
  - [IR]: the fragment of MLIR the visitor builds (types, values,
    operations with nested regions);
  - [FunctionBody]: the tail of [emit_function_body], the trailing-scope
    search and [emit_function_terminator];
  - [Attrs]: [visit_decl_attrs] over an [mlir::NamedAttrList];
  - [Pipeline]: [pipeline_t] and its set of scheduled pass ids;
  - [CodeGen]: the code generation context (scoped symbol tables, deferred
    declarations, diagnostics) and the declaration visitors;
  - [Entry]: [get_addr_of_function], [build_function_prototype] and
    [decl_visitor_with_attrs::Visit].  *)

From stdpp Require Import base option list gmap sets strings.

Local Open Scope string_scope.
Local Open Scope list_scope.

(** ** The MLIR fragment built by the visitor *)
Module IR.

(** MLIR types are uniqued; a non-function type is identified by its
    printed name, a [core::FunctionType] by its inputs and results. *)
Abbreviation element_type := string (only parsing).

Record function_type := FnTy {
  getInputs : list element_type;
  getResults : list element_type;
  isVarArg : bool
}.

Inductive mlir_type :=
| ElementType (t : element_type)
| FunctionType (fty : function_type).

#[global] Instance function_type_eq_dec : EqDecision function_type.
Proof. solve_decision. Defined.
#[global] Instance mlir_type_eq_dec : EqDecision mlir_type.
Proof. solve_decision. Defined.

(** [type.getResult(0)] *)
Definition getResult (fty : function_type) (i : nat) : option element_type :=
  getResults fty !! i.

(** Constant attributes created by [constant(loc)] (the void constant) and
    [constant(loc, type, apsint(0))]. *)
Inductive constant_attr :=
| VoidAttr
| IntegerAttr (value : Z) (type : option element_type).

(** An [mlir_value] is a block argument, the result of a constant, or the
    result of any other operation (an opaque number). *)
Inductive mlir_value :=
| BlockArgument (index : nat) (type : element_type)
| ConstantResult (c : constant_attr)
| OpResult (id : nat).

#[global] Instance constant_attr_eq_dec : EqDecision constant_attr.
Proof. solve_decision. Defined.
#[global] Instance mlir_value_eq_dec : EqDecision mlir_value.
Proof. solve_decision. Defined.

(** The operations the function-body code names, and everything else.
    [decl_op id] is an operation created by a declaration visitor inside a
    function body (a label or a local variable); its state is kept by the
    code generation context under [id]. For an operation the visitor does
    not name, the flag records whether it carries
    [mlir::OpTrait::IsTerminator]. *)
Inductive op_name :=
| hl_ReturnOp (operand : mlir_value)
| core_ImplicitReturnOp (operand : mlir_value)
| hl_UnreachableOp
| hl_ConstantOp (c : constant_attr)
| core_ScopeOp
| decl_op (id : nat)
| other_op (name : string) (is_terminator_trait : bool).

(** An operation owns one region, a list of blocks; a block has arguments
    and a list of operations. Operations without a region have [[]]. *)
Inductive operation :=
| Operation (name : op_name) (body : list block)
with block :=
| Block (arguments : list mlir_value) (operations : list operation).

Definition region := list block.

Definition getName (op : operation) : op_name :=
  match op with Operation n _ => n end.
(** [scope.getBody()] *)
Definition getBody (op : operation) : region :=
  match op with Operation _ b => b end.
Definition getArguments (b : block) : list mlir_value :=
  match b with Block a _ => a end.
Definition getOperations (b : block) : list operation :=
  match b with Block _ o => o end.

(** Modelled from the spec: the [IsTerminator] trait of the dialect
    operations, whose definitions are not part of the sources at hand.
    The spec calls the implicit return and [unreachable] terminators; a
    scope is an ordinary operation; [hl.return] is recognised by the
    visitor with a separate [isa] test, so it does not need the trait. *)
Definition hasTrait_IsTerminator (op : operation) : bool :=
  match getName op with
  | core_ImplicitReturnOp _ => true
  | hl_UnreachableOp => true
  | other_op _ t => t
  | hl_ReturnOp _ | hl_ConstantOp _ | core_ScopeOp | decl_op _ => false
  end.

Definition isa_ReturnOp (op : operation) : bool :=
  match getName op with hl_ReturnOp _ => true | _ => false end.

Definition isa_ScopeOp (op : operation) : bool :=
  match getName op with core_ScopeOp => true | _ => false end.

(** [region.back()], [block.back()]: the last element, if any. *)
Definition back {A} (l : list A) : option A := last l.

(** [ops.empty()] *)
Definition is_empty {A} (l : list A) : bool :=
  match l with [] => true | _ => false end.

(** [parent->hasOneBlock()] *)
Definition hasOneBlock (r : region) : bool :=
  match r with [_] => true | _ => false end.

(** [b.begin() == std::prev(b.end())]: the block holds exactly one
    operation. *)
Definition has_single_operation (b : block) : bool :=
  match getOperations b with [_] => true | _ => false end.

(** Nesting depth of regions, the bound of the trailing-scope loop. *)
Fixpoint op_depth (op : operation) : nat :=
  match op with
  | Operation _ body =>
      S ((fix blocks (bs : list block) : nat :=
            match bs with
            | [] => 0
            | Block _ ops :: bs' =>
                ((fix opers (os : list operation) : nat :=
                    match os with
                    | [] => 0
                    | o :: os' => op_depth o `max` opers os'
                    end) ops) `max` blocks bs'
            end) body)
  end.

Definition ops_depth (os : list operation) : nat :=
  foldr (fun o n => op_depth o `max` n) 0 os.
Definition block_depth (b : block) : nat := ops_depth (getOperations b).
Definition region_depth (r : region) : nat :=
  foldr (fun b n => block_depth b `max` n) 0 r.

(** Number of operations satisfying [p] anywhere in a region tree. *)
Fixpoint count_op (p : operation -> bool) (op : operation) : nat :=
  (if p op then 1 else 0) +
  match op with
  | Operation _ body =>
      (fix blocks (bs : list block) : nat :=
         match bs with
         | [] => 0
         | Block _ ops :: bs' =>
             ((fix opers (os : list operation) : nat :=
                 match os with
                 | [] => 0
                 | o :: os' => count_op p o + opers os'
                 end) ops) + blocks bs'
         end) body
  end.

Definition count_ops (p : operation -> bool) (os : list operation) : nat :=
  foldr (fun o n => count_op p o + n) 0 os.
Definition count_block (p : operation -> bool) (b : block) : nat :=
  count_ops p (getOperations b).
Definition count_region (p : operation -> bool) (r : region) : nat :=
  foldr (fun b n => count_block p b + n) 0 r.

End IR.


(** ** The Clang AST as the visitor reads it *)
Module Clang.

(** Identity of an AST node (the address of the [clang::Decl]). *)
Abbreviation decl_id := nat (only parsing).
Abbreviation source_location := nat (only parsing).

(** Statements and expressions are lowered by collaborators of the
    declaration visitor; here they are opaque tokens. *)
Abbreviation Stmt := nat (only parsing).
Abbreviation Expr := nat (only parsing).

(** Source types, as far as the visitor looks into them: [walk_type]
    descends through arrays and pointers and stops at tag types; a
    variable-length array carries its size expression. *)
Inductive QualType :=
| BuiltinType (name : string)
| FunctionProtoType (name : string)
| TagType (tag_decl : decl_id)
| ArrayType (getElementType : QualType) (getSizeExpr : option Expr)
| PointerType (getPointeeType : QualType).

(** [type->isVariableArrayType()] and
    [dyn_cast< VariableArrayType >(type)->getSizeExpr()] *)
Definition variable_array_size (t : QualType) : option Expr :=
  match t with ArrayType _ size => size | _ => None end.

Inductive attr_kind :=
| WeakAttr | SelectAnyAttr | CUDAGlobalAttr
| BuiltinAttr | DLLImportAttr | DLLExportAttr
| OtherAttr.

#[global] Instance attr_kind_eq_dec : EqDecision attr_kind.
Proof. solve_decision. Defined.

Record Attr := {
  getKind : attr_kind;
  getSpelling : string;
  getArgs : string
}.

Inductive StorageClass :=
| SC_None | SC_Auto | SC_Static | SC_Extern | SC_PrivateExtern | SC_Register.

Inductive ThreadStorageClassSpecifier :=
| TSCS_unspecified | TSCS___thread | TSCS_thread_local | TSCS__Thread_local.

Inductive AccessSpecifier := AS_public | AS_protected | AS_private | AS_none.

Record ParmVarDecl := {
  parm_id : decl_id;
  parm_name : string
}.

Record LabelDecl := {
  label_id : decl_id;
  label_name : string;
  label_loc : source_location
}.

Record VarDecl := {
  var_id : decl_id;
  var_name : string;
  var_loc : source_location;
  var_type : QualType;
  var_getInit : option Expr;
  var_getStorageClass : StorageClass;
  var_getTSCSpec : ThreadStorageClassSpecifier
}.

Record TypedefDecl := {
  typedef_id : decl_id;
  typedef_name : string;
  typedef_loc : source_location;
  getUnderlyingType : QualType
}.

Record EnumConstantDecl := {
  enumerator_id : decl_id;
  enumerator_name : string;
  enumerator_loc : source_location;
  enumerator_type : QualType;
  getInitVal : Z;
  getInitExpr : option Expr
}.

(** An earlier declaration of an enum, as [VisitEnumDecl] reads it. *)
Record EnumRedecl := {
  prev_id : decl_id;
  prev_isComplete : bool
}.

(** An enum declaration with the chain of its previous declarations,
    nearest first ([getPreviousDecl()] is the head; the first declaration
    has none). *)
Record EnumDecl := {
  enum_id : decl_id;
  enum_name : string;
  enum_loc : source_location;
  previous_decls : list EnumRedecl;
  isComplete : bool;
  getIntegerType : QualType;
  enumerators : list EnumConstantDecl
}.

Definition isFirstDecl (decl : EnumDecl) : bool :=
  match previous_decls decl with [] => true | _ => false end.

(** The children of a record that [make_record_decl] tells apart. *)
Inductive child_kind :=
| FieldChild | AccessSpecChild | VarChild
| CXXConstructorChild | CXXDestructorChild
| FunctionChild (name_is_identifier : bool)
| OtherChild.

Record ChildDecl := {
  child_id : decl_id;
  getChildKind : child_kind
}.

(** [clang::TagTypeKind] of a record. *)
Inductive TagTypeKind := TTK_Struct | TTK_Interface | TTK_Union | TTK_Class.

(** A [clang::RecordDecl]; a [clang::CXXRecordDecl] is one, and the visitor
    reads nothing of what it adds. *)
Record RecordDecl := {
  record_id : decl_id;
  record_name : string;
  record_loc : source_location;
  getTagKind : TagTypeKind;
  isCompleteDefinition : bool;
  decls : list ChildDecl
}.

(** [decl->isUnion()], [decl->isClass()] *)
Definition isUnion (decl : RecordDecl) : bool :=
  match getTagKind decl with TTK_Union => true | _ => false end.
Definition isClass (decl : RecordDecl) : bool :=
  match getTagKind decl with TTK_Class => true | _ => false end.

(** One function declaration. Redeclaration chains are kept by the
    [ASTContext] below. *)
Record FunctionDecl := {
  fn_id : decl_id;
  fn_name : string;
  fn_loc : source_location;
  fn_attrs : list Attr;
  isThisDeclarationADefinition : bool;
  hasBody : bool;
  doesThisDeclarationHaveABody : bool;
  doesDeclarationForceExternallyVisibleDefinition : bool;
  isDefaulted : bool;
  isa_CXXMethodDecl : bool;
  isa_CXXDestructorDecl : bool;
  isCopyAssignmentOperator : bool;
  isMoveAssignmentOperator : bool;
  isMultiVersion : bool;
  isConsteval : bool;
  lexical_context_isa_CXXRecordDecl : bool;
  returnType_isVoidType : bool;
  isMain : bool;
  isVariadic : bool;
  parameters : list ParmVarDecl;
  fn_labels : list LabelDecl;
  fn_getBody : Stmt
}.

(** [decl->hasAttrs()] *)
Definition hasAttrs (attrs : list Attr) : bool :=
  match attrs with [] => false | _ => true end.

(** Constructor and destructor variants of a [clang::GlobalDecl]. *)
Inductive structor_type := NoStructor | Ctor_Complete | Dtor_Complete.

#[global] Instance structor_type_eq_dec : EqDecision structor_type.
Proof. solve_decision. Defined.

(** A [clang::GlobalDecl]: a (possibly null) declaration and a variant. *)
Record GlobalDecl := {
  getDecl : option FunctionDecl;
  getStructor : structor_type
}.

(** [glob.getWithDecl(d)] *)
Definition getWithDecl (glob : GlobalDecl) (d : FunctionDecl) : GlobalDecl :=
  {| getDecl := Some d; getStructor := getStructor glob |}.

(** The value a [DenseSet< GlobalDecl >] hashes and compares: the address
    of the declaration and the variant bits. *)
Abbreviation global_key := (option nat * nat)%type (only parsing).

Definition structor_bits (s : structor_type) : nat :=
  match s with NoStructor => 0 | Ctor_Complete => 1 | Dtor_Complete => 2 end.

Definition getAsOpaquePtr (glob : GlobalDecl) : global_key :=
  (fn_id <$> getDecl glob, structor_bits (getStructor glob)).

(** What [acontext()] and the links between declarations answer: language
    options and, for a function declaration, its redeclarations from
    [getMostRecentDecl()] backwards along [getPreviousDecl()], and its
    definition if there is one. *)
Record ASTContext := {
  CPlusPlus : bool;
  OpenMPIsTargetDevice : bool;
  redecls_from_most_recent : FunctionDecl -> list FunctionDecl;
  getDefinition : FunctionDecl -> option FunctionDecl
}.

End Clang.


(** ** Function bodies: the trailing-scope search and the terminator *)
Module FunctionBody.
Import IR Clang.

(** [is_terminator] of [VisitFunctionLikeDecl] *)
Definition is_terminator (op : operation) : bool :=
  hasTrait_IsTerminator op || isa_ReturnOp op.

(** [next_scope]: the operation as a scope, if it is one and not null. *)
Definition next_scope (op : option operation) : option operation :=
  match op with
  | Some o => if isa_ScopeOp o then Some o else None
  | None => None
  end.

(** Modelled from the spec: [get_last_op(scope)] is declared outside the
    sources at hand; it is "the true last operation" of the scope, the last
    operation of the last block of its body, null when there is none. *)
Definition get_last_op (scope : operation) : option operation :=
  b ← back (getBody scope); back (getOperations b).

(** [process_scope] answers null for a scope it does not enter, so a
    search that stays in a block ends with the last operation of the block,
    or with null when that is a scope. *)
Definition unless_scope (op : option operation) : option operation :=
  match op with
  | Some o => if isa_ScopeOp o then None else Some o
  | None => None
  end.

(** The builder's insertion point during the search is always the end of a
    last block: of the function's region (depth [0]) or of the body of the
    [depth]-th trailing scope entered so far. *)
Abbreviation insertion_point := nat (only parsing).

(** The [while] loop of [emit_function_body] with [process_scope] inlined.
    [parent] is [scope->getParentRegion()], the region [last_op] was read
    from. Each iteration either enters the scope (moving the insertion point
    to the end of its body) or sets [last_op] to null. The result is [None]
    when the fuel runs out, and when [set_insertion_point_to_end] is asked
    for the end of a scope body without blocks, which is undefined. *)
Fixpoint trailing_scope_loop (fuel : nat) (parent : region)
    (ip : insertion_point) (last_op : option operation)
    : option (insertion_point * option operation) :=
  match next_scope last_op with
  | None => Some (ip, last_op)
  | Some scope =>
      match fuel with
      | 0 => None
      | S fuel' =>
          if hasOneBlock parent
             && from_option has_single_operation false (back parent)
          then
            if is_empty (getBody scope) then None
            else trailing_scope_loop fuel' (getBody scope) (S ip)
                                     (get_last_op scope)
          else trailing_scope_loop fuel' parent ip None
      end
  end.

(** The search of [emit_function_body] for the last operation: the
    insertion point it leaves the builder at, and [last_op] (possibly
    null). [blocks] is [fn.getBlocks()] once the body has been lowered;
    [fn_blocks.back()] is undefined on a function without blocks, which
    [addEntryBlock] rules out. *)
Definition find_last_op (blocks : region)
    : option (insertion_point * option operation) :=
  last_block ← back blocks;
  let ops := getOperations last_block in
  let last_op := back ops in
  if negb (is_empty ops)
  then trailing_scope_loop (S (region_depth blocks)) blocks 0 last_op
  else Some (0, last_op).

(** [emit_function_terminator]: the operations created, in order. *)
Definition emit_function_terminator (decl : FunctionDecl) (fty : function_type)
    : list operation :=
  if returnType_isVoidType decl then
    [ Operation (hl_ConstantOp VoidAttr) [];
      Operation (core_ImplicitReturnOp (ConstantResult VoidAttr)) [] ]
  else if isMain decl then
    let zero := IntegerAttr 0 (getResult fty 0) in
    [ Operation (hl_ConstantOp zero) [];
      Operation (hl_ReturnOp (ConstantResult zero)) [] ]
  else
    [ Operation hl_UnreachableOp [] ].

(** Rewriting the last element of a list, [l.back() = f(l.back())]. *)
Fixpoint at_back {A} (f : A -> A) (l : list A) : list A :=
  match l with
  | [] => []
  | [x] => [f x]
  | x :: l' => x :: at_back f l'
  end.

(** Creating [new] at the insertion point [ip] of region [r]. *)
Fixpoint insert_at (ip : insertion_point) (new : list operation) (r : region)
    : region :=
  match ip with
  | 0 => at_back (fun b => Block (getArguments b) (getOperations b ++ new)) r
  | S ip' =>
      at_back (fun b =>
        Block (getArguments b)
              (at_back (fun scope =>
                          Operation (getName scope)
                                    (insert_at ip' new (getBody scope)))
                       (getOperations b))) r
  end.

(** [block_at ip r]: the block whose end is the insertion point [ip]. *)
Fixpoint block_at (ip : insertion_point) (r : region) : option block :=
  match ip with
  | 0 => back r
  | S ip' =>
      b ← back r; scope ← back (getOperations b); block_at ip' (getBody scope)
  end.

(** The part of [emit_function_body] after the body has been lowered. *)
Definition emit_function_body_tail (decl : FunctionDecl) (fty : function_type)
    (blocks : region) : option region :=
  last_block ← back blocks;
  let ops := getOperations last_block in
  '(ip, last_op) ← find_last_op blocks;
  if is_empty ops
     || match last_op with
        | None => true
        | Some op => negb (is_terminator op)
        end
  then Some (insert_at ip (emit_function_terminator decl fty) blocks)
  else Some blocks.

(** Every [core::ScopeOp] of a region tree owns at least one block, as the
    scope builder creates them. *)
Definition empty_scope (op : operation) : bool :=
  isa_ScopeOp op && is_empty (getBody op).
Definition scopes_have_blocks (r : region) : Prop :=
  count_region empty_scope r = 0.

Definition count_terminators (r : region) : nat :=
  count_region is_terminator r.

End FunctionBody.


(** ** Aborting checks *)
Module Abort.

(** [VAST_CHECK], [VAST_ASSERT], [VAST_UNIMPLEMENTED] and
    [VAST_UNREACHABLE] end the process; a computation that may do so
    answers [Fatal] with the message. *)
Inductive outcome (A : Type) :=
| Done (a : A)
| Fatal (msg : string).
Arguments Done {A} a.
Arguments Fatal {A} msg.

Definition is_done {A} (o : outcome A) : bool :=
  match o with Done _ => true | Fatal _ => false end.

End Abort.


(** ** [pipeline_t]: a pass manager that schedules no pass type twice *)
Module Pipeline.

(** [mlir::TypeID] of a pass class. *)
Abbreviation pass_id_t := nat (only parsing).

(** A pass instance: its class and whatever options it was built with. *)
Record Pass := {
  getTypeID : pass_id_t;
  getArgument : string
}.

(** What the base [mlir::PassManager] has been asked to run, in order: a
    pass on the top-level operation, or nested under a parent operation
    type. *)
Inductive scheduled :=
| top_level (pass : Pass)
| nested (parent_t : string) (pass : Pass).

Definition scheduled_pass (s : scheduled) : Pass :=
  match s with top_level p => p | nested _ p => p end.

Record pipeline_t := {
  base : list scheduled;
  seen : gset pass_id_t
}.

(** A freshly constructed pipeline. *)
Definition new_pipeline : pipeline_t := {| base := []; seen := ∅ |}.

(** [base::addNestedPass< parent_t >(std::move(pass))] *)
Definition base_addNestedPass (parent_t : string) (pass : Pass)
    (ppl : pipeline_t) : pipeline_t :=
  {| base := base ppl ++ [nested parent_t pass]; seen := seen ppl |}.

(** [base::addPass(std::move(pass))] *)
Definition base_addPass (pass : Pass) (ppl : pipeline_t) : pipeline_t :=
  {| base := base ppl ++ [top_level pass]; seen := seen ppl |}.

(** [seen.insert(id)] *)
Definition seen_insert (id : pass_id_t) (ppl : pipeline_t) : pipeline_t :=
  {| base := base ppl; seen := {[id]} ∪ seen ppl |}.

(** [pipeline_t::addNestedPass< parent_t >] *)
Definition addNestedPass (parent_t : string) (pass : Pass)
    (ppl : pipeline_t) : pipeline_t :=
  let id := getTypeID pass in
  if bool_decide (id ∈ seen ppl) then ppl
  else base_addNestedPass parent_t pass (seen_insert id ppl).

(** Modelled from the spec: [pipeline_t::addPass] is only declared in
    [Pipeline.hpp]; its body is not part of the sources at hand. The
    comment on [pipeline_t] ("keeps track of duplicit passes and does not
    schedule them twice") and the claim give it the bookkeeping of
    [addNestedPass]. *)
Definition addPass (pass : Pass) (ppl : pipeline_t) : pipeline_t :=
  let id := getTypeID pass in
  if bool_decide (id ∈ seen ppl) then ppl
  else base_addPass pass (seen_insert id ppl).

(** A call on a pipeline, and a sequence of calls on a fresh one. *)
Inductive call :=
| call_addPass (pass : Pass)
| call_addNestedPass (parent_t : string) (pass : Pass).

Definition run_call (ppl : pipeline_t) (c : call) : pipeline_t :=
  match c with
  | call_addPass p => addPass p ppl
  | call_addNestedPass parent p => addNestedPass parent p ppl
  end.

Definition run_calls (calls : list call) : pipeline_t :=
  foldl run_call new_pipeline calls.

(** A sequence of [addNestedPass] calls, each pass with its parent, made
    in order. *)
Definition addNestedPasses (passes : list (string * Pass)) (ppl : pipeline_t)
    : pipeline_t :=
  foldl (fun ppl' p => addNestedPass p.1 p.2 ppl') ppl passes.

(** The pass types the base pass manager will run, in order. *)
Definition scheduled_ids (ppl : pipeline_t) : list pass_id_t :=
  (getTypeID ∘ scheduled_pass) <$> base ppl.

(** Every scheduled pass type has been recorded in [seen], and no pass
    type is scheduled twice. *)
Definition pipeline_inv (ppl : pipeline_t) : Prop :=
  NoDup (scheduled_ids ppl) /\ forall id, id ∈ scheduled_ids ppl -> id ∈ seen ppl.

End Pipeline.


(** ** [visit_decl_attrs] *)
Module Attrs.
Import Abort Clang.

(** An [mlir::Attribute]: uniqued, so compared by its printed form. *)
Abbreviation Attribute := string (only parsing).

(** An [mlir::NamedAttrList], a dictionary from names to attributes. *)
Abbreviation NamedAttrList := (gmap string string) (only parsing).

(** [excluded_attr_list] and [exclude_attrs] *)
Definition excluded (attr : Attr) : bool :=
  match getKind attr with
  | WeakAttr | SelectAnyAttr | CUDAGlobalAttr => true
  | _ => false
  end.

Definition exclude_attrs (attrs : list Attr) : list Attr :=
  List.filter (fun a => negb (excluded a)) attrs.

(** The name an attribute is stored under: its spelling, or ["builtin"]
    for a [clang::BuiltinAttr], which has none. *)
Definition spelling (attr : Attr) : string :=
  match getKind attr with
  | BuiltinAttr => "builtin"
  | _ => getSpelling attr
  end.

Section visit_decl_attrs.

(** [visit(attr)], the attribute translation of the derived visitor. *)
Variable visit : Attr -> Attribute.

(** One iteration of the loop of [visit_decl_attrs]. *)
Definition visit_attr (attrs : NamedAttrList) (attr : Attr)
    : outcome NamedAttrList :=
  let visited := visit attr in
  let spelling := spelling attr in
  match attrs !! spelling with
  | Some prev =>
      if bool_decide (visited = prev)
      then Done (<[spelling := visited]> attrs)
      else Fatal ("Conflicting redefinition of attribute " +:+ spelling)
  | None => Done (<[spelling := visited]> attrs)
  end.

Fixpoint visit_attrs (attrs : NamedAttrList) (todo : list Attr)
    : outcome NamedAttrList :=
  match todo with
  | [] => Done attrs
  | attr :: todo' =>
      match visit_attr attrs attr with
      | Done attrs' => visit_attrs attrs' todo'
      | Fatal msg => Fatal msg
      end
  end.

(** [visit_decl_attrs(decl, op)] on the attributes of the declaration and
    the attribute dictionary of the operation; the result is the
    dictionary the operation is left with. *)
Definition visit_decl_attrs (decl_attrs : list Attr) (op_attrs : NamedAttrList)
    : outcome NamedAttrList :=
  if hasAttrs decl_attrs
  then visit_attrs op_attrs (exclude_attrs decl_attrs)
  else Done op_attrs.

End visit_decl_attrs.

(** The attributes of a declaration agree with each other and with the
    dictionary of the operation: attributes stored under one name lower to
    one value, which is also the value of an entry the dictionary already
    has under that name. *)
Definition consistent (visit : Attr -> Attribute) (attrs : NamedAttrList)
    (todo : list Attr) : Prop :=
  (forall a prev, a ∈ todo -> attrs !! spelling a = Some prev -> visit a = prev)
  /\ (forall a b, a ∈ todo -> b ∈ todo -> spelling a = spelling b ->
      visit a = visit b).

End Attrs.


(** ** The code generation context *)
Module CodeGen.
Import IR Clang Abort Attrs.

(** Identity of an operation created by the declaration visitors (the
    address of the [mlir::Operation]). *)
Abbreviation op_id := nat (only parsing).

Inductive op_kind :=
| FuncOp | VarDeclOp | TypeDefOp | LabelDeclOp
| EnumDeclOp | EnumConstantOp | TypeDeclOp
| StructDeclOp | UnionDeclOp | ClassDeclOp | CxxStructDeclOp
| OtherGlobalOp.

#[global] Instance op_kind_eq_dec : EqDecision op_kind.
Proof. solve_decision. Defined.

Inductive Visibility := Public | Private | Nested.

(** [core::GlobalLinkageKind], computed by a collaborator. *)
Abbreviation GlobalLinkageKind := nat (only parsing).

Inductive hl_StorageClass :=
| sc_none | sc_auto | sc_static | sc_extern | sc_private_extern | sc_register.

Inductive hl_TSClass :=
| tsc_none | tsc_gnu_thread | tsc_cxx_thread | tsc_c_thread.

#[global] Instance hl_StorageClass_eq_dec : EqDecision hl_StorageClass.
Proof. solve_decision. Defined.
#[global] Instance hl_TSClass_eq_dec : EqDecision hl_TSClass.
Proof. solve_decision. Defined.

(** The state of one operation: its kind, symbol name and attributes, the
    blocks of a function, and for a type declaration the operations of its
    region in order (the constants of an enum, the members of a record). *)
Record op_state := {
  op_kind_of : op_kind;
  sym_name : string;
  op_type : option mlir_type;
  op_linkage : option GlobalLinkageKind;
  op_visibility : option Visibility;
  op_storage_class : option hl_StorageClass;
  op_thread_storage_class : option hl_TSClass;
  op_value : option Z;
  has_initializer : bool;
  has_allocator : bool;
  op_attrs : NamedAttrList;
  op_blocks : region;
  op_members : list op_id
}.

(** A freshly built operation of the given kind, name and type. *)
Definition new_op (k : op_kind) (name : string) (ty : option mlir_type)
    : op_state :=
  {| op_kind_of := k; sym_name := name; op_type := ty;
     op_linkage := None; op_visibility := None;
     op_storage_class := None; op_thread_storage_class := None;
     op_value := None; has_initializer := false; has_allocator := false;
     op_attrs := ∅; op_blocks := []; op_members := [] |}.

Definition with_type (ty : option mlir_type) (o : op_state) : op_state :=
  {| op_kind_of := op_kind_of o; sym_name := sym_name o; op_type := ty;
     op_linkage := op_linkage o; op_visibility := op_visibility o;
     op_storage_class := op_storage_class o;
     op_thread_storage_class := op_thread_storage_class o;
     op_value := op_value o; has_initializer := has_initializer o;
     has_allocator := has_allocator o;
     op_attrs := op_attrs o; op_blocks := op_blocks o;
     op_members := op_members o |}.

Definition with_linkage (l : option GlobalLinkageKind) (o : op_state) : op_state :=
  {| op_kind_of := op_kind_of o; sym_name := sym_name o; op_type := op_type o;
     op_linkage := l; op_visibility := op_visibility o;
     op_storage_class := op_storage_class o;
     op_thread_storage_class := op_thread_storage_class o;
     op_value := op_value o; has_initializer := has_initializer o;
     has_allocator := has_allocator o;
     op_attrs := op_attrs o; op_blocks := op_blocks o;
     op_members := op_members o |}.

Definition with_visibility (v : option Visibility) (o : op_state) : op_state :=
  {| op_kind_of := op_kind_of o; sym_name := sym_name o; op_type := op_type o;
     op_linkage := op_linkage o; op_visibility := v;
     op_storage_class := op_storage_class o;
     op_thread_storage_class := op_thread_storage_class o;
     op_value := op_value o; has_initializer := has_initializer o;
     has_allocator := has_allocator o;
     op_attrs := op_attrs o; op_blocks := op_blocks o;
     op_members := op_members o |}.

Definition with_var_fields (sc : option hl_StorageClass) (tsc : option hl_TSClass)
    (init alloc : bool) (o : op_state) : op_state :=
  {| op_kind_of := op_kind_of o; sym_name := sym_name o; op_type := op_type o;
     op_linkage := op_linkage o; op_visibility := op_visibility o;
     op_storage_class := sc; op_thread_storage_class := tsc;
     op_value := op_value o; has_initializer := init; has_allocator := alloc;
     op_attrs := op_attrs o; op_blocks := op_blocks o;
     op_members := op_members o |}.

Definition with_value (z : option Z) (o : op_state) : op_state :=
  {| op_kind_of := op_kind_of o; sym_name := sym_name o; op_type := op_type o;
     op_linkage := op_linkage o; op_visibility := op_visibility o;
     op_storage_class := op_storage_class o;
     op_thread_storage_class := op_thread_storage_class o;
     op_value := z; has_initializer := has_initializer o;
     has_allocator := has_allocator o;
     op_attrs := op_attrs o; op_blocks := op_blocks o;
     op_members := op_members o |}.

Definition with_attrs (a : NamedAttrList) (o : op_state) : op_state :=
  {| op_kind_of := op_kind_of o; sym_name := sym_name o; op_type := op_type o;
     op_linkage := op_linkage o; op_visibility := op_visibility o;
     op_storage_class := op_storage_class o;
     op_thread_storage_class := op_thread_storage_class o;
     op_value := op_value o; has_initializer := has_initializer o;
     has_allocator := has_allocator o;
     op_attrs := a; op_blocks := op_blocks o;
     op_members := op_members o |}.

Definition with_blocks (r : region) (o : op_state) : op_state :=
  {| op_kind_of := op_kind_of o; sym_name := sym_name o; op_type := op_type o;
     op_linkage := op_linkage o; op_visibility := op_visibility o;
     op_storage_class := op_storage_class o;
     op_thread_storage_class := op_thread_storage_class o;
     op_value := op_value o; has_initializer := has_initializer o;
     has_allocator := has_allocator o;
     op_attrs := op_attrs o; op_blocks := r;
     op_members := op_members o |}.

Definition with_members (m : list op_id) (o : op_state) : op_state :=
  {| op_kind_of := op_kind_of o; sym_name := sym_name o; op_type := op_type o;
     op_linkage := op_linkage o; op_visibility := op_visibility o;
     op_storage_class := op_storage_class o;
     op_thread_storage_class := op_thread_storage_class o;
     op_value := op_value o; has_initializer := has_initializer o;
     has_allocator := has_allocator o;
     op_attrs := op_attrs o; op_blocks := op_blocks o;
     op_members := m |}.

(** *** Scoped symbol tables *)

(** A key of a symbol table: a declaration, or a mangled name. *)
Abbreviation symbol := (nat + string)%type (only parsing).

(** An [llvm::ScopedHashTable]: the innermost scope and the enclosing ones,
    nearest first. A table of operations holds an operation as the
    [OpResult] of its identity. *)
Record scoped_table := {
  innermost : gmap symbol mlir_value;
  enclosing : list (gmap symbol mlir_value)
}.

Definition empty_table : scoped_table := {| innermost := ∅; enclosing := [] |}.

(** [table.lookup(key)]: the binding of the nearest scope that has one. *)
Fixpoint chain_lookup (key : symbol) (scopes : list (gmap symbol mlir_value))
    : option mlir_value :=
  match scopes with
  | [] => None
  | scope :: outer =>
      match scope !! key with
      | Some v => Some v
      | None => chain_lookup key outer
      end
  end.

Definition table_lookup (key : symbol) (t : scoped_table) : option mlir_value :=
  chain_lookup key (innermost t :: enclosing t).

(** [table.insert(key, value)]: a binding in the current scope. *)
Definition table_insert (key : symbol) (v : mlir_value) (t : scoped_table)
    : scoped_table :=
  {| innermost := <[key := v]> (innermost t); enclosing := enclosing t |}.

(** Construction and destruction of an [llvm::ScopedHashTableScope]. *)
Definition push_scope (t : scoped_table) : scoped_table :=
  {| innermost := ∅; enclosing := innermost t :: enclosing t |}.
Definition pop_scope (t : scoped_table) : scoped_table :=
  match enclosing t with
  | outer :: rest => {| innermost := outer; enclosing := rest |}
  | [] => empty_table
  end.

(** The tables of the context. *)
Inductive table_id :=
| funcdecls | vars | labels | typedefs | typedecls | enumdecls | enumconsts.

#[global] Instance table_id_eq_dec : EqDecision table_id.
Proof. solve_decision. Defined.

Definition table_id_to_nat (t : table_id) : nat :=
  match t with
  | funcdecls => 0 | vars => 1 | labels => 2 | typedefs => 3
  | typedecls => 4 | enumdecls => 5 | enumconsts => 6
  end.
Definition table_id_of_nat (n : nat) : option table_id :=
  match n with
  | 0 => Some funcdecls | 1 => Some vars | 2 => Some labels
  | 3 => Some typedefs | 4 => Some typedecls | 5 => Some enumdecls
  | 6 => Some enumconsts | _ => None
  end.
#[global] Instance table_id_countable : Countable table_id.
Proof.
  apply (inj_countable table_id_to_nat table_id_of_nat). by intros [].
Defined.

(** *** Diagnostics *)
Inductive diagnostic :=
| err_duplicate_mangled_name (loc : source_location) (name : string)
| note_previous_definition (loc : source_location)
| context_error (msg : string).

(** *** The builder's insertion point

    At module level an operation is appended to the children of the
    module; inside the region of a type declaration the point is a position
    among the operations of the region; inside a function it is the end of
    a last block, as in [FunctionBody]. *)
Inductive insertion_point :=
| in_module
| in_region_of (parent : op_id) (index : nat)
| in_function (fn : op_id) (ip : FunctionBody.insertion_point).

#[global] Instance insertion_point_eq_dec : EqDecision insertion_point.
Proof. solve_decision. Defined.

(** *** The context *)
Record codegen_context := {
  next_op : op_id;
  ops : gmap op_id op_state;
  module_body : list op_id;
  symbol_table : gmap string op_id;
  insertion : insertion_point;
  tables : gmap table_id scoped_table;
  deferred_decls : gmap string GlobalDecl;
  deferred_decls_to_emit : list GlobalDecl;
  default_methods_to_emit : list GlobalDecl;
  diagnosed_conflicting_definitions : gset global_key;
  weak_ref_references : gset op_id;
  diagnostics : list diagnostic
}.

Definition new_context : codegen_context :=
  {| next_op := 0; ops := ∅; module_body := []; symbol_table := ∅;
     insertion := in_module; tables := ∅;
     deferred_decls := ∅; deferred_decls_to_emit := [];
     default_methods_to_emit := [];
     diagnosed_conflicting_definitions := ∅;
     weak_ref_references := ∅; diagnostics := [] |}.

Definition set_ops (f : gmap op_id op_state -> gmap op_id op_state)
    (c : codegen_context) : codegen_context :=
  {| next_op := next_op c; ops := f (ops c); module_body := module_body c;
     symbol_table := symbol_table c; insertion := insertion c;
     tables := tables c; deferred_decls := deferred_decls c;
     deferred_decls_to_emit := deferred_decls_to_emit c;
     default_methods_to_emit := default_methods_to_emit c;
     diagnosed_conflicting_definitions := diagnosed_conflicting_definitions c;
     weak_ref_references := weak_ref_references c;
     diagnostics := diagnostics c |}.

Definition set_insertion (ip : insertion_point) (c : codegen_context)
    : codegen_context :=
  {| next_op := next_op c; ops := ops c; module_body := module_body c;
     symbol_table := symbol_table c; insertion := ip;
     tables := tables c; deferred_decls := deferred_decls c;
     deferred_decls_to_emit := deferred_decls_to_emit c;
     default_methods_to_emit := default_methods_to_emit c;
     diagnosed_conflicting_definitions := diagnosed_conflicting_definitions c;
     weak_ref_references := weak_ref_references c;
     diagnostics := diagnostics c |}.

Definition set_tables (f : gmap table_id scoped_table -> gmap table_id scoped_table)
    (c : codegen_context) : codegen_context :=
  {| next_op := next_op c; ops := ops c; module_body := module_body c;
     symbol_table := symbol_table c; insertion := insertion c;
     tables := f (tables c); deferred_decls := deferred_decls c;
     deferred_decls_to_emit := deferred_decls_to_emit c;
     default_methods_to_emit := default_methods_to_emit c;
     diagnosed_conflicting_definitions := diagnosed_conflicting_definitions c;
     weak_ref_references := weak_ref_references c;
     diagnostics := diagnostics c |}.

Definition set_deferred (pending : gmap string GlobalDecl)
    (to_emit default_methods : list GlobalDecl)
    (c : codegen_context) : codegen_context :=
  {| next_op := next_op c; ops := ops c; module_body := module_body c;
     symbol_table := symbol_table c; insertion := insertion c;
     tables := tables c; deferred_decls := pending;
     deferred_decls_to_emit := to_emit;
     default_methods_to_emit := default_methods;
     diagnosed_conflicting_definitions := diagnosed_conflicting_definitions c;
     weak_ref_references := weak_ref_references c;
     diagnostics := diagnostics c |}.

Definition set_diagnosed (s : gset global_key) (c : codegen_context)
    : codegen_context :=
  {| next_op := next_op c; ops := ops c; module_body := module_body c;
     symbol_table := symbol_table c; insertion := insertion c;
     tables := tables c; deferred_decls := deferred_decls c;
     deferred_decls_to_emit := deferred_decls_to_emit c;
     default_methods_to_emit := default_methods_to_emit c;
     diagnosed_conflicting_definitions := s;
     weak_ref_references := weak_ref_references c;
     diagnostics := diagnostics c |}.

Definition set_weak_refs (s : gset op_id) (c : codegen_context)
    : codegen_context :=
  {| next_op := next_op c; ops := ops c; module_body := module_body c;
     symbol_table := symbol_table c; insertion := insertion c;
     tables := tables c; deferred_decls := deferred_decls c;
     deferred_decls_to_emit := deferred_decls_to_emit c;
     default_methods_to_emit := default_methods_to_emit c;
     diagnosed_conflicting_definitions := diagnosed_conflicting_definitions c;
     weak_ref_references := s;
     diagnostics := diagnostics c |}.

Definition add_diagnostic (d : diagnostic) (c : codegen_context)
    : codegen_context :=
  {| next_op := next_op c; ops := ops c; module_body := module_body c;
     symbol_table := symbol_table c; insertion := insertion c;
     tables := tables c; deferred_decls := deferred_decls c;
     deferred_decls_to_emit := deferred_decls_to_emit c;
     default_methods_to_emit := default_methods_to_emit c;
     diagnosed_conflicting_definitions := diagnosed_conflicting_definitions c;
     weak_ref_references := weak_ref_references c;
     diagnostics := diagnostics c ++ [d] |}.

(** The table [T] of the context (empty until something is declared). *)
Definition table (T : table_id) (c : codegen_context) : scoped_table :=
  default empty_table (tables c !! T).

(** *** The visitor monad: a state transformer that may abort *)
Definition M (A : Type) : Type := codegen_context -> outcome A * codegen_context.

#[global] Instance M_ret : MRet M := fun A a c => (Done a, c).
#[global] Instance M_bind : MBind M := fun A B f m c =>
  match m c with
  | (Done a, c') => f a c'
  | (Fatal msg, c') => (Fatal msg, c')
  end.

Definition fatal {A} (msg : string) : M A := fun c => (Fatal msg, c).
Definition get_context : M codegen_context := fun c => (Done c, c).
Definition modify (f : codegen_context -> codegen_context) : M unit :=
  fun c => (Done tt, f c).

(** [VAST_UNIMPLEMENTED_IF], [VAST_CHECK], [VAST_ASSERT] *)
Definition VAST_UNIMPLEMENTED_IF (cond : bool) : M unit :=
  if cond then fatal "not implemented" else mret tt.
Definition VAST_CHECK (cond : bool) (msg : string) : M unit :=
  if cond then mret tt else fatal msg.

(** *** Operations of the context

    The context class is not part of the sources at hand; its operations
    are modelled from the contracts the spec gives for them. *)

(** Modelled from the spec: [table.lookup(decl)] "returns the binding or a
    not-found signal". *)
Definition lookup (T : table_id) (key : symbol) : M (option mlir_value) :=
  fun c => (Done (table_lookup key (table T c)), c).

Definition bind_symbol (T : table_id) (key : symbol) (v : mlir_value) : M unit :=
  modify (fun c => set_tables <[T := table_insert key v (table T c)]> c).

(** Modelled from the spec: [declare(decl, builder)] -- "if [decl] already
    has a binding in the current table chain, return it; otherwise invoke
    [builder()] to construct the IR entity, bind it, and return it". *)
Definition declare (T : table_id) (key : symbol) (builder : M mlir_value)
    : M mlir_value :=
  found ← lookup T key;
  match found with
  | Some v => mret v
  | None =>
      v ← builder;
      bind_symbol T key v;;
      mret v
  end.

(** [value.getDefiningOp()]: null for a block argument. *)
Definition getDefiningOp (v : mlir_value) : option op_id :=
  match v with OpResult id => Some id | _ => None end.

(** [declare] for the tables that hold operations. *)
Definition declare_op (T : table_id) (key : symbol) (builder : M op_id)
    : M (option op_id) :=
  v ← declare T key (id ← builder; mret (OpResult id));
  mret (getDefiningOp v).

Definition lookup_op (T : table_id) (key : symbol) : M (option op_id) :=
  found ← lookup T key;
  mret (found ≫= getDefiningOp).

(** Entering and leaving an [llvm::ScopedHashTableScope] on table [T]. *)
Definition enter_scope (T : table_id) : M unit :=
  modify (fun c => set_tables <[T := push_scope (table T c)]> c).
Definition leave_scope (T : table_id) : M unit :=
  modify (fun c => set_tables <[T := pop_scope (table T c)]> c).

(** Modelled from the spec: [lookup_function(mangled, false)] looks the
    name up in the table of functions and reports nothing on a miss. *)
Definition lookup_function (mangled : string) : M (option op_id) :=
  lookup_op funcdecls (inr mangled).

(** Modelled from the spec: [get_global_value(name)] consults the "Global
    Value Table: module-wide map from canonical symbol name to IR global
    entity". *)
Definition get_global_value (name : string) : M (option op_id) :=
  fun c => (Done (symbol_table c !! name), c).

(** Modelled from the spec: [context().error(msg)] is the sink of "local
    recoverable errors": the message is reported and lowering continues. *)
Definition error (msg : string) : M unit :=
  modify (add_diagnostic (context_error msg)).

(** [diags.Report(loc, id) << args] *)
Definition Report (d : diagnostic) : M unit := modify (add_diagnostic d).

(** Modelled from the spec: the to-emit sequence is "ordered", drained
    "FIFO by promotion event"; both queues are appended to. *)
Definition add_deferred_decl_to_emit (glob : GlobalDecl) : M unit :=
  modify (fun c => set_deferred (deferred_decls c)
                     (deferred_decls_to_emit c ++ [glob])
                     (default_methods_to_emit c) c).
Definition add_default_methods_to_emit (glob : GlobalDecl) : M unit :=
  modify (fun c => set_deferred (deferred_decls c)
                     (deferred_decls_to_emit c)
                     (default_methods_to_emit c ++ [glob]) c).

(** [deferred.erase(ddi)] *)
Definition erase_deferred (name : string) : M unit :=
  modify (fun c => set_deferred (delete name (deferred_decls c))
                     (deferred_decls_to_emit c)
                     (default_methods_to_emit c) c).

(** *** Operations on operations *)

(** The state of an operation; a dangling operation is a fatal error. *)
Definition get_op (id : op_id) : M op_state :=
  fun c => match ops c !! id with
           | Some o => (Done o, c)
           | None => (Fatal "use of an erased operation", c)
           end.

Definition update_op (id : op_id) (f : op_state -> op_state) : M unit :=
  modify (set_ops (alter f id)).

(** [fn.isDeclaration()], [fn.empty()]: the function has no block. *)
Definition isDeclaration (o : op_state) : bool := is_empty (op_blocks o).

(** [insertion_guard()]: the insertion point is saved, and restored when the
    guard goes out of scope. What is saved inside a region is the position
    itself, so that an operation created at that very position while the
    guard is alive lies after the restored point. *)
Definition save_insertion_point : M insertion_point :=
  fun c => (Done (insertion c), c).
Definition restore_insertion_point (ip : insertion_point) : M unit :=
  modify (set_insertion ip).

Definition insert_nth {A} (i : nat) (x : A) (l : list A) : list A :=
  take i l ++ x :: drop i l.

(** [mlir_builder().create< op_t >(...)]: a new operation, inserted at the
    insertion point, which moves past it. The symbol table of the module
    answers for the operations that are children of the module: a function
    created with the builder at module level is entered in it, unless its
    name is already taken; a function created anywhere else (inside a
    record, at a call site) is no symbol of the module. *)
Definition create (o : op_state) : M op_id :=
  fun c =>
    let id := next_op c in
    let ops1 := <[id := o]> (ops c) in
    let symbols :=
      if bool_decide (op_kind_of o = FuncOp)
         && bool_decide (insertion c = in_module)
      then match symbol_table c !! sym_name o with
           | Some _ => symbol_table c
           | None => <[sym_name o := id]> (symbol_table c)
           end
      else symbol_table c in
    let '(ops2, body, ip) :=
      match insertion c with
      | in_module => (ops1, module_body c ++ [id], in_module)
      | in_region_of parent i =>
          (alter (fun p => with_members (insert_nth i id (op_members p)) p)
                 parent ops1,
           module_body c, in_region_of parent (S i))
      | in_function fn ip =>
          (alter (fun f => with_blocks
                    (FunctionBody.insert_at ip [Operation (decl_op id) []]
                                            (op_blocks f)) f)
                 fn ops1,
           module_body c, in_function fn ip)
      end in
    (Done id,
     {| next_op := S id; ops := ops2; module_body := body;
        symbol_table := symbols; insertion := ip;
        tables := tables c; deferred_decls := deferred_decls c;
        deferred_decls_to_emit := deferred_decls_to_emit c;
        default_methods_to_emit := default_methods_to_emit c;
        diagnosed_conflicting_definitions := diagnosed_conflicting_definitions c;
        weak_ref_references := weak_ref_references c;
        diagnostics := diagnostics c |}).

(** An operation built with a region callback: the callback runs with the
    insertion point at the start of the region of the new operation. *)
Definition create_with_region (o : op_state) (fill : M unit) : M op_id :=
  id ← create o;
  saved ← save_insertion_point;
  restore_insertion_point (in_region_of id 0);;
  fill;;
  restore_insertion_point saved;;
  mret id.

(** Running [f] on each element in order. *)
Fixpoint for_each {A} (l : list A) (f : A -> M unit) : M unit :=
  match l with
  | [] => mret tt
  | x :: l' => f x;; for_each l' f
  end.

(** *** The emission request of the global resolver *)

(** Modelled from the spec: the [global_emition] argument of
    [get_or_create_vast_function], its "emission request": whether the
    request is for a definition, and the [defer], [for_vtable] and [thunk]
    flags; [deferred_emit_definition] asks for a deferred definition. *)
Inductive emition_kind := definition | declaration.
Record global_emition := {
  for_vtable : bool;
  defer : bool;
  thunk : bool;
  emition : emition_kind
}.
Definition is_for_definition (emit : global_emition) : bool :=
  match emition emit with definition => true | declaration => false end.
Definition deferred_emit_definition : global_emition :=
  {| for_vtable := false; defer := true; thunk := false; emition := definition |}.
Definition emit_definition : global_emition :=
  {| for_vtable := false; defer := false; thunk := false; emition := definition |}.

(** *** The collaborators reached through [visitor_lens]

    The declaration visitor calls back into the derived visitor for
    everything it does not lower itself. *)
Class visitor_lens := {
  acontext : ASTContext;
  (** [visit(type)], [visit_as_lvalue_type(type)], [visit_function_type] *)
  visit_type : QualType -> mlir_type;
  visit_as_lvalue_type : QualType -> mlir_type;
  visit_function_type : FunctionDecl -> mlir_type;
  (** [visit(attr)] *)
  visit_attr : Attr -> Attribute;
  (** [visit(decl)] on a declaration reached through a pointer, and
      [visit(stmt)] *)
  visit_decl : decl_id -> M (option op_id);
  visit_stmt : Stmt -> M unit;
  (** [make_value_builder(expr)(bld, loc)] *)
  make_value_builder : Expr -> M unit;
  (** the name mangler *)
  get_mangled_name : GlobalDecl -> string;
  lookup_representative_decl : string -> option GlobalDecl;
  (** [core::get_function_linkage], [core::get_visibility_from_linkage] *)
  get_function_linkage : GlobalDecl -> GlobalLinkageKind;
  get_visibility_from_linkage : GlobalLinkageKind -> Visibility
}.

(** *** [default_decl_visitor] *)
Section default_decl_visitor.
Context {lens : visitor_lens}.

(** [visit_decl_attrs(decl, op)] on the operation [op] of the context. *)
Definition visit_decl_attrs (decl_attrs : list Attr) (op : op_id) : M unit :=
  o ← get_op op;
  match Attrs.visit_decl_attrs visit_attr decl_attrs (op_attrs o) with
  | Done attrs => update_op op (with_attrs attrs)
  | Fatal msg => fatal msg
  end.

Definition is_defaulted_method (function_decl : FunctionDecl) : bool :=
  if isDefaulted function_decl && isa_CXXMethodDecl function_decl
  then isCopyAssignmentOperator function_decl
       || isMoveAssignmentOperator function_decl
  else false.

(** [get_gdecl], for a function, a constructor or a destructor. *)
Definition get_gdecl (structor : structor_type) (decl : FunctionDecl)
    : GlobalDecl :=
  {| getDecl := Some decl; getStructor := structor |}.

Definition create_vast_function (mangled_name : string) (fty : function_type)
    (function_decl : FunctionDecl) : M op_id :=
  guard ← save_insertion_point;
  let linkage := get_function_linkage (get_gdecl NoStructor function_decl) in
  fn ← declare_op funcdecls (inr mangled_name)
         (create (with_linkage (Some linkage)
                    (new_op FuncOp mangled_name (Some (FunctionType fty)))));
  match fn with
  | None => fatal "null function"
  | Some fn =>
      visit_decl_attrs (fn_attrs function_decl) fn;;
      o ← get_op fn;
      VAST_CHECK (isDeclaration o) "expected empty body";;
      let visibility :=
        if isThisDeclarationADefinition function_decl
        then get_visibility_from_linkage linkage
        else if doesDeclarationForceExternallyVisibleDefinition function_decl
        then Public
        else Private in
      update_op fn (with_visibility (Some visibility));;
      restore_insertion_point guard;;
      mret fn
  end.

(** [diagnosed_conflicting_definitions.insert(glob).second] *)
Definition record_conflicting_definition (glob : GlobalDecl) : M bool :=
  fun c =>
    let key := getAsOpaquePtr glob in
    if bool_decide (key ∈ diagnosed_conflicting_definitions c)
    then (Done false, c)
    else (Done true,
          set_diagnosed ({[key]} ∪ diagnosed_conflicting_definitions c) c).

(** [weak_ref_references.erase(entry)]: whether an element was erased. *)
Definition erase_weak_ref (entry : op_id) : M bool :=
  fun c =>
    if bool_decide (entry ∈ weak_ref_references c)
    then (Done true, set_weak_refs (weak_ref_references c ∖ {[entry]}) c)
    else (Done false, c).

(** The walk over the redeclarations of [get_or_create_vast_function],
    from the most recent one backwards. *)
Fixpoint queue_record_member (glob : GlobalDecl) (redecls : list FunctionDecl)
    : M unit :=
  match redecls with
  | [] => mret tt
  | function_decl :: previous =>
      if lexical_context_isa_CXXRecordDecl function_decl
      then
        if doesThisDeclarationHaveABody function_decl
        then
          if is_defaulted_method function_decl
          then add_default_methods_to_emit (getWithDecl glob function_decl)
          else add_deferred_decl_to_emit (getWithDecl glob function_decl)
        else queue_record_member glob previous
      else queue_record_member glob previous
  end.

Definition get_or_create_vast_function (mangled_name : string)
    (type : mlir_type) (glob : GlobalDecl) (emit : global_emition) : M op_id :=
  VAST_UNIMPLEMENTED_IF (for_vtable emit);;
  VAST_UNIMPLEMENTED_IF (thunk emit);;
  let decl := getDecl glob in
  match decl with
  | Some fn =>
      VAST_UNIMPLEMENTED_IF (OpenMPIsTargetDevice acontext);;
      VAST_UNIMPLEMENTED_IF (isMultiVersion fn)
  | None => mret tt
  end;;
  entry ← get_global_value mangled_name;
  match entry with
  | Some entry =>
      fn ← get_op entry;
      VAST_UNIMPLEMENTED_IF (negb (bool_decide (op_kind_of fn = FuncOp)));;
      erased ← erase_weak_ref entry;
      VAST_UNIMPLEMENTED_IF erased;;
      (if is_for_definition emit && negb (isDeclaration fn)
       then
         match lookup_representative_decl mangled_name, decl with
         | Some other, Some d =>
             fresh ← record_conflicting_definition glob;
             if fresh : bool
             then
               Report (err_duplicate_mangled_name (fn_loc d) mangled_name);;
               Report (note_previous_definition
                         (from_option fn_loc 0 (getDecl other)))
             else mret tt
         | _, _ => mret tt
         end
       else mret tt);;
      if bool_decide (op_type fn = Some type)
      then mret entry
      else fatal "NYI"
  | None =>
      fty ← match type with
            | FunctionType core_fty => mret core_fty
            | _ => fatal "functions with incomplete types"
            end;
      function_decl ← match decl with
                      | Some d => mret d
                      | None => fatal "Only FunctionDecl supported so far."
                      end;
      fn ← create_vast_function mangled_name fty function_decl;
      (if defer emit
       then
         VAST_UNIMPLEMENTED_IF (isa_CXXDestructorDecl function_decl);;
         c ← get_context;
         match deferred_decls c !! mangled_name with
         | Some ddi =>
             add_deferred_decl_to_emit ddi;;
             erase_deferred mangled_name
         | None =>
             if CPlusPlus acontext
             then queue_record_member glob
                    (redecls_from_most_recent acontext function_decl)
             else mret tt
         end
       else mret tt);;
      o ← get_op fn;
      VAST_CHECK (bool_decide (op_type o = Some type)) "assertion failed";;
      mret fn
  end.

(** [declare_function_params]: [llvm::zip] pairs the parameters with the
    arguments of the entry block and stops at the shorter of the two. *)
Definition declare_function_params (params : list ParmVarDecl)
    (entry_arguments : list mlir_value) : M unit :=
  for_each (zip params entry_arguments)
    (fun '(arg, earg) => declare vars (inl (parm_id arg)) (mret earg);; mret tt).

(** [fn.addEntryBlock()]: one argument for each input of the function
    type, in order. *)
Definition entry_block (fty : function_type) : block :=
  Block (imap (fun i t => BlockArgument i t) (getInputs fty)) [].

(** The label declarations and the body statement of [emit_function_body],
    lowered inside a scope of the label table. *)
Definition emit_labels_and_body (decl : FunctionDecl) : M unit :=
  enter_scope labels;;
  for_each (fn_labels decl) (fun label => visit_decl (label_id label);; mret tt);;
  visit_stmt (fn_getBody decl);;
  leave_scope labels.

(** The end of [emit_function_body]: the search for the last operation
    and the terminator, on the blocks the function has by then. *)
Definition finish_function_body (decl : FunctionDecl) (fn : op_id)
    (fty : function_type) : M unit :=
  o ← get_op fn;
  match FunctionBody.find_last_op (op_blocks o),
        FunctionBody.emit_function_body_tail decl fty (op_blocks o) with
  | Some (ip, _), Some blocks =>
      update_op fn (with_blocks blocks);;
      restore_insertion_point (in_function fn ip)
  | _, _ => fatal "undefined behaviour"
  end.

Definition emit_function_body (decl : FunctionDecl) (fn : op_id) : M unit :=
  o ← get_op fn;
  fty ← match op_type o with
        | Some (FunctionType fty) => mret fty
        | _ => fatal "not a function type"
        end;
  let entry := entry_block fty in
  update_op fn (with_blocks [entry]);;
  restore_insertion_point (in_function fn 0);;
  (if hasBody decl
   then
     declare_function_params (parameters decl) (getArguments entry);;
     emit_labels_and_body decl
   else mret tt);;
  finish_function_body decl fn fty.

Definition VisitFunctionLikeDecl (structor : structor_type) (decl : FunctionDecl)
    : M (option op_id) :=
  let gdecl := get_gdecl structor decl in
  let mangled := get_mangled_name gdecl in
  let is_definition := isThisDeclarationADefinition decl in
  fn ← lookup_function mangled;
  guard ← save_insertion_point;
  enter_scope vars;;
  let def := getDefinition acontext decl in
  let linkage :=
    get_function_linkage
      (match def with Some d => get_gdecl NoStructor d | None => gdecl end) in
  fn ← match fn with
       | Some fn => mret (Some fn)
       | None =>
           declare_op funcdecls (inr mangled)
             (ret ← create (with_linkage (Some linkage)
                              (new_op FuncOp mangled
                                 (Some (visit_function_type decl))));
              update_op ret (with_visibility (Some Private));;
              mret ret)
       end;
  match fn with
  | None => fatal "null function"
  | Some fn =>
      (if negb is_definition then mret tt
       else
         update_op fn (with_visibility
                         (Some (get_visibility_from_linkage linkage)));;
         o ← get_op fn;
         if isDeclaration o then emit_function_body decl fn else mret tt);;
      leave_scope vars;;
      restore_insertion_point guard;;
      mret (Some fn)
  end.

Definition VisitFunctionDecl := VisitFunctionLikeDecl NoStructor.
Definition VisitCXXConstructorDecl := VisitFunctionLikeDecl Ctor_Complete.
Definition VisitCXXDestructorDecl := VisitFunctionLikeDecl Dtor_Complete.

Definition VisitStorageClass (decl : VarDecl) : hl_StorageClass :=
  match var_getStorageClass decl with
  | SC_None => sc_none
  | SC_Auto => sc_auto
  | SC_Static => sc_static
  | SC_Extern => sc_extern
  | SC_PrivateExtern => sc_private_extern
  | SC_Register => sc_register
  end.

Definition VisitThreadStorageClass (decl : VarDecl) : hl_TSClass :=
  match var_getTSCSpec decl with
  | TSCS_unspecified => tsc_none
  | TSCS___thread => tsc_gnu_thread
  | TSCS_thread_local => tsc_cxx_thread
  | TSCS__Thread_local => tsc_c_thread
  end.

(** The second pass of [VisitVarDecl]: the initializer region is filled
    once the operation of the variable exists. *)
Definition fill_initializer (decl : VarDecl) (var_decl : option op_id) : M unit :=
  match var_getInit decl with
  | Some init =>
      guard ← save_insertion_point;
      match var_decl with
      | Some declared =>
          restore_insertion_point (in_region_of declared 0);;
          make_value_builder init;;
          restore_insertion_point guard
      | None => fatal "null operation"
      end
  | None => mret tt
  end.

(** The builder [VisitVarDecl] hands to [declare]. *)
Definition make_var_decl (decl : VarDecl) : M mlir_value :=
  let type := var_type decl in
  let has_allocator := bool_decide (is_Some (variable_array_size type)) in
  let has_init := bool_decide (is_Some (var_getInit decl)) in
  let sc := VisitStorageClass decl in
  let tsc := VisitThreadStorageClass decl in
  var ← create_with_region
          (with_var_fields
             (if bool_decide (sc = sc_none) then None else Some sc)
             (if bool_decide (tsc = tsc_none) then None else Some tsc)
             has_init has_allocator
             (new_op VarDeclOp (var_name decl)
                     (Some (visit_as_lvalue_type type))))
          (match variable_array_size type with
           | Some size => make_value_builder size
           | None => mret tt
           end);
  mret (OpResult var).

Definition VisitVarDecl (decl : VarDecl) : M (option op_id) :=
  v ← declare vars (inl (var_id decl)) (make_var_decl decl);
  let var_decl := getDefiningOp v in
  fill_initializer decl var_decl;;
  mret var_decl.

Definition VisitParmVarDecl (decl : ParmVarDecl) : M (option op_id) :=
  var ← lookup vars (inl (parm_id decl));
  match var with
  | Some var => mret (getDefiningOp var)
  | None =>
      error ("error: missing parameter declaration " +:+ parm_name decl);;
      mret None
  end.

Definition VisitTranslationUnitDecl (tu : list decl_id) : M (option op_id) :=
  for_each tu (fun decl => visit_decl decl;; mret tt);;
  mret None.

Fixpoint walk_type (type : QualType) (yield : QualType -> M bool) : M unit :=
  stop ← yield type;
  if stop : bool then mret tt
  else
    match type with
    | ArrayType element _ => walk_type element yield
    | _ => mret tt
    end;;
    match type with
    | PointerType pointee => walk_type pointee yield
    | _ => mret tt
    end.

Definition VisitTypedefDecl (decl : TypedefDecl) : M (option op_id) :=
  declare_op typedefs (inl (typedef_id decl))
    (let underlying := getUnderlyingType decl in
     type ← match underlying with
            | FunctionProtoType _ => mret (visit_type underlying)
            | _ =>
                walk_type underlying
                  (fun ty => match ty with
                             | TagType tag => visit_decl tag;; mret true
                             | _ => mret false
                             end);;
                mret (visit_type underlying)
            end;
     create (new_op TypeDefOp (typedef_name decl) (Some type))).

Definition VisitLabelDecl (decl : LabelDecl) : M (option op_id) :=
  declare_op labels (inl (label_id decl))
    (create (new_op LabelDeclOp (label_name decl) None)).

Definition visit_enumerators (decl : EnumDecl) : M unit :=
  for_each (enumerators decl)
    (fun con => visit_decl (enumerator_id con);; mret tt).

(** The [while (prev)] loop of [VisitEnumDecl] over the previous
    declarations: the first one that has an operation is completed in
    place; [None] when no previous declaration has one. *)
Fixpoint complete_previous (decl : EnumDecl) (prevs : list EnumRedecl)
    : M (option op_id) :=
  match prevs with
  | [] => mret None
  | prev :: earlier =>
      prev_op ← lookup_op enumdecls (inl (prev_id prev));
      match prev_op with
      | Some prev_op =>
          VAST_CHECK (negb (prev_isComplete prev)) "assertion failed";;
          update_op prev_op (with_type (Some (visit_type (getIntegerType decl))));;
          guard ← save_insertion_point;
          restore_insertion_point (in_region_of prev_op 0);;
          visit_enumerators decl;;
          restore_insertion_point guard;;
          mret (Some prev_op)
      | None => complete_previous decl earlier
      end
  end.

Definition declare_enum (decl : EnumDecl) : M (option op_id) :=
  declare_op enumdecls (inl (enum_id decl))
    (if negb (isComplete decl)
     then create (new_op EnumDeclOp (enum_name decl) None)
     else create_with_region
            (new_op EnumDeclOp (enum_name decl)
                    (Some (visit_type (getIntegerType decl))))
            (visit_enumerators decl)).

Definition VisitEnumDecl (decl : EnumDecl) : M (option op_id) :=
  match previous_decls decl with
  | prev :: _ =>
      if negb (isComplete decl)
      then lookup_op enumdecls (inl (prev_id prev))
      else
        completed ← complete_previous decl (previous_decls decl);
        match completed with
        | Some prev_op => mret (Some prev_op)
        | None => declare_enum decl
        end
  | [] => declare_enum decl
  end.

Definition VisitEnumConstantDecl (decl : EnumConstantDecl) : M (option op_id) :=
  declare_op enumconsts (inl (enumerator_id decl))
    (let type := visit_type (enumerator_type decl) in
     create_with_region
       (with_value (Some (getInitVal decl))
          (new_op EnumConstantOp (enumerator_name decl) (Some type)))
       (match getInitExpr decl with
        | Some init => make_value_builder init
        | None => mret tt
        end)).

(** The [fields] callback of [make_record_decl]. *)
Definition visit_record_children (children : list ChildDecl) : M unit :=
  for_each children
    (fun child =>
       match getChildKind child with
       | FieldChild | AccessSpecChild | VarChild
       | CXXConstructorChild | CXXDestructorChild
       | FunctionChild true => visit_decl (child_id child);; mret tt
       | FunctionChild false | OtherChild => mret tt
       end).

Definition make_record_decl (Op : op_kind) (decl : RecordDecl)
    : M (option op_id) :=
  if negb (isCompleteDefinition decl)
  then declare_op typedecls (inl (record_id decl))
         (create (new_op TypeDeclOp (record_name decl) None))
  else
    op ← create_with_region (new_op Op (record_name decl) None)
           (visit_record_children (decls decl));
    mret (Some op).

Definition VisitRecordDecl (decl : RecordDecl) : M (option op_id) :=
  if isUnion decl
  then make_record_decl UnionDeclOp decl
  else make_record_decl StructDeclOp decl.

Definition VisitCXXRecordDecl (decl : RecordDecl) : M (option op_id) :=
  if isClass decl
  then make_record_decl ClassDeclOp decl
  else make_record_decl CxxStructDeclOp decl.

End default_decl_visitor.

(** *** Frame conditions *)

(** The deferred-emission ledger of a context. *)
Definition ledger (c : codegen_context)
    : gmap string GlobalDecl * list GlobalDecl * list GlobalDecl :=
  (deferred_decls c, deferred_decls_to_emit c, default_methods_to_emit c).

(** A computation that leaves the component [proj] of the context as it
    found it, whether it returns or aborts. *)
Definition keeps {A X} (proj : codegen_context -> X) (m : M A) : Prop :=
  forall c, proj (m c).2 = proj c.

(** A computation that, when it returns, has left the component [proj] of
    the context as it found it. *)
Definition preserves {A X} (proj : codegen_context -> X) (m : M A) : Prop :=
  forall c a c', m c = (Done a, c') -> proj c' = proj c.

(** A computation that, when it returns, has left every binding of table
    [T] in place: a key that had a value still has that value. This is what
    [declare] does to its table, which gets a binding only for a key that
    had none. *)
Definition persists {A} (T : table_id) (m : M A) : Prop :=
  forall c a c' key v,
    m c = (Done a, c') ->
    table_lookup key (table T c) = Some v ->
    table_lookup key (table T c') = Some v.

(** The operations of the module, as far as the global resolver can tell:
    the operations and their states, the symbol table, the next fresh
    identity and the set of weak references. *)
Definition module_view (c : codegen_context)
    : gmap op_id op_state * gmap string op_id * op_id * gset op_id :=
  (ops c, symbol_table c, next_op c, weak_ref_references c).

(** The scopes of table [T] that enclose the current one. *)
Definition enclosing_scopes (T : table_id) (c : codegen_context)
    : list (gmap symbol mlir_value) :=
  enclosing (table T c).

End CodeGen.


(** ** The remaining entry points of the declaration visitor *)
Module Entry.
Import IR Clang Abort Attrs CodeGen.

(** The tag declaration at the end of a chain of array and pointer types,
    if the chain ends in one. *)
Fixpoint innermost_tag (type : QualType) : option decl_id :=
  match type with
  | TagType tag => Some tag
  | ArrayType element _ => innermost_tag element
  | PointerType pointee => innermost_tag pointee
  | _ => None
  end.

Section entry_points.
Context {lens : visitor_lens}.

(** [clang::cast< clang::FunctionDecl >(decl.getDecl())]: the cast of a
    null declaration is a failed assertion. *)
Definition cast_FunctionDecl (decl : GlobalDecl) : M FunctionDecl :=
  match getDecl decl with
  | Some fn => mret fn
  | None => fatal "cast of a null declaration"
  end.

(** [get_addr_of_function]; [fty] is a type handle, which may be null. *)
Definition get_addr_of_function (decl : GlobalDecl) (fty : option mlir_type)
    (emit : global_emition) : M op_id :=
  VAST_UNIMPLEMENTED_IF (for_vtable emit);;
  fn ← cast_FunctionDecl decl;
  VAST_CHECK (negb (isConsteval fn))
             "consteval function should never be emitted";;
  match fty with
  | None => fatal "missing function type"
  | Some fty =>
      VAST_UNIMPLEMENTED_IF (isa_CXXDestructorDecl fn);;
      let mangled_name := get_mangled_name decl in
      get_or_create_vast_function mangled_name fty decl emit
  end.

(** [build_function_prototype] *)
Definition build_function_prototype (decl : GlobalDecl) : M op_id :=
  fn ← cast_FunctionDecl decl;
  let fty := visit_function_type fn in
  get_addr_of_function decl (Some fty) deferred_emit_definition.

(** [decl_visitor_with_attrs::Visit]: [base_Visit] is [base::Visit(decl)],
    the dispatch of the declaration to its visitor, and [decl_attrs] the
    attributes of the declaration. *)
Definition decl_visitor_with_attrs_Visit (base_Visit : M (option op_id))
    (decl_attrs : list Attr) : M (option op_id) :=
  op ← base_Visit;
  match op with
  | Some op => visit_decl_attrs decl_attrs op;; mret (Some op)
  | None => mret None
  end.

End entry_points.

End Entry.


(** ** Concrete inputs used to exercise the definitions *)
Module Examples.
Import IR Clang FunctionBody.

(** A function declaration [name] with the given return kind, parameters
    and attributes; every other flag is off. *)
Definition function_decl (id : decl_id) (name : string)
    (returns_void is_main is_definition : bool)
    (params : list ParmVarDecl) (attrs : list Attr) : FunctionDecl :=
  {| fn_id := id; fn_name := name; fn_loc := id; fn_attrs := attrs;
     isThisDeclarationADefinition := is_definition;
     hasBody := is_definition;
     doesThisDeclarationHaveABody := is_definition;
     doesDeclarationForceExternallyVisibleDefinition := false;
     isDefaulted := false;
     isa_CXXMethodDecl := false;
     isa_CXXDestructorDecl := false;
     isCopyAssignmentOperator := false;
     isMoveAssignmentOperator := false;
     isMultiVersion := false;
     isConsteval := false;
     lexical_context_isa_CXXRecordDecl := false;
     returnType_isVoidType := returns_void;
     isMain := is_main;
     isVariadic := false;
     parameters := params;
     fn_labels := [];
     fn_getBody := 0 |}.

(** [int f(void) { ... }] and its IR type. *)
Definition int_f : FunctionDecl := function_decl 1 "f" false false true [] [].
Definition int_fty : function_type := FnTy [] ["!hl.int"] false.

Definition hl_expr : operation := Operation (other_op "hl.expr" false) [].
Definition hl_return : operation := Operation (hl_ReturnOp (OpResult 1)) [].
Definition scope (body : region) : operation := Operation core_ScopeOp body.

(** [int f(void) { { expr; return e; } }]: the function's only operation
    is a scope that ends in a return. *)
Definition trailing_scope_with_return : region :=
  [Block [] [scope [Block [] [hl_expr; hl_return]]]].

(** [int f(void) { expr; { expr; } }]: the last operation of the last block
    is a scope whose own only block holds exactly one operation; the scope
    is not the only operation of its parent block. *)
Definition scope_after_expression : region :=
  [Block [] [hl_expr; scope [Block [] [hl_expr]]]].

(** [int f(void) { { { expr; } } }]: two nested trailing scopes. *)
Definition nested_trailing_scopes : region :=
  [Block [] [scope [Block [] [scope [Block [] [hl_expr]]]]]].

(** [__attribute__((section(".data")))] on a declaration, lowered to the
    printed form of its argument. *)
Definition section_attr (args : string) : Attr :=
  {| getKind := OtherAttr; getSpelling := "section"; getArgs := args |}.
Definition print_args (attr : Attr) : Attrs.Attribute := getArgs attr.


(** A C translation unit and collaborators that lower nothing: types are
    lowered to their names, a function type has one input for each
    parameter of the declaration it is taken from, nested declarations and
    statements are skipped, a declaration is mangled to its own name. *)
Definition c_ast : ASTContext :=
  {| CPlusPlus := false;
     OpenMPIsTargetDevice := false;
     redecls_from_most_recent := fun d => [d];
     getDefinition := fun d =>
       if isThisDeclarationADefinition d then Some d else None |}.

Fixpoint type_name (t : QualType) : string :=
  match t with
  | BuiltinType n => n
  | FunctionProtoType n => n
  | TagType d => "tag"
  | ArrayType e _ => type_name e +:+ "[]"
  | PointerType p => type_name p +:+ "*"
  end.

Definition prototype_of (d : FunctionDecl) : function_type :=
  FnTy ((fun _ => "!hl.lvalue<!hl.int>") <$> parameters d)
       (if returnType_isVoidType d then [] else ["!hl.int"])
       (isVariadic d).

Definition c_lens (representative : string -> option GlobalDecl)
    : CodeGen.visitor_lens :=
  {| CodeGen.acontext := c_ast;
     CodeGen.visit_type := fun t => ElementType (type_name t);
     CodeGen.visit_as_lvalue_type := fun t => ElementType (type_name t);
     CodeGen.visit_function_type := fun d => FunctionType (prototype_of d);
     CodeGen.visit_attr := print_args;
     CodeGen.visit_decl := fun _ => mret None;
     CodeGen.visit_stmt := fun _ => mret tt;
     CodeGen.make_value_builder := fun _ => mret tt;
     CodeGen.get_mangled_name := fun g => from_option fn_name "" (getDecl g);
     CodeGen.lookup_representative_decl := representative;
     CodeGen.get_function_linkage := fun _ => 0;
     CodeGen.get_visibility_from_linkage := fun _ => CodeGen.Public |}.

Definition no_representative : string -> option GlobalDecl := fun _ => None.

(** A parameter [x] that was never declared. *)
Definition parm_x : ParmVarDecl := {| parm_id := 7; parm_name := "x" |}.


(** [int g(void);] is pending under its mangled name when [g] is first
    referenced. *)
Definition int_g : FunctionDecl := function_decl 2 "g" false false false [] [].
Definition glob_g : GlobalDecl := CodeGen.get_gdecl NoStructor int_g.
Definition pending_g : CodeGen.codegen_context :=
  CodeGen.set_deferred {[ "g" := glob_g ]} [] [] CodeGen.new_context.

(** A second and a third definition of [f], each a declaration of its
    own, and the context after the first definition [int_f] was lowered. *)
Definition int_f_again : FunctionDecl := function_decl 3 "f" false false true [] [].
Definition int_f_third : FunctionDecl := function_decl 4 "f" false false true [] [].
Definition first_definition (name : string) : option GlobalDecl :=
  if bool_decide (name = "f") then Some (CodeGen.get_gdecl NoStructor int_f)
  else None.
Definition defined_f : CodeGen.codegen_context :=
  (CodeGen.VisitFunctionDecl (lens := c_lens first_definition) int_f
     CodeGen.new_context).2.


(** [int h();] followed by [int h(int a) { }]: a declaration without a
    prototype and the definition of the same function. *)
Definition parm_a : ParmVarDecl := {| parm_id := 11; parm_name := "a" |}.
Definition h_declaration : FunctionDecl :=
  function_decl 10 "h" false false false [] [].
Definition h_definition : FunctionDecl :=
  function_decl 12 "h" false false true [parm_a] [].

(** [int k(int a) { }] alone. *)
Definition k_definition : FunctionDecl :=
  function_decl 13 "k" false false true [parm_a] [].


(** [struct S;] and [struct S { };], a forward declaration and the
    definition of the same record. *)
Definition S_forward : RecordDecl :=
  {| record_id := 20; record_name := "S"; record_loc := 20;
     getTagKind := TTK_Struct; isCompleteDefinition := false; decls := [] |}.
Definition S_definition : RecordDecl :=
  {| record_id := 21; record_name := "S"; record_loc := 21;
     getTagKind := TTK_Struct; isCompleteDefinition := true; decls := [] |}.

(** [enum E;] and [enum E { A, B };]. *)
Definition enumerator_A : EnumConstantDecl :=
  {| enumerator_id := 32; enumerator_name := "A"; enumerator_loc := 32;
     enumerator_type := BuiltinType "int"; getInitVal := 0;
     getInitExpr := None |}.
Definition enumerator_B : EnumConstantDecl :=
  {| enumerator_id := 33; enumerator_name := "B"; enumerator_loc := 33;
     enumerator_type := BuiltinType "int"; getInitVal := 1;
     getInitExpr := None |}.
Definition E_forward : EnumDecl :=
  {| enum_id := 30; enum_name := "E"; enum_loc := 30; previous_decls := [];
     isComplete := false; getIntegerType := BuiltinType "unsigned int";
     enumerators := [] |}.
Definition E_definition : EnumDecl :=
  {| enum_id := 31; enum_name := "E"; enum_loc := 31;
     previous_decls := [{| prev_id := 30; prev_isComplete := false |}];
     isComplete := true; getIntegerType := BuiltinType "unsigned int";
     enumerators := [enumerator_A; enumerator_B] |}.

(** Collaborators as in [c_lens], with the enumerators of [E] dispatched
    to [VisitEnumConstantDecl]. *)
Definition enum_lens : CodeGen.visitor_lens :=
  let leaf := c_lens no_representative in
  {| CodeGen.acontext := c_ast;
     CodeGen.visit_type := fun t => ElementType (type_name t);
     CodeGen.visit_as_lvalue_type := fun t => ElementType (type_name t);
     CodeGen.visit_function_type := fun d => FunctionType (prototype_of d);
     CodeGen.visit_attr := print_args;
     CodeGen.visit_decl := fun d =>
       if bool_decide (d = 32)
       then CodeGen.VisitEnumConstantDecl (lens := leaf) enumerator_A
       else if bool_decide (d = 33)
       then CodeGen.VisitEnumConstantDecl (lens := leaf) enumerator_B
       else mret None;
     CodeGen.visit_stmt := fun _ => mret tt;
     CodeGen.make_value_builder := fun _ => mret tt;
     CodeGen.get_mangled_name := fun g => from_option fn_name "" (getDecl g);
     CodeGen.lookup_representative_decl := no_representative;
     CodeGen.get_function_linkage := fun _ => 0;
     CodeGen.get_visibility_from_linkage := fun _ => CodeGen.Public |}.

Definition label_out : LabelDecl :=
  {| label_id := 40; label_name := "out"; label_loc := 40 |}.


(** [int k(int a) = delete;]: a definition without a body. *)
Definition k_deleted : FunctionDecl :=
  {| fn_id := 14; fn_name := "k"; fn_loc := 14; fn_attrs := [];
     isThisDeclarationADefinition := true;
     hasBody := false;
     doesThisDeclarationHaveABody := false;
     doesDeclarationForceExternallyVisibleDefinition := false;
     isDefaulted := false;
     isa_CXXMethodDecl := false;
     isa_CXXDestructorDecl := false;
     isCopyAssignmentOperator := false;
     isMoveAssignmentOperator := false;
     isMultiVersion := false;
     isConsteval := false;
     lexical_context_isa_CXXRecordDecl := false;
     returnType_isVoidType := false;
     isMain := false;
     isVariadic := false;
     parameters := [parm_a];
     fn_labels := [];
     fn_getBody := 0 |}.


(** [__attribute__((aligned(16)))] and [__attribute__((weak))]. *)
Definition aligned_attr (args : string) : Attr :=
  {| getKind := OtherAttr; getSpelling := "aligned"; getArgs := args |}.
Definition weak_attr : Attr :=
  {| getKind := WeakAttr; getSpelling := "weak"; getArgs := "" |}.


(** [consteval int sq(void) { ... }] *)
Definition consteval_f : FunctionDecl :=
  {| fn_id := 15; fn_name := "sq"; fn_loc := 15; fn_attrs := [];
     isThisDeclarationADefinition := true;
     hasBody := true;
     doesThisDeclarationHaveABody := true;
     doesDeclarationForceExternallyVisibleDefinition := false;
     isDefaulted := false;
     isa_CXXMethodDecl := false;
     isa_CXXDestructorDecl := false;
     isCopyAssignmentOperator := false;
     isMoveAssignmentOperator := false;
     isMultiVersion := false;
     isConsteval := true;
     lexical_context_isa_CXXRecordDecl := false;
     returnType_isVoidType := false;
     isMain := false;
     isVariadic := false;
     parameters := [];
     fn_labels := [];
     fn_getBody := 0 |}.


(** [static int x = e;] *)
Definition static_x : VarDecl :=
  {| var_id := 50; var_name := "x"; var_loc := 50;
     var_type := BuiltinType "int"; var_getInit := Some 0;
     var_getStorageClass := SC_Static;
     var_getTSCSpec := TSCS_unspecified |}.


(** [enum E { A, B };] twice: a definition and a redefinition. *)
Definition E_complete : EnumDecl :=
  {| enum_id := 34; enum_name := "E"; enum_loc := 34; previous_decls := [];
     isComplete := true; getIntegerType := BuiltinType "unsigned int";
     enumerators := [enumerator_A; enumerator_B] |}.
Definition E_redefinition : EnumDecl :=
  {| enum_id := 35; enum_name := "E"; enum_loc := 35;
     previous_decls := [{| prev_id := 34; prev_isComplete := true |}];
     isComplete := true; getIntegerType := BuiltinType "unsigned int";
     enumerators := [enumerator_A; enumerator_B] |}.


(** [struct T { int x; T &operator=(const T &); };] and the same record
    without the operator. *)
Definition field_x : ChildDecl := {| child_id := 61; getChildKind := FieldChild |}.
Definition operator_assign : ChildDecl :=
  {| child_id := 62; getChildKind := FunctionChild false |}.
Definition T_with_operator : RecordDecl :=
  {| record_id := 60; record_name := "T"; record_loc := 60;
     getTagKind := TTK_Struct; isCompleteDefinition := true;
     decls := [field_x; operator_assign] |}.
Definition T_without_operator : RecordDecl :=
  {| record_id := 60; record_name := "T"; record_loc := 60;
     getTagKind := TTK_Struct; isCompleteDefinition := true;
     decls := [field_x] |}.



(** Collaborators as in [c_lens], over the translation unit [ast], with the
    given visitors of nested declarations, of statements and of
    initializers. *)
Definition lens_with (ast : ASTContext)
    (visit_decl : decl_id -> CodeGen.M (option nat))
    (visit_stmt : Stmt -> CodeGen.M unit)
    (make_value_builder : Expr -> CodeGen.M unit) : CodeGen.visitor_lens :=
  {| CodeGen.acontext := ast;
     CodeGen.visit_type := fun t => ElementType (type_name t);
     CodeGen.visit_as_lvalue_type := fun t => ElementType (type_name t);
     CodeGen.visit_function_type := fun d => FunctionType (prototype_of d);
     CodeGen.visit_attr := print_args;
     CodeGen.visit_decl := visit_decl;
     CodeGen.visit_stmt := visit_stmt;
     CodeGen.make_value_builder := make_value_builder;
     CodeGen.get_mangled_name := fun g => from_option fn_name "" (getDecl g);
     CodeGen.lookup_representative_decl := no_representative;
     CodeGen.get_function_linkage := fun _ => 0;
     CodeGen.get_visibility_from_linkage := fun _ => CodeGen.Public |}.

(** [int y;], a variable declared inside an initializer, as in
    [static int x = ({ int y; ... });]. *)
Definition local_y : VarDecl :=
  {| var_id := 51; var_name := "y"; var_loc := 51;
     var_type := BuiltinType "int"; var_getInit := None;
     var_getStorageClass := SC_None;
     var_getTSCSpec := TSCS_unspecified |}.

(** The translation unit [x; int g(void); int f(void) { g(); }] where [x]
    is the stray parameter: the declarations [7] and [2] are dispatched to
    [VisitParmVarDecl] and [VisitFunctionDecl], lowering a statement lowers
    the declaration of the callee [g], and lowering an initializer lowers
    the declaration of [y]. *)
Definition unit_lens : CodeGen.visitor_lens :=
  let leaf := c_lens no_representative in
  lens_with c_ast
    (fun d =>
       if bool_decide (d = 7) then CodeGen.VisitParmVarDecl parm_x
       else if bool_decide (d = 2)
       then CodeGen.VisitFunctionDecl (lens := leaf) int_g
       else mret None)
    (fun _ => CodeGen.VisitFunctionDecl (lens := leaf) int_g;; mret tt)
    (fun _ => CodeGen.VisitVarDecl (lens := leaf) local_y;; mret tt).

(** A function of a C++ translation unit; every flag not given is off. *)
Definition cxx_function_decl (id : decl_id) (name : string)
    (is_method in_record has_body defaulted copy_assignment : bool)
    : FunctionDecl :=
  {| fn_id := id; fn_name := name; fn_loc := id; fn_attrs := [];
     isThisDeclarationADefinition := has_body;
     hasBody := has_body;
     doesThisDeclarationHaveABody := has_body;
     doesDeclarationForceExternallyVisibleDefinition := false;
     isDefaulted := defaulted;
     isa_CXXMethodDecl := is_method;
     isa_CXXDestructorDecl := false;
     isCopyAssignmentOperator := copy_assignment;
     isMoveAssignmentOperator := false;
     isMultiVersion := false;
     isConsteval := false;
     lexical_context_isa_CXXRecordDecl := in_record;
     returnType_isVoidType := false;
     isMain := false;
     isVariadic := false;
     parameters := [];
     fn_labels := [];
     fn_getBody := 0 |}.

(** [struct T { friend int peek(T) { ... }
               T &operator=(const T &) = default; };]
    [int peek(T);]: a friend function defined inline in the record and
    declared again outside of it, and an assignment operator defaulted in
    the record. *)
Definition peek_friend : FunctionDecl :=
  cxx_function_decl 70 "_Z4peek1T" false true true false false.
Definition peek_redeclared : FunctionDecl :=
  cxx_function_decl 71 "_Z4peek1T" false false false false false.
Definition assign_defaulted : FunctionDecl :=
  cxx_function_decl 72 "_ZN1TaSERKS_" true true true true true.

(** The C++ translation unit: the redeclarations of [peek], from the most
    recent one backwards, are the declaration outside the record and the
    friend definition. *)
Definition cxx_ast : ASTContext :=
  {| CPlusPlus := true;
     OpenMPIsTargetDevice := false;
     redecls_from_most_recent := fun d =>
       if bool_decide (fn_name d = "_Z4peek1T")
       then [peek_redeclared; peek_friend]
       else [d];
     getDefinition := fun d =>
       if isThisDeclarationADefinition d then Some d else None |}.

Definition cxx_lens : CodeGen.visitor_lens :=
  lens_with cxx_ast (fun _ => mret None) (fun _ => mret tt) (fun _ => mret tt).

End Examples.


(** * Properties *)

Import IR Clang FunctionBody.

(** ** Function bodies *)

Section region_lemmas.

Lemma at_back_snoc {A} (f : A -> A) l x : at_back f (l ++ [x]) = l ++ [f x].
Proof.
  induction l as [|y l IH]; [done|].
  simpl. rewrite IH. by destruct l.
Qed.

Lemma back_snoc {A} (l : list A) x : back (l ++ [x]) = Some x.
Proof. apply last_snoc. Qed.

Lemma back_Some_snoc {A} (l : list A) x : back l = Some x -> exists l', l = l' ++ [x].
Proof. intros H. by apply last_Some. Qed.

Lemma back_nonempty {A} (l : list A) : l <> [] -> exists x, back l = Some x.
Proof. intros H. by apply last_is_Some in H as [x Hx]; exists x. Qed.

Lemma op_depth_unfold n body : op_depth (Operation n body) = S (region_depth body).
Proof.
  simpl. f_equal. induction body as [|[a ops] bs IH]; [done|].
  unfold region_depth in *. simpl. by rewrite IH.
Qed.

Lemma count_op_unfold p n body :
  count_op p (Operation n body)
  = (if p (Operation n body) then 1 else 0) + count_region p body.
Proof.
  simpl. f_equal. induction body as [|[a ops] bs IH]; [done|].
  unfold count_region in *. simpl. by rewrite IH.
Qed.

Lemma count_ops_app p l1 l2 : count_ops p (l1 ++ l2) = count_ops p l1 + count_ops p l2.
Proof. induction l1 as [|o l1 IH]; simpl; [done|]. rewrite IH. lia. Qed.

Lemma count_region_app p r1 r2 :
  count_region p (r1 ++ r2) = count_region p r1 + count_region p r2.
Proof. induction r1 as [|b r1 IH]; simpl; [done|]. rewrite IH. lia. Qed.

Lemma region_depth_single a op : region_depth [Block a [op]] = op_depth op.
Proof. unfold region_depth, block_depth. simpl. lia. Qed.

Lemma count_region_single p a op : count_region p [Block a [op]] = count_op p op.
Proof. unfold count_region, count_block. simpl. lia. Qed.

End region_lemmas.

Section trailing_scope_search.

(** The insertion point only accumulates along the loop. *)
Lemma trailing_scope_loop_shift fuel parent ip last_op :
  trailing_scope_loop fuel parent ip last_op
  = (fun '(i, l) => (ip + i, l)) <$> trailing_scope_loop fuel parent 0 last_op.
Proof.
  revert parent ip last_op.
  induction fuel as [|fuel IH]; intros parent ip last_op; simpl.
  - destruct (next_scope last_op); simpl; [done|]. by rewrite Nat.add_0_r.
  - destruct (next_scope last_op) as [scope|]; simpl;
      [|by rewrite Nat.add_0_r].
    destruct (hasOneBlock parent && _).
    + destruct (is_empty (getBody scope)); [done|].
      rewrite (IH _ (S ip)), (IH _ 1).
      destruct (trailing_scope_loop fuel _ 0 _) as [[i l]|]; simpl; [|done].
      do 2 f_equal. lia.
    + apply IH.
Qed.

Lemma find_last_op_unfold blocks lb :
  back blocks = Some lb ->
  find_last_op blocks
  = if negb (is_empty (getOperations lb))
    then trailing_scope_loop (S (region_depth blocks)) blocks 0
                             (back (getOperations lb))
    else Some (0, back (getOperations lb)).
Proof. intros H. unfold find_last_op. by rewrite H. Qed.

Lemma trailing_scope_loop_enter fuel parent ip scope :
  isa_ScopeOp scope = true ->
  hasOneBlock parent && from_option has_single_operation false (back parent)
  = true ->
  getBody scope <> [] ->
  trailing_scope_loop (S fuel) parent ip (Some scope)
  = trailing_scope_loop fuel (getBody scope) (S ip) (get_last_op scope).
Proof.
  intros Hs Hc Hb. cbn [trailing_scope_loop next_scope]. rewrite Hs, Hc.
  by destruct (getBody scope).
Qed.

Lemma trailing_scope_loop_null fuel parent ip :
  trailing_scope_loop fuel parent ip None = Some (ip, None).
Proof. by destruct fuel. Qed.

(** A function region that consists of one scope: the search continues in
    the body of the scope. *)
Lemma find_last_op_scope a scope :
  isa_ScopeOp scope = true ->
  getBody scope <> [] ->
  find_last_op [Block a [scope]]
  = (fun '(i, l) => (S i, l)) <$> find_last_op (getBody scope).
Proof.
  intros Hs Hb.
  destruct (back_nonempty (getBody scope) Hb) as [lb Hlb].
  rewrite (find_last_op_unfold [Block a [scope]] (Block a [scope]) eq_refl).
  rewrite (find_last_op_unfold _ _ Hlb).
  cbn [getOperations is_empty negb back last].
  rewrite trailing_scope_loop_enter by done.
  unfold get_last_op. rewrite Hlb. cbn [mbind option_bind].
  destruct (getOperations lb) as [|o os] eqn:Hops; cbn [is_empty negb].
  - cbn [back last]. by rewrite trailing_scope_loop_null.
  - rewrite region_depth_single. destruct scope as [n body].
    rewrite op_depth_unfold. apply trailing_scope_loop_shift.
Qed.

(** Any other region: the search stays in the last block of the function. *)
Lemma find_last_op_flat blocks b :
  back blocks = Some b ->
  (forall a scope, blocks = [Block a [scope]] -> isa_ScopeOp scope = false) ->
  find_last_op blocks = Some (0, unless_scope (back (getOperations b))).
Proof.
  intros Hb Hshape. rewrite (find_last_op_unfold _ _ Hb).
  destruct (getOperations b) as [|o os] eqn:Hops; [done|].
  cbn [is_empty negb].
  destruct (back (o :: os)) as [op|] eqn:Hop; [|done].
  cbn [trailing_scope_loop next_scope unless_scope].
  destruct (isa_ScopeOp op) eqn:Hs; [|done].
  rewrite Hb. cbn [from_option].
  destruct (hasOneBlock blocks && has_single_operation b) eqn:Hc.
  - apply andb_prop in Hc as [H1 H2].
    destruct blocks as [|b1 [|]]; try done. cbn in Hb. simplify_eq.
    unfold has_single_operation in H2. rewrite Hops in H2.
    destruct os; [|done]. cbn in Hop. simplify_eq.
    destruct b as [a ops]. cbn in Hops. subst ops.
    by rewrite (Hshape a op eq_refl) in Hs.
  - apply trailing_scope_loop_null.
Qed.

End trailing_scope_search.

Section insertion_point_facts.

Lemma region_shape (blocks : region) :
  (exists a scope, blocks = [Block a [scope]] /\ isa_ScopeOp scope = true)
  \/ (forall a scope, blocks = [Block a [scope]] -> isa_ScopeOp scope = false).
Proof.
  destruct blocks as [|[a [|o [|o2 os]]] [|b2 r]]; try (right; intros; done).
  destruct (isa_ScopeOp o) eqn:Hs.
  - left. by exists a, o.
  - right. intros a' s' H. by simplify_eq.
Qed.

Lemma is_terminator_name n body body' :
  is_terminator (Operation n body) = is_terminator (Operation n body').
Proof. done. Qed.

Lemma insert_at_back new blocks b :
  back blocks = Some b ->
  block_at 0 (insert_at 0 new blocks)
    = Some (Block (getArguments b) (getOperations b ++ new))
  /\ count_terminators (insert_at 0 new blocks)
    = count_terminators blocks + count_ops is_terminator new.
Proof.
  intros Hb. apply back_Some_snoc in Hb as [l' ->].
  cbn [insert_at block_at]. rewrite at_back_snoc, back_snoc. split; [done|].
  unfold count_terminators. rewrite !count_region_app.
  assert (Hone : forall b0, count_region is_terminator [b0]
                         = count_ops is_terminator (getOperations b0)).
  { intros b0. unfold count_region, count_block. cbn [foldr]. lia. }
  rewrite !Hone. cbn [getOperations]. rewrite count_ops_app. lia.
Qed.

(** The search ends at a block of the region tree; creating operations at
    the insertion point appends them to that block and to no other. *)
Lemma find_last_op_spec n : forall blocks,
  region_depth blocks <= n ->
  blocks <> [] ->
  scopes_have_blocks blocks ->
  exists ip b,
    find_last_op blocks = Some (ip, unless_scope (back (getOperations b)))
    /\ block_at ip blocks = Some b
    /\ forall new,
        block_at ip (insert_at ip new blocks)
          = Some (Block (getArguments b) (getOperations b ++ new))
        /\ count_terminators (insert_at ip new blocks)
          = count_terminators blocks + count_ops is_terminator new.
Proof.
  induction n as [|n IH]; intros blocks Hd Hne Hwf;
    (destruct (region_shape blocks) as [(a & scope & -> & Hs)|Hflat];
     [|destruct (back_nonempty blocks Hne) as [b Hb];
       exists 0, b; split; [by apply find_last_op_flat|];
       split; [done|]; intros new; by apply insert_at_back]).
  - rewrite region_depth_single in Hd. destruct scope. rewrite op_depth_unfold in Hd. lia.
  - rewrite region_depth_single in Hd. unfold scopes_have_blocks in Hwf.
    rewrite count_region_single in Hwf. destruct scope as [nm body].
    rewrite op_depth_unfold in Hd. rewrite count_op_unfold in Hwf.
    assert (Hbody : body <> []).
    { intros ->. unfold empty_scope in Hwf. rewrite Hs in Hwf. done. }
    destruct (IH body) as (ip & b & Hfind & Hat & Hins); [lia|done|unfold scopes_have_blocks; lia|].
    exists (S ip), b. split; [|split].
    + rewrite find_last_op_scope by done. cbn [getBody]. by rewrite Hfind.
    + done.
    + intros new. destruct (Hins new) as [H1 H2]. split; [done|].
      cbn [insert_at at_back getArguments getOperations getName getBody].
      unfold count_terminators in *. rewrite !count_region_single, !count_op_unfold.
      rewrite H2. rewrite (is_terminator_name nm _ body). lia.
Qed.

End insertion_point_facts.

Section terminator_synthesis.

Lemma unless_scope_Some op o : unless_scope op = Some o -> op = Some o.
Proof.
  destruct op as [o'|]; [|done]. cbn. by destruct (isa_ScopeOp o').
Qed.

Lemma find_last_op_empty_block blocks lb :
  back blocks = Some lb ->
  is_empty (getOperations lb) = true ->
  find_last_op blocks = Some (0, None).
Proof.
  intros Hb He. rewrite (find_last_op_unfold _ _ Hb).
  by destruct (getOperations lb).
Qed.

Lemma is_terminator_not_scope op :
  is_terminator op = true -> isa_ScopeOp op = false.
Proof. destruct op as [[] body]; done. Qed.

(** A terminator at the end of the function's last block is what the
    search finds, without entering any scope. *)
Lemma terminated_block_found blocks lb op :
  back blocks = Some lb ->
  back (getOperations lb) = Some op ->
  is_terminator op = true ->
  find_last_op blocks = Some (0, Some op).
Proof.
  intros Hlb Hop Hterm. assert (Hns := is_terminator_not_scope _ Hterm).
  rewrite (find_last_op_flat blocks lb Hlb).
  - rewrite Hop. cbn. by rewrite Hns.
  - intros a scope ->. cbn in Hlb. simplify_eq. cbn in Hop. by simplify_eq.
Qed.

(** The terminator [emit_function_terminator] creates is the last of the
    operations it creates, and the only terminator among them. *)
Lemma emit_function_terminator_last decl fty :
  back (emit_function_terminator decl fty)
  = Some (if returnType_isVoidType decl
          then Operation (core_ImplicitReturnOp (ConstantResult VoidAttr)) []
          else if isMain decl
          then Operation (hl_ReturnOp
                 (ConstantResult (IntegerAttr 0 (getResult fty 0)))) []
          else Operation hl_UnreachableOp [])
  /\ count_ops is_terminator (emit_function_terminator decl fty) = 1
  /\ emit_function_terminator decl fty <> [].
Proof.
  unfold emit_function_terminator.
  by destruct (returnType_isVoidType decl), (isMain decl).
Qed.

End terminator_synthesis.

(** C1 (as amended). Once the body of a function definition is lowered, let
    [last_op] be what the search of [emit_function_body] finds: the last
    operation of the function's last block, or of the innermost trailing
    scope the search enters. If [last_op] is a terminator, nothing is added
    (in particular when the last operation of the last block itself is a
    terminator). Otherwise exactly one terminator is created, at the
    insertion point: an implicit return of the void constant for a function
    returning void, a return of the zero constant of the result type for
    [main], and [unreachable] for every other function. In both cases the
    block at the insertion point ends in a terminator. *)
Theorem emit_function_body_terminator decl fty blocks :
  blocks <> [] ->
  scopes_have_blocks blocks ->
  exists ip last_op blocks' b' t,
    find_last_op blocks = Some (ip, last_op)
    /\ emit_function_body_tail decl fty blocks = Some blocks'
    /\ (from_option is_terminator false last_op = true ->
        blocks' = blocks /\ last_op = Some t)
    /\ (forall lb op, back blocks = Some lb ->
        back (getOperations lb) = Some op -> is_terminator op = true ->
        blocks' = blocks)
    /\ (from_option is_terminator false last_op = false ->
        blocks' = insert_at ip (emit_function_terminator decl fty) blocks
        /\ count_terminators blocks' = S (count_terminators blocks)
        /\ t = if returnType_isVoidType decl
               then Operation (core_ImplicitReturnOp (ConstantResult VoidAttr)) []
               else if isMain decl
               then Operation (hl_ReturnOp
                      (ConstantResult (IntegerAttr 0 (getResult fty 0)))) []
               else Operation hl_UnreachableOp [])
    /\ block_at ip blocks' = Some b'
    /\ back (getOperations b') = Some t
    /\ is_terminator t = true.
Proof.
  intros Hne Hwf.
  destruct (find_last_op_spec (region_depth blocks) blocks) as (ip & b & Hfind & Hat & Hins);
    [lia|done|done|].
  destruct (back_nonempty blocks Hne) as [lb Hlb].
  destruct (emit_function_terminator_last decl fty) as (Hlast & Hcount & HT).
  specialize (Hins (emit_function_terminator decl fty)) as [Hins1 Hins2].
  unfold emit_function_body_tail. rewrite Hlb, Hfind. cbn [mbind option_bind].
  destruct (unless_scope (back (getOperations b))) as [op|] eqn:Hop.
  - destruct (is_terminator op) eqn:Hterm.
    + (* already terminated *)
      assert (He : is_empty (getOperations lb) = false).
      { destruct (is_empty (getOperations lb)) eqn:He; [|done].
        rewrite (find_last_op_empty_block _ _ Hlb He) in Hfind. by simplify_eq. }
      rewrite He. cbn [orb negb].
      exists ip, (Some op), blocks, b, op.
      split; [done|]. split; [done|]. split; [done|]. split; [done|].
      split; [cbn; congruence|]. split; [done|].
      split; [by apply unless_scope_Some|done].
    + rewrite orb_true_r.
      eexists ip, (Some op), _, _, _. split; [done|]. split; [done|].
      split; [cbn; congruence|]. split.
      { intros lb' op' Hlb' Hop' Hterm'. exfalso.
        assert (Hns := is_terminator_not_scope _ Hterm').
        injection Hlb' as <-.
        rewrite (terminated_block_found blocks lb op') in Hfind by done.
        simplify_eq. congruence. }
      split.
      { intros _. split; [done|]. split; [|done]. rewrite Hins2, Hcount. lia. }
      split; [exact Hins1|]. cbn [getOperations]. split; [|by repeat case_match].
      unfold back in *. rewrite last_app, Hlast. done.
  - rewrite orb_true_r.
    eexists ip, None, _, _, _. split; [done|]. split; [done|].
    split; [done|]. split.
    { intros lb' op' Hlb' Hop' Hterm'. exfalso.
      assert (Hns := is_terminator_not_scope _ Hterm').
      injection Hlb' as <-.
      rewrite (terminated_block_found blocks lb op') in Hfind by done.
      simplify_eq. }
    split.
    { intros _. split; [done|]. split; [|done]. rewrite Hins2, Hcount. lia. }
    split; [exact Hins1|]. cbn [getOperations]. split; [|by repeat case_match].
    unfold back in *. rewrite last_app, Hlast. done.
Qed.

(** The theorem applied to [int f(void) { { { expr; } } }]. *)
Lemma emit_function_body_terminator_witness :
  exists ip last_op blocks' b' t,
    find_last_op Examples.nested_trailing_scopes = Some (ip, last_op)
    /\ emit_function_body_tail Examples.int_f Examples.int_fty
         Examples.nested_trailing_scopes = Some blocks'
    /\ (from_option is_terminator false last_op = true ->
        blocks' = Examples.nested_trailing_scopes /\ last_op = Some t)
    /\ (forall lb op, back Examples.nested_trailing_scopes = Some lb ->
        back (getOperations lb) = Some op -> is_terminator op = true ->
        blocks' = Examples.nested_trailing_scopes)
    /\ (from_option is_terminator false last_op = false ->
        blocks' = insert_at ip
          (emit_function_terminator Examples.int_f Examples.int_fty)
          Examples.nested_trailing_scopes
        /\ count_terminators blocks'
           = S (count_terminators Examples.nested_trailing_scopes)
        /\ t = Operation hl_UnreachableOp [])
    /\ block_at ip blocks' = Some b'
    /\ back (getOperations b') = Some t
    /\ is_terminator t = true.
Proof.
  apply (emit_function_body_terminator Examples.int_f Examples.int_fty
           Examples.nested_trailing_scopes); [done|reflexivity].
Defined.

(** C1 as stated fails on [int f(void) { { expr; return e; } }]: the last
    operation of the function's last block is a scope, which is not a
    terminator, yet no terminator is created and the function's last block
    still ends in the scope. *)
Lemma trailing_scope_with_return_unchanged :
  (exists lb op,
      back Examples.trailing_scope_with_return = Some lb
      /\ back (getOperations lb) = Some op
      /\ isa_ScopeOp op = true
      /\ is_terminator op = false)
  /\ emit_function_body_tail Examples.int_f Examples.int_fty
       Examples.trailing_scope_with_return
     = Some Examples.trailing_scope_with_return
  /\ ~ (exists blocks',
         emit_function_body_tail Examples.int_f Examples.int_fty
           Examples.trailing_scope_with_return = Some blocks'
         /\ count_terminators blocks'
            = S (count_terminators Examples.trailing_scope_with_return)).
Proof.
  split; [|split].
  - eexists _, _. by repeat split.
  - reflexivity.
  - intros (blocks' & H & Hc). vm_compute in H. injection H as <-.
    vm_compute in Hc. lia.
Qed.

Lemma single_scope_shape blocks lb scope :
  back blocks = Some lb ->
  back (getOperations lb) = Some scope ->
  hasOneBlock blocks && has_single_operation lb = true ->
  blocks = [Block (getArguments lb) [scope]].
Proof.
  intros Hlb Hop Hc. apply andb_prop in Hc as [H1 H2].
  destruct blocks as [|b1 [|]]; try done. cbn in Hlb. simplify_eq.
  destruct lb as [a ops]. unfold has_single_operation in H2.
  cbn in Hop, H2 |- *.
  destruct ops as [|o [|]]; try done. cbn in Hop. by simplify_eq.
Qed.

(** C7 (as amended). When the last operation of the function's last block
    is a scope, the search enters it exactly when the scope is the only
    operation of the only block of its parent region: then the rest of
    [emit_function_body] behaves as on the body of the scope (so it
    recurses through nested trailing scopes, and a terminator is created
    inside the innermost one). Otherwise the scope is left alone and the
    terminator is appended after it, in the function's last block. *)
Theorem trailing_scope_recursion decl fty blocks lb scope :
  back blocks = Some lb ->
  back (getOperations lb) = Some scope ->
  isa_ScopeOp scope = true ->
  getBody scope <> [] ->
  (hasOneBlock blocks && has_single_operation lb = true ->
   emit_function_body_tail decl fty blocks
   = (fun body' => [Block (getArguments lb) [Operation (getName scope) body']])
     <$> emit_function_body_tail decl fty (getBody scope))
  /\ (hasOneBlock blocks && has_single_operation lb = false ->
      exists front,
        blocks = front ++ [lb]
        /\ emit_function_body_tail decl fty blocks
           = Some (front ++
                   [Block (getArguments lb)
                      (getOperations lb ++ emit_function_terminator decl fty)])).
Proof.
  intros Hlb Hop Hs Hbody. split; intros Hc.
  - rewrite (single_scope_shape _ _ _ Hlb Hop Hc).
    destruct (back_nonempty _ Hbody) as [lb' Hlb'].
    unfold emit_function_body_tail.
    rewrite find_last_op_scope by done. rewrite Hlb'.
    cbn [back last mbind option_bind getOperations is_empty orb].
    destruct (find_last_op (getBody scope)) as [[i l]|] eqn:Hfind; [|done].
    cbn [fmap option_fmap option_map mbind option_bind].
    assert (Hcond : is_empty (getOperations lb')
                    || match l with
                       | Some op => negb (is_terminator op)
                       | None => true
                       end
                    = match l with
                      | Some op => negb (is_terminator op)
                      | None => true
                      end).
    { destruct (is_empty (getOperations lb')) eqn:He; [|done].
      rewrite (find_last_op_empty_block _ _ Hlb' He) in Hfind. by simplify_eq. }
    rewrite Hcond. by destruct scope, l as [op|]; [destruct (is_terminator op)|].
  - apply back_Some_snoc in Hlb as Hfront. destruct Hfront as [front ->].
    exists front. split; [done|].
    unfold emit_function_body_tail. rewrite Hlb. cbn [mbind option_bind].
    rewrite (find_last_op_flat _ lb Hlb).
    + rewrite Hop. cbn [unless_scope]. rewrite Hs.
      cbn [mbind option_bind]. rewrite orb_true_r.
      cbn [insert_at]. by rewrite at_back_snoc.
    + intros a s Heq. rewrite Heq in Hlb, Hc. cbn in Hlb. by simplify_eq.
Qed.

(** The theorem applied to [int f(void) { { { expr; } } }], whose outer
    scope is the only operation of the function's only block. *)
Lemma trailing_scope_recursion_witness :
  (emit_function_body_tail Examples.int_f Examples.int_fty
     Examples.nested_trailing_scopes
   = (fun body' => [Block [] [Operation core_ScopeOp body']])
     <$> emit_function_body_tail Examples.int_f Examples.int_fty
           [Block [] [Examples.scope [Block [] [Examples.hl_expr]]]])
  /\ emit_function_body_tail Examples.int_f Examples.int_fty
       Examples.nested_trailing_scopes
     = Some [Block [] [Examples.scope [Block [] [Examples.scope
               [Block [] [Examples.hl_expr; Operation hl_UnreachableOp []]]]]]].
Proof.
  split; [|reflexivity].
  apply (trailing_scope_recursion Examples.int_f Examples.int_fty
           Examples.nested_trailing_scopes
           (Block [] [Examples.scope [Block [] [Examples.scope
                                        [Block [] [Examples.hl_expr]]]]])
           (Examples.scope [Block [] [Examples.scope
                                        [Block [] [Examples.hl_expr]]]]));
    done.
Defined.

(** C7 as stated fails on [int f(void) { expr; { expr; } }]: the last
    operation of the function's last block is a scope whose own last block
    contains exactly one operation, but the search does not enter it and
    the terminator is created after the scope, not inside it. *)
Lemma scope_after_expression_not_entered :
  (exists lb scope sb,
      back Examples.scope_after_expression = Some lb
      /\ back (getOperations lb) = Some scope
      /\ isa_ScopeOp scope = true
      /\ back (getBody scope) = Some sb
      /\ has_single_operation sb = true)
  /\ find_last_op Examples.scope_after_expression = Some (0, None)
  /\ emit_function_body_tail Examples.int_f Examples.int_fty
       Examples.scope_after_expression
     = Some [Block [] [Examples.hl_expr;
                       Examples.scope [Block [] [Examples.hl_expr]];
                       Operation hl_UnreachableOp []]]
  /\ emit_function_body_tail Examples.int_f Examples.int_fty
       Examples.scope_after_expression
     <> Some [Block [] [Examples.hl_expr;
                        Examples.scope
                          [Block [] [Examples.hl_expr;
                                     Operation hl_UnreachableOp []]]]].
Proof.
  split; [|split; [|split]].
  - eexists _, _, _. by repeat split.
  - reflexivity.
  - reflexivity.
  - vm_compute. intros H. discriminate H.
Qed.

(** ** The pipeline *)

Import Pipeline.

Section pipeline_facts.

Lemma scheduled_ids_snoc ppl s seen' :
  scheduled_ids {| base := base ppl ++ [s]; seen := seen' |}
  = scheduled_ids ppl ++ [getTypeID (scheduled_pass s)].
Proof. unfold scheduled_ids. cbn. by rewrite fmap_app. Qed.

Lemma pipeline_inv_new : pipeline_inv new_pipeline.
Proof. split; [constructor|]. intros id H. by apply elem_of_nil in H. Qed.

Lemma pipeline_inv_add ppl s :
  pipeline_inv ppl ->
  getTypeID (scheduled_pass s) ∉ seen ppl ->
  pipeline_inv {| base := base ppl ++ [s];
                  seen := {[getTypeID (scheduled_pass s)]} ∪ seen ppl |}.
Proof.
  intros [Hnd Hseen] Hnew. split.
  - rewrite scheduled_ids_snoc. apply NoDup_app. split; [done|].
    split; [|apply NoDup_singleton].
    intros id Hid Hin. apply list_elem_of_singleton in Hin as ->. auto.
  - intros id. rewrite scheduled_ids_snoc, elem_of_app, list_elem_of_singleton.
    intros [Hid| ->]; [apply elem_of_union_r; auto|].
    by apply elem_of_union_l, elem_of_singleton.
Qed.

Lemma pipeline_inv_run_call ppl c : pipeline_inv ppl -> pipeline_inv (run_call ppl c).
Proof.
  intros Hinv. destruct c as [p|parent p]; cbn;
    unfold addPass, addNestedPass; case_bool_decide; try done.
  - by apply (pipeline_inv_add ppl (top_level p)).
  - by apply (pipeline_inv_add ppl (nested parent p)).
Qed.

Lemma pipeline_inv_run_calls calls : pipeline_inv (run_calls calls).
Proof.
  unfold run_calls. generalize pipeline_inv_new. generalize new_pipeline.
  induction calls as [|c calls IH]; intros ppl Hinv; [done|].
  cbn. apply IH. by apply pipeline_inv_run_call.
Qed.

End pipeline_facts.

(** C9. A pass whose type is already in [seen] is not added, by
    [addNestedPass] or [addPass]; after a pass has been added, adding a pass
    of the same type again (under any parent, or at top level) leaves the
    pipeline as it is; and whatever calls are made on a fresh pipeline, the
    base pass manager holds at most one pass of each type. *)
Theorem pipeline_schedules_each_pass_type_once
    (ppl : pipeline_t) (parent_t parent_t' : string) (pass pass' : Pass) :
  (getTypeID pass ∈ seen ppl ->
     addNestedPass parent_t pass ppl = ppl /\ addPass pass ppl = ppl)
  /\ (getTypeID pass' = getTypeID pass ->
      addNestedPass parent_t' pass' (addNestedPass parent_t pass ppl)
      = addNestedPass parent_t pass ppl
      /\ addPass pass' (addNestedPass parent_t pass ppl)
         = addNestedPass parent_t pass ppl
      /\ addNestedPass parent_t' pass' (addPass pass ppl) = addPass pass ppl)
  /\ addNestedPass parent_t pass (addNestedPass parent_t pass ppl)
     = addNestedPass parent_t pass ppl
  /\ (getTypeID pass ∉ seen ppl ->
      base (addNestedPass parent_t pass ppl) = base ppl ++ [nested parent_t pass]
      /\ base (addNestedPass parent_t pass (addNestedPass parent_t pass ppl))
         = base ppl ++ [nested parent_t pass])
  /\ forall calls, NoDup (scheduled_ids (run_calls calls)).
Proof.
  assert (Hseen : forall parent p q,
             getTypeID q = getTypeID p ->
             getTypeID q ∈ seen (addNestedPass parent p ppl)
             /\ getTypeID q ∈ seen (addPass p ppl)).
  { intros parent p q ->. unfold addNestedPass, addPass.
    case_bool_decide; cbn; set_solver. }
  assert (Hskip : forall (q : pipeline_t) parent p,
             getTypeID p ∈ seen q ->
             addNestedPass parent p q = q /\ addPass p q = q).
  { intros q parent p Hin. unfold addNestedPass, addPass.
    by rewrite bool_decide_eq_true_2. }
  split; [apply Hskip|]. split; [|split; [|split]].
  - intros Heq. destruct (Hseen parent_t pass pass' Heq) as [H1 H2].
    split; [|split].
    + by apply Hskip.
    + by apply (Hskip _ parent_t').
    + by apply Hskip.
  - apply Hskip. by apply Hseen.
  - intros Hnew.
    assert (base (addNestedPass parent_t pass ppl)
            = base ppl ++ [nested parent_t pass]) as Hb.
    { unfold addNestedPass. by rewrite bool_decide_eq_false_2. }
    split; [done|].
    destruct (Hskip (addNestedPass parent_t pass ppl) parent_t pass) as [-> _];
      [by apply Hseen|done].
  - intros calls. apply pipeline_inv_run_calls.
Qed.

(** ** Declaration attributes *)

Import Abort Attrs.

Section visit_decl_attrs_facts.

Variable visit : Attr -> Attribute.

Lemma visit_attr_Done attrs attr attrs' :
  visit_attr visit attrs attr = Done attrs' ->
  attrs' = <[spelling attr := visit attr]> attrs
  /\ forall prev, attrs !! spelling attr = Some prev -> visit attr = prev.
Proof.
  unfold visit_attr. destruct (attrs !! spelling attr) as [prev|] eqn:Hprev.
  - case_bool_decide; [|done]. intros [= <-]. split; [done|]. by intros ? [= <-].
  - intros [= <-]. by split.
Qed.

Lemma visit_attr_consistent attrs attr :
  (forall prev, attrs !! spelling attr = Some prev -> visit attr = prev) ->
  visit_attr visit attrs attr = Done (<[spelling attr := visit attr]> attrs).
Proof.
  intros H. unfold visit_attr.
  destruct (attrs !! spelling attr) as [prev|]; [|done].
  by rewrite bool_decide_eq_true_2 by auto.
Qed.

(** The loop succeeds exactly on consistent attributes. *)
Lemma visit_attrs_consistent todo : forall attrs,
  consistent visit attrs todo -> exists attrs', visit_attrs visit attrs todo = Done attrs'.
Proof.
  induction todo as [|a todo IH]; intros attrs [H1 H2]; [by eexists|].
  cbn [visit_attrs]. rewrite visit_attr_consistent.
  2:{ intros prev. apply H1. by left. }
  apply IH. split.
  - intros b prev Hb. rewrite lookup_insert. case_decide as Hk.
    + intros [= <-]. symmetry. apply H2; [by left|by right|done].
    + apply H1. by right.
  - intros b c Hb Hc. apply H2; by right.
Qed.

Lemma visit_attrs_Done todo : forall attrs attrs',
  visit_attrs visit attrs todo = Done attrs' ->
  consistent visit attrs todo
  /\ (forall a, a ∈ todo -> attrs' !! spelling a = Some (visit a))
  /\ (forall name, (forall a, a ∈ todo -> spelling a <> name) ->
      attrs' !! name = attrs !! name)
  /\ (forall name v, attrs !! name = Some v -> attrs' !! name = Some v).
Proof.
  induction todo as [|a todo IH]; intros attrs attrs' H.
  - injection H as <-. split; [split|split; [|done]].
    + intros a prev Hin. by apply elem_of_nil in Hin.
    + intros a b Hin. by apply elem_of_nil in Hin.
    + intros a Hin. by apply elem_of_nil in Hin.
  - cbn [visit_attrs] in H.
    destruct (visit_attr visit attrs a) as [attrs1|] eqn:Ha; [|done].
    apply visit_attr_Done in Ha as [-> Hprev].
    destruct (IH _ _ H) as ([C1 C2] & Hset & Hother & Hkeep).
    assert (Hhead : attrs' !! spelling a = Some (visit a)).
    { apply Hkeep. by rewrite lookup_insert_eq. }
    split; [split|split; [|split]].
    + intros b prev [->|Hb]%elem_of_cons Hlook; [by apply Hprev|].
      destruct (decide (spelling a = spelling b)) as [Hk|Hk].
      * rewrite <- Hk in Hlook. rewrite <- (Hprev _ Hlook).
        apply (C1 b (visit a) Hb). rewrite <- Hk. by rewrite lookup_insert_eq.
      * apply (C1 b prev Hb). by rewrite lookup_insert_ne.
    + intros b c [->|Hb]%elem_of_cons [->|Hc]%elem_of_cons Hk; [done| | |by apply C2].
      * symmetry. apply (C1 c (visit a) Hc). rewrite <- Hk. by rewrite lookup_insert_eq.
      * apply (C1 b (visit a) Hb). rewrite Hk. by rewrite lookup_insert_eq.
    + intros b [->|Hb]%elem_of_cons; [done|by apply Hset].
    + intros name Hname. rewrite Hother.
      * apply lookup_insert_ne. apply Hname. by left.
      * intros b Hb. apply Hname. by right.
    + intros name v Hv. destruct (decide (spelling a = name)) as [<-|Hk].
      * by rewrite Hhead, (Hprev _ Hv).
      * apply Hkeep. by rewrite lookup_insert_ne.
Qed.

End visit_decl_attrs_facts.

(** C10 (as amended). [visit_decl_attrs] passes its conflicting-redefinition
    check exactly when the attributes of the declaration that are not
    excluded agree with each other under each spelling and with the entries
    the operation already has under those spellings. When it passes, every
    visited attribute is set on the operation under its spelling (["builtin"]
    for a [BuiltinAttr]) and all other entries of the operation are as
    before. *)
Theorem visit_decl_attrs_check (visit : Attr -> Attribute)
    (decl_attrs : list Attr) (op_attrs : NamedAttrList) :
  (is_done (visit_decl_attrs visit decl_attrs op_attrs) = true
   <-> consistent visit op_attrs (exclude_attrs decl_attrs))
  /\ (forall attrs',
      visit_decl_attrs visit decl_attrs op_attrs = Done attrs' ->
      (forall a, a ∈ exclude_attrs decl_attrs ->
         attrs' !! spelling a = Some (visit a))
      /\ (forall a, a ∈ exclude_attrs decl_attrs -> getKind a = BuiltinAttr ->
           attrs' !! "builtin" = Some (visit a))
      /\ (forall name,
           (forall a, a ∈ exclude_attrs decl_attrs -> spelling a <> name) ->
           attrs' !! name = op_attrs !! name)).
Proof.
  assert (Heq : visit_decl_attrs visit decl_attrs op_attrs
                = visit_attrs visit op_attrs (exclude_attrs decl_attrs)).
  { unfold visit_decl_attrs. by destruct decl_attrs. }
  rewrite Heq. split; [split|].
  - destruct (visit_attrs _ _ _) as [attrs'|] eqn:H; [|done].
    intros _. by apply visit_attrs_Done in H as [? _].
  - intros Hc. by destruct (visit_attrs_consistent visit _ _ Hc) as [attrs' ->].
  - intros attrs' H. apply visit_attrs_Done in H as (_ & Hset & Hother & _).
    split; [done|]. split; [|done].
    intros a Ha Hk. rewrite <- (Hset a Ha). unfold spelling. by rewrite Hk.
Qed.

(** C10 as stated fails when the operation already carries the attribute:
    the declaration has a single [section] attribute, so all of its
    same-spelling attributes lower to equal values, but the operation has a
    different [section] entry and the check fails. *)
Lemma visit_decl_attrs_conflict_with_operation :
  let decl_attrs := [Examples.section_attr ".data"] in
  let op_attrs : NamedAttrList := {[ "section" := ".text" ]} in
  (forall a b, a ∈ exclude_attrs decl_attrs -> b ∈ exclude_attrs decl_attrs ->
     spelling a = spelling b -> Examples.print_args a = Examples.print_args b)
  /\ visit_decl_attrs Examples.print_args decl_attrs op_attrs
     = Fatal "Conflicting redefinition of attribute section".
Proof.
  split; [|reflexivity].
  intros a b Ha Hb _. cbn in Ha, Hb.
  apply list_elem_of_singleton in Ha as ->. by apply list_elem_of_singleton in Hb as ->.
Qed.

(** ** The declaration visitors *)

Import CodeGen.

Section monad_steps.

Lemma bind_Done {A B} (m : M A) (f : A -> M B) c a c' :
  m c = (Done a, c') -> (m ≫= f) c = f a c'.
Proof. intros H. unfold mbind, M_bind. by rewrite H. Qed.

Lemma bind_Fatal {A B} (m : M A) (f : A -> M B) c msg c' :
  m c = (Fatal msg, c') -> (m ≫= f) c = (Fatal msg, c').
Proof. intros H. unfold mbind, M_bind. by rewrite H. Qed.

Lemma bind_inv {A B} (m : M A) (f : A -> M B) c b c' :
  (m ≫= f) c = (Done b, c') ->
  exists a c1, m c = (Done a, c1) /\ f a c1 = (Done b, c').
Proof.
  unfold mbind, M_bind. destruct (m c) as [[a|msg] c1]; [|done]. by exists a, c1.
Qed.

Lemma for_each_cons {A} (x : A) l (f : A -> M unit) :
  for_each (x :: l) f = (f x;; for_each l f).
Proof. done. Qed.

End monad_steps.

(** C8. Visiting a parameter whose declaration has no binding in the
    variable table is a recoverable error. The visit returns null; the
    context it hands on is the one it was given with one more entry at the
    end of the reported diagnostics, the error naming the parameter, and
    is otherwise unchanged; nothing is unwound: whatever follows the visit
    runs on that context, and a translation unit that reaches such a
    parameter goes on with the declarations after it. *)
Theorem missing_parameter_is_recoverable `{lens : visitor_lens}
    (decl : ParmVarDecl) (c : codegen_context) :
  table_lookup (inl (parm_id decl)) (table vars c) = None ->
  exists c',
    VisitParmVarDecl decl c = (Done None, c')
    /\ diagnostics c'
       = diagnostics c
         ++ [context_error
               ("error: missing parameter declaration " +:+ parm_name decl)]
    /\ module_view c' = module_view c
    /\ module_body c' = module_body c
    /\ insertion c' = insertion c
    /\ tables c' = tables c
    /\ ledger c' = ledger c
    /\ diagnosed_conflicting_definitions c' = diagnosed_conflicting_definitions c
    /\ (forall B (k : option op_id -> M B),
         (VisitParmVarDecl decl ≫= k) c = k None c')
    /\ (forall p rest,
         visit_decl p = VisitParmVarDecl decl ->
         VisitTranslationUnitDecl (p :: rest) c
         = VisitTranslationUnitDecl rest c').
Proof.
  intros Hmiss.
  destruct (VisitParmVarDecl decl c) as [r c'] eqn:Hrun.
  assert (Hsteps : r = Done None
            /\ diagnostics c'
               = diagnostics c
                 ++ [context_error
                       ("error: missing parameter declaration "
                        +:+ parm_name decl)]
            /\ module_view c' = module_view c
            /\ module_body c' = module_body c
            /\ insertion c' = insertion c
            /\ tables c' = tables c
            /\ ledger c' = ledger c
            /\ diagnosed_conflicting_definitions c'
               = diagnosed_conflicting_definitions c).
  { revert Hrun. unfold VisitParmVarDecl.
    erewrite bind_Done; [|unfold lookup; by rewrite Hmiss].
    cbv [error modify mbind M_bind mret M_ret]. intros [= <- <-].
    by repeat split. }
  destruct Hsteps as (-> & Hdiag & Hview & Hbody & Hip & Htables & Hledger & Hset).
  exists c'. do 8 (split; [done|]). split.
  - intros B k. by apply bind_Done.
  - intros p rest Hp. unfold VisitTranslationUnitDecl.
    rewrite for_each_cons, Hp.
    unfold mbind, M_bind. by rewrite Hrun.
Qed.

(** The theorem applied to the translation unit [x; int g(void);], whose
    first declaration is a parameter that was never bound: the error is
    the only diagnostic, and [g] is lowered all the same. *)
Lemma missing_parameter_is_recoverable_witness :
  let lens := Examples.unit_lens in
  exists c',
    VisitParmVarDecl Examples.parm_x new_context = (Done None, c')
    /\ diagnostics c' = [context_error "error: missing parameter declaration x"]
    /\ ops c' = ops new_context
    /\ VisitTranslationUnitDecl [7; 2] new_context
       = VisitTranslationUnitDecl [2] c'
    /\ (VisitTranslationUnitDecl [7; 2] new_context).1 = Done None
    /\ (sym_name <$> ops (VisitTranslationUnitDecl [7; 2] new_context).2 !! 0)
       = Some "g".
Proof.
  intros lens.
  destruct (missing_parameter_is_recoverable (lens := lens)
              Examples.parm_x new_context eq_refl)
    as (c' & Hrun & Hdiag & Hview & _ & _ & _ & _ & _ & _ & Htu).
  exists c'. split; [exact Hrun|]. split; [exact Hdiag|].
  split; [exact (f_equal (fun v => v.1.1.1) Hview)|].
  split; [exact (Htu 7 [2] eq_refl)|].
  split; vm_compute; reflexivity.
Defined.

(** ** The deferred-emission ledger *)

Section ledger_frame.
Context `{lens : visitor_lens}.

Lemma keeps_ret {A X} (proj : codegen_context -> X) (a : A) : keeps proj (mret a).
Proof. by intros c. Qed.

Lemma keeps_fatal {A X} (proj : codegen_context -> X) msg : keeps proj (@fatal A msg).
Proof. by intros c. Qed.

Lemma keeps_bind {A B X} (proj : codegen_context -> X) (m : M A) (f : A -> M B) :
  keeps proj m -> (forall a, keeps proj (f a)) -> keeps proj (m ≫= f).
Proof.
  intros Hm Hf c. unfold mbind, M_bind. specialize (Hm c).
  destruct (m c) as [[a|msg] c1]; cbn in *; [|done]. by rewrite Hf.
Qed.

Lemma keeps_modify {X} (proj : codegen_context -> X) f :
  (forall c, proj (f c) = proj c) -> keeps proj (modify f).
Proof. intros H c. apply H. Qed.

Lemma keeps_get_op {X} (proj : codegen_context -> X) id : keeps proj (get_op id).
Proof. intros c. unfold get_op. by destruct (ops c !! id). Qed.

Lemma keeps_lookup {X} (proj : codegen_context -> X) T key : keeps proj (lookup T key).
Proof. by intros c. Qed.

Lemma keeps_preserves {A X} (proj : codegen_context -> X) (m : M A) :
  keeps proj m -> preserves proj m.
Proof. intros H c a c' Hrun. specialize (H c). by rewrite Hrun in H. Qed.

Lemma preserves_bind {A B X} (proj : codegen_context -> X) (m : M A)
    (f : A -> M B) :
  preserves proj m -> (forall a, preserves proj (f a)) -> preserves proj (m ≫= f).
Proof.
  intros Hm Hf c b c' H. apply bind_inv in H as (a & c1 & H1 & H2).
  rewrite (Hf a _ _ _ H2). by apply (Hm _ _ _ H1).
Qed.

Lemma keeps_ledger_create o : keeps ledger (create o).
Proof. intros c. unfold create. by destruct (insertion c). Qed.

Lemma keeps_ledger_declare T key builder :
  keeps ledger builder -> keeps ledger (declare T key builder).
Proof.
  intros Hb. unfold declare. apply keeps_bind; [apply keeps_lookup|].
  intros [v|]; [apply keeps_ret|].
  apply keeps_bind; [done|]. intros v.
  apply keeps_bind; [by apply keeps_modify|]. intros _. apply keeps_ret.
Qed.

Lemma keeps_ledger_create_vast_function name fty d :
  keeps ledger (create_vast_function name fty d).
Proof.
  unfold create_vast_function.
  apply keeps_bind; [by intros c|]. intros guard.
  apply keeps_bind.
  { unfold declare_op. apply keeps_bind; [|intros; apply keeps_ret].
    apply keeps_ledger_declare. apply keeps_bind; [apply keeps_ledger_create|].
    intros; apply keeps_ret. }
  intros [fn|]; [|apply keeps_fatal].
  apply keeps_bind.
  { unfold visit_decl_attrs. apply keeps_bind; [apply keeps_get_op|]. intros o.
    destruct (Attrs.visit_decl_attrs _ _ _); [by apply keeps_modify|apply keeps_fatal]. }
  intros _. apply keeps_bind; [apply keeps_get_op|]. intros o.
  apply keeps_bind.
  { unfold VAST_CHECK. destruct (isDeclaration o); [apply keeps_ret|apply keeps_fatal]. }
  intros _. apply keeps_bind; [by apply keeps_modify|]. intros _.
  apply keeps_bind; [by apply keeps_modify|]. intros _. apply keeps_ret.
Qed.

(** The walk over the redeclarations queues the first one that is
    lexically inside a record and has a body, and nothing else. *)
Lemma queue_record_member_find glob redecls c :
  queue_record_member glob redecls c
  = match List.find (fun r => lexical_context_isa_CXXRecordDecl r
                              && doesThisDeclarationHaveABody r) redecls with
    | Some r =>
        if is_defaulted_method r
        then add_default_methods_to_emit (getWithDecl glob r) c
        else add_deferred_decl_to_emit (getWithDecl glob r) c
    | None => (Done tt, c)
    end.
Proof.
  induction redecls as [|r redecls IH]; [done|]. cbn [queue_record_member List.find].
  destruct (lexical_context_isa_CXXRecordDecl r),
           (doesThisDeclarationHaveABody r); cbn [andb]; try done.
  by destruct (is_defaulted_method r).
Qed.

End ledger_frame.

(** C5. In [get_or_create_vast_function], when the request is deferred and
    the module has no entity of that name yet, the function entity is
    created and then the ledger is brought up to date; nothing else of the
    context changes after the creation. An entry of the pending map under
    the mangled name is appended to the to-emit list and erased from the
    pending map. Without such an entry the pending map stays as it is and,
    in C++, the redeclarations are walked from the most recent one
    backwards to the first that is lexically inside a record and has a
    body: the request, retargeted to that declaration, is appended to the
    default-methods queue when the declaration is a defaulted copy- or
    move-assignment operator and to the to-emit list otherwise, and no
    other declaration is queued. In every other case both queues are left
    as they are. *)
Theorem deferred_promotion `{lens : visitor_lens}
    (name : string) (fty : function_type) (glob : GlobalDecl)
    (d : FunctionDecl) (emit : global_emition)
    (c c1 : codegen_context) (fn : op_id) :
  for_vtable emit = false ->
  thunk emit = false ->
  getDecl glob = Some d ->
  OpenMPIsTargetDevice acontext = false ->
  isMultiVersion d = false ->
  isa_CXXDestructorDecl d = false ->
  defer emit = true ->
  symbol_table c !! name = None ->
  create_vast_function name fty d c = (Done fn, c1) ->
  (exists o, ops c1 !! fn = Some o /\ op_type o = Some (FunctionType fty)) ->
  exists c',
    get_or_create_vast_function name (FunctionType fty) glob emit c
    = (Done fn, c')
    /\ ledger c1 = ledger c
    /\ module_view c' = module_view c1
    /\ module_body c' = module_body c1
    /\ insertion c' = insertion c1
    /\ tables c' = tables c1
    /\ diagnostics c' = diagnostics c1
    /\ diagnosed_conflicting_definitions c' = diagnosed_conflicting_definitions c1
    /\ match deferred_decls c !! name with
       | Some ddi =>
           deferred_decls c' = delete name (deferred_decls c)
           /\ deferred_decls_to_emit c' = deferred_decls_to_emit c ++ [ddi]
           /\ default_methods_to_emit c' = default_methods_to_emit c
       | None =>
           deferred_decls c' = deferred_decls c
           /\ match (if CPlusPlus acontext
                     then List.find
                            (fun r => lexical_context_isa_CXXRecordDecl r
                                      && doesThisDeclarationHaveABody r)
                            (redecls_from_most_recent acontext d)
                     else None) with
              | Some r =>
                  let queued :=
                    {| getDecl := Some r; getStructor := getStructor glob |} in
                  if isDefaulted r && isa_CXXMethodDecl r
                     && (isCopyAssignmentOperator r
                         || isMoveAssignmentOperator r)
                  then
                    default_methods_to_emit c'
                    = default_methods_to_emit c ++ [queued]
                    /\ deferred_decls_to_emit c' = deferred_decls_to_emit c
                  else
                    deferred_decls_to_emit c'
                    = deferred_decls_to_emit c ++ [queued]
                    /\ default_methods_to_emit c' = default_methods_to_emit c
              | None =>
                  deferred_decls_to_emit c' = deferred_decls_to_emit c
                  /\ default_methods_to_emit c' = default_methods_to_emit c
              end
       end.
Proof.
  intros Hv Ht Hd Homp Hmv Hdtor Hdefer Hsym Hcreate (o & Ho & Hty).
  assert (Hl : ledger c1 = ledger c).
  { by rewrite <- (keeps_ledger_create_vast_function name fty d c), Hcreate. }
  pose proof Hl as Hl'. injection Hl' as Hl1 Hl2 Hl3.
  unfold get_or_create_vast_function. rewrite Hv, Ht, Hd, Homp, Hmv, Hdefer.
  cbv [mbind M_bind mret M_ret VAST_UNIMPLEMENTED_IF get_global_value get_context].
  rewrite Hsym, Hcreate, Hdtor.
  rewrite <- Hl1, <- Hl2, <- Hl3.
  assert (Hfinish : forall c2, ops c2 = ops c1 -> get_op fn c2 = (Done o, c2)).
  { intros c2 Hops. unfold get_op. by rewrite Hops, Ho. }
  assert (Hcheck : forall c2,
             VAST_CHECK (bool_decide (op_type o = Some (FunctionType fty)))
                        "assertion failed" c2 = (Done tt, c2)).
  { intros c2. by rewrite bool_decide_eq_true_2. }
  destruct (deferred_decls c1 !! name) as [ddi|] eqn:Hpending.
  { cbv [add_deferred_decl_to_emit erase_deferred modify].
    rewrite Hfinish, Hcheck by done. eexists. split; [reflexivity|].
    split; [exact Hl|]. unfold module_view. cbn. by repeat split. }
  destruct (CPlusPlus acontext).
  2:{ rewrite Hfinish, Hcheck by done. eexists. split; [reflexivity|].
      split; [exact Hl|]. unfold module_view. by repeat split. }
  rewrite queue_record_member_find. unfold is_defaulted_method.
  destruct (List.find _ _) as [r|].
  2:{ rewrite Hfinish, Hcheck by done. eexists. split; [reflexivity|].
      split; [exact Hl|]. unfold module_view. by repeat split. }
  cbv [add_default_methods_to_emit add_deferred_decl_to_emit modify getWithDecl].
  destruct (isDefaulted r && isa_CXXMethodDecl r); cbn [andb].
  - destruct (isCopyAssignmentOperator r || isMoveAssignmentOperator r);
      rewrite Hfinish, Hcheck by done; (eexists; split; [reflexivity|]);
      (split; [exact Hl|]); unfold module_view; cbn; by repeat split.
  - rewrite Hfinish, Hcheck by done. eexists. split; [reflexivity|].
    split; [exact Hl|]. unfold module_view. cbn. by repeat split.
Qed.

(** The theorem applied to three first references: to [g] in C while
    [int g(void);] is pending, which is promoted; to [peek] in C++, whose
    most recent declaration is outside the record, so that the walk goes
    back to the friend definition and queues it for emission; and to the
    defaulted assignment operator, which goes to the default-methods
    queue. *)
Lemma deferred_promotion_witness :
  (let lens := Examples.c_lens Examples.no_representative in
   exists c',
     get_or_create_vast_function "g" (FunctionType Examples.int_fty)
       Examples.glob_g deferred_emit_definition Examples.pending_g
     = (Done 0, c')
     /\ deferred_decls c' = ∅
     /\ deferred_decls_to_emit c' = [Examples.glob_g]
     /\ default_methods_to_emit c' = [])
  /\ (let lens := Examples.cxx_lens in
      exists c',
        get_or_create_vast_function "_Z4peek1T" (FunctionType Examples.int_fty)
          (get_gdecl NoStructor Examples.peek_redeclared)
          deferred_emit_definition new_context
        = (Done 0, c')
        /\ deferred_decls c' = ∅
        /\ deferred_decls_to_emit c'
           = [get_gdecl NoStructor Examples.peek_friend]
        /\ default_methods_to_emit c' = [])
  /\ (let lens := Examples.cxx_lens in
      exists c',
        get_or_create_vast_function "_ZN1TaSERKS_"
          (FunctionType Examples.int_fty)
          (get_gdecl NoStructor Examples.assign_defaulted)
          deferred_emit_definition new_context
        = (Done 0, c')
        /\ deferred_decls c' = ∅
        /\ deferred_decls_to_emit c' = []
        /\ default_methods_to_emit c'
           = [get_gdecl NoStructor Examples.assign_defaulted]).
Proof.
  split; [|split]; intros lens.
  - destruct (deferred_promotion (lens := lens) "g" Examples.int_fty
                Examples.glob_g Examples.int_g deferred_emit_definition
                Examples.pending_g
                (create_vast_function "g" Examples.int_fty Examples.int_g
                   Examples.pending_g).2 0
                eq_refl eq_refl eq_refl eq_refl eq_refl eq_refl eq_refl eq_refl
                eq_refl (ex_intro _ _ (conj eq_refl eq_refl)))
      as (c' & Hrun & _ & _ & _ & _ & _ & _ & _ & Hpending & Hemit & Hdefault).
    exists c'. split; [exact Hrun|]. split; [exact Hpending|].
    split; [exact Hemit|exact Hdefault].
  - destruct (deferred_promotion (lens := lens) "_Z4peek1T" Examples.int_fty
                (get_gdecl NoStructor Examples.peek_redeclared)
                Examples.peek_redeclared deferred_emit_definition new_context
                (create_vast_function "_Z4peek1T" Examples.int_fty
                   Examples.peek_redeclared new_context).2 0
                eq_refl eq_refl eq_refl eq_refl eq_refl eq_refl eq_refl eq_refl
                eq_refl (ex_intro _ _ (conj eq_refl eq_refl)))
      as (c' & Hrun & _ & _ & _ & _ & _ & _ & _ & Hpending & Hemit & Hdefault).
    exists c'. split; [exact Hrun|]. split; [exact Hpending|].
    split; [exact Hemit|exact Hdefault].
  - destruct (deferred_promotion (lens := lens) "_ZN1TaSERKS_" Examples.int_fty
                (get_gdecl NoStructor Examples.assign_defaulted)
                Examples.assign_defaulted deferred_emit_definition new_context
                (create_vast_function "_ZN1TaSERKS_" Examples.int_fty
                   Examples.assign_defaulted new_context).2 0
                eq_refl eq_refl eq_refl eq_refl eq_refl eq_refl eq_refl eq_refl
                eq_refl (ex_intro _ _ (conj eq_refl eq_refl)))
      as (c' & Hrun & _ & _ & _ & _ & _ & _ & _ & Hpending & Hdefault & Hemit).
    exists c'. split; [exact Hrun|]. split; [exact Hpending|].
    split; [exact Hemit|exact Hdefault].
Defined.

(** ** Conflicting definitions *)

Section conflicting_definitions.
Context `{lens : visitor_lens}.

(** One invocation for a definition, on a name whose entity has a body. *)
Lemma get_or_create_existing_definition name type glob d other emit c entry fn :
  for_vtable emit = false ->
  thunk emit = false ->
  getDecl glob = Some d ->
  OpenMPIsTargetDevice acontext = false ->
  isMultiVersion d = false ->
  is_for_definition emit = true ->
  symbol_table c !! name = Some entry ->
  ops c !! entry = Some fn ->
  op_kind_of fn = FuncOp ->
  entry ∉ weak_ref_references c ->
  isDeclaration fn = false ->
  op_type fn = Some type ->
  lookup_representative_decl name = Some other ->
  get_or_create_vast_function name type glob emit c
  = (Done entry,
     if bool_decide (getAsOpaquePtr glob ∈ diagnosed_conflicting_definitions c)
     then c
     else add_diagnostic
            (note_previous_definition (from_option fn_loc 0 (getDecl other)))
            (add_diagnostic (err_duplicate_mangled_name (fn_loc d) name)
               (set_diagnosed
                  ({[getAsOpaquePtr glob]} ∪ diagnosed_conflicting_definitions c)
                  c))).
Proof.
  intros Hv Ht Hd Homp Hmv Hdef Hsym Hop Hkind Hweak Hbody Hty Hother.
  unfold get_or_create_vast_function. rewrite Hv, Ht, Hd, Homp, Hmv, Hdef, Hother.
  cbv [mbind M_bind mret M_ret VAST_UNIMPLEMENTED_IF get_global_value get_op
       erase_weak_ref record_conflicting_definition Report modify].
  rewrite Hsym, Hop, Hkind, Hbody, Hty.
  rewrite (bool_decide_eq_true_2 (FuncOp = FuncOp)) by done.
  cbn [negb].
  rewrite (bool_decide_eq_false_2 (entry ∈ weak_ref_references c)) by done.
  cbn [negb andb].
  rewrite (bool_decide_eq_true_2 (Some type = Some type)) by done.
  by case_bool_decide.
Qed.

End conflicting_definitions.

(** C4 (as amended). Once a function entity has a body, requests for a
    definition under its mangled name report the conflict (the
    duplicate-mangled-name error at the requesting declaration and the
    previous-definition note) exactly once for each [GlobalDecl] they are
    made with: the first request with a [GlobalDecl] that is not in the
    diagnosed set reports the pair and inserts it into the set, and no
    later request with that [GlobalDecl], however many, reports anything.
    Every request returns the existing entity. *)
Theorem conflicting_definition_diagnosed_once `{lens : visitor_lens}
    (name : string) (type : mlir_type) (glob other : GlobalDecl)
    (d : FunctionDecl) (emit : global_emition) (c : codegen_context)
    (entry : op_id) (fn : op_state) :
  for_vtable emit = false ->
  thunk emit = false ->
  getDecl glob = Some d ->
  OpenMPIsTargetDevice acontext = false ->
  isMultiVersion d = false ->
  is_for_definition emit = true ->
  symbol_table c !! name = Some entry ->
  ops c !! entry = Some fn ->
  op_kind_of fn = FuncOp ->
  entry ∉ weak_ref_references c ->
  isDeclaration fn = false ->
  op_type fn = Some type ->
  lookup_representative_decl name = Some other ->
  getAsOpaquePtr glob ∉ diagnosed_conflicting_definitions c ->
  let call := get_or_create_vast_function name type glob emit in
  let after n := Nat.iter n (fun c' => (call c').2) c in
  forall n,
    (call (after n)).1 = Done entry
    /\ diagnostics (after (S n))
       = diagnostics c
         ++ [err_duplicate_mangled_name (fn_loc d) name;
             note_previous_definition (from_option fn_loc 0 (getDecl other))]
    /\ getAsOpaquePtr glob ∈ diagnosed_conflicting_definitions (after (S n)).
Proof.
  intros Hv Ht Hd Homp Hmv Hdef Hsym Hop Hkind Hweak Hbody Hty Hother Hnew
         call after.
  set (report := [err_duplicate_mangled_name (fn_loc d) name;
                  note_previous_definition (from_option fn_loc 0 (getDecl other))]).
  (* the context after the first request, and its properties *)
  set (c1 := add_diagnostic
               (note_previous_definition (from_option fn_loc 0 (getDecl other)))
               (add_diagnostic (err_duplicate_mangled_name (fn_loc d) name)
                  (set_diagnosed
                     ({[getAsOpaquePtr glob]} ∪ diagnosed_conflicting_definitions c)
                     c))).
  assert (Hfirst : call c = (Done entry, c1)).
  { unfold call.
    erewrite get_or_create_existing_definition by done.
    by rewrite bool_decide_eq_false_2. }
  assert (Hin1 : getAsOpaquePtr glob ∈ diagnosed_conflicting_definitions c1).
  { cbn. set_solver. }
  assert (Hlater : call c1 = (Done entry, c1)).
  { unfold call.
    erewrite (get_or_create_existing_definition name type glob d other emit c1 entry fn)
      by done.
    by rewrite bool_decide_eq_true_2. }
  assert (Hfix : forall n, after (S n) = c1).
  { intros n. unfold after. rewrite Nat.iter_succ_r, Hfirst. cbn [snd].
    induction n as [|n IH]; [done|].
    change (Nat.iter (S n) (fun c' => (call c').2) c1)
      with ((call (Nat.iter n (fun c' => (call c').2) c1)).2).
    by rewrite IH, Hlater. }
  intros n. split; [|split].
  - destruct n as [|n]; [by unfold after; cbn; rewrite Hfirst|].
    by rewrite Hfix, Hlater.
  - rewrite Hfix. cbn. by rewrite <- app_assoc.
  - by rewrite Hfix.
Qed.

(** The theorem applied to a second definition of [f] after the first one
    was lowered: three requests with it report one pair. *)
Lemma conflicting_definition_diagnosed_once_witness :
  let lens := Examples.c_lens Examples.first_definition in
  let call :=
    get_or_create_vast_function "f" (FunctionType Examples.int_fty)
      (get_gdecl NoStructor Examples.int_f_again) emit_definition in
  diagnostics
    (Nat.iter 3 (fun c' => (call c').2) Examples.defined_f)
  = [err_duplicate_mangled_name 3 "f"; note_previous_definition 1].
Proof.
  intros lens call.
  refine (proj1 (proj2
    (conflicting_definition_diagnosed_once (lens := lens)
       "f" (FunctionType Examples.int_fty)
       (get_gdecl NoStructor Examples.int_f_again)
       (get_gdecl NoStructor Examples.int_f)
       Examples.int_f_again emit_definition Examples.defined_f 0
       (with_blocks [Block [] [Operation hl_UnreachableOp []]]
          (with_visibility (Some Public)
             (with_linkage (Some 0)
                (new_op FuncOp "f" (Some (FunctionType Examples.int_fty))))))
       eq_refl eq_refl eq_refl eq_refl eq_refl eq_refl eq_refl eq_refl
       eq_refl _ eq_refl eq_refl eq_refl _ 2))).
  - apply (bool_decide_unpack _). vm_compute. exact I.
  - apply (bool_decide_unpack _). vm_compute. exact I.
Defined.

(** C4 as stated fails: the diagnosed set holds the [GlobalDecl] a request
    was made with, not the name. With the two definitions [int_f] (lowered
    first) and [int_f_again] of [f], a request for the second definition
    followed by a repeated request for the first one reports the pair
    twice for the one name; so does a request for a third definition. *)
Lemma conflicting_definition_reported_per_declaration :
  let lens := Examples.c_lens Examples.first_definition in
  let request d :=
    get_or_create_vast_function "f" (FunctionType Examples.int_fty)
      (get_gdecl NoStructor d) emit_definition in
  diagnostics
    (request Examples.int_f (request Examples.int_f_again Examples.defined_f).2).2
  = [err_duplicate_mangled_name 3 "f"; note_previous_definition 1;
     err_duplicate_mangled_name 1 "f"; note_previous_definition 1]
  /\ diagnostics
       (request Examples.int_f_third
          (request Examples.int_f_again Examples.defined_f).2).2
     = [err_duplicate_mangled_name 3 "f"; note_previous_definition 1;
        err_duplicate_mangled_name 4 "f"; note_previous_definition 1].
Proof. vm_compute. by split. Qed.

(** ** Scoped symbol tables *)

Section symbol_tables.

Lemma table_lookup_insert key v t :
  table_lookup key (table_insert key v t) = Some v.
Proof. unfold table_lookup. cbn. by rewrite lookup_insert_eq. Qed.

Lemma table_lookup_insert_ne key key' v t :
  key <> key' ->
  table_lookup key' (table_insert key v t) = table_lookup key' t.
Proof. intros H. unfold table_lookup. cbn. by rewrite lookup_insert_ne. Qed.

Lemma table_set_tables T t c : table T (set_tables <[T := t]> c) = t.
Proof. unfold table. cbn. by rewrite lookup_insert_eq. Qed.

Lemma table_set_tables_ne T T' t c :
  T <> T' -> table T' (set_tables <[T := t]> c) = table T' c.
Proof. intros H. unfold table. cbn. by rewrite lookup_insert_ne. Qed.

Lemma table_set_insertion T ip c : table T (set_insertion ip c) = table T c.
Proof. done. Qed.

(** The contract of [declare]. *)
Lemma declare_bound T key builder c v :
  table_lookup key (table T c) = Some v ->
  declare T key builder c = (Done v, c).
Proof.
  intros H. unfold declare, lookup. cbv [mbind M_bind]. by rewrite H.
Qed.

Lemma declare_unbound T key builder c v c1 :
  table_lookup key (table T c) = None ->
  builder c = (Done v, c1) ->
  declare T key builder c
  = (Done v, set_tables <[T := table_insert key v (table T c1)]> c1).
Proof.
  intros H Hb. unfold declare, lookup. cbv [mbind M_bind]. by rewrite H, Hb.
Qed.

Lemma declare_unbound_Fatal T key builder c msg c1 :
  table_lookup key (table T c) = None ->
  builder c = (Fatal msg, c1) ->
  declare T key builder c = (Fatal msg, c1).
Proof.
  intros H Hb. unfold declare, lookup. cbv [mbind M_bind]. by rewrite H, Hb.
Qed.

End symbol_tables.

(** ** Entry block and parameters *)

Section entry_block_facts.

Lemma entry_block_arguments fty :
  length (getArguments (entry_block fty)) = length (getInputs fty)
  /\ forall i t, getInputs fty !! i = Some t ->
       getArguments (entry_block fty) !! i = Some (BlockArgument i t).
Proof.
  unfold entry_block. cbn. split; [apply length_imap|].
  intros i t H. by rewrite list_lookup_imap, H.
Qed.

(** [declare_function_params] binds the parameters to the arguments
    position by position, as far as both lists go. *)
Lemma declare_function_params_spec params : forall args c,
  NoDup (parm_id <$> params) ->
  (forall p, p ∈ params -> table_lookup (inl (parm_id p)) (table vars c) = None) ->
  exists c',
    declare_function_params params args c = (Done tt, c')
    /\ ops c' = ops c /\ insertion c' = insertion c
    /\ (forall i p, params !! i = Some p ->
          table_lookup (inl (parm_id p)) (table vars c') = args !! i)
    /\ (forall key, (forall p, p ∈ params -> key <> inl (parm_id p)) ->
          table_lookup key (table vars c') = table_lookup key (table vars c)).
Proof.
  unfold declare_function_params.
  induction params as [|p params IH]; intros args c Hnd Hfree.
  - exists c. repeat split; try done.
  - destruct args as [|a args].
    + exists c. split; [done|]. split; [done|]. split; [done|]. split; [|done].
      intros i q Hq. rewrite lookup_nil. apply Hfree.
      by apply list_elem_of_lookup_2 in Hq.
    + cbn [zip zip_with for_each]. rewrite fmap_cons in Hnd.
      apply NoDup_cons in Hnd as [Hp Hnd].
      set (c1 := set_tables <[vars := table_insert (inl (parm_id p)) a (table vars c)]> c).
      assert (Hstep : declare vars (inl (parm_id p)) (mret a) c = (Done a, c1)).
      { apply declare_unbound; [apply Hfree; by left|done]. }
      destruct (IH args c1 Hnd) as (c' & Hrun & Hops & Hip & Hbound & Hother).
      { intros q Hq. unfold c1. rewrite table_set_tables, table_lookup_insert_ne.
        - apply Hfree. by right.
        - intros [= Heq]. apply Hp. rewrite Heq. by apply list_elem_of_fmap_2. }
      exists c'. split; [|split; [done|split; [done|split]]].
      * erewrite bind_Done; [exact Hrun|].
        erewrite bind_Done; [|exact Hstep]. done.
      * intros [|i] q Hq; cbn in Hq.
        -- injection Hq as <-. rewrite Hother.
           ++ unfold c1. by rewrite table_set_tables, table_lookup_insert.
           ++ intros q Hq [= Heq]. apply Hp. rewrite Heq. by apply list_elem_of_fmap_2.
        -- by apply Hbound.
      * intros key Hkey. rewrite Hother.
        -- unfold c1. rewrite table_set_tables, table_lookup_insert_ne; [done|].
           intros <-. by apply (Hkey p); [left|].
        -- intros q Hq. apply Hkey. by right.
Qed.

End entry_block_facts.

(** C6 (as amended). When the body of a definition is lowered, the entry
    block gets one argument for each input of the function entity's type,
    in order, and the parameter declarations (distinct, and not bound yet)
    are bound position by position to these arguments, as far as both
    lists go, before the labels and the body statement are lowered. When
    the entity's type has as many inputs as the declaration has parameters,
    every parameter is bound to the entry-block argument at its position. *)
Theorem entry_block_parameters `{lens : visitor_lens}
    (decl : FunctionDecl) (fn : op_id) (o : op_state) (fty : function_type)
    (c : codegen_context) :
  hasBody decl = true ->
  ops c !! fn = Some o ->
  op_type o = Some (FunctionType fty) ->
  NoDup (parm_id <$> parameters decl) ->
  (forall p, p ∈ parameters decl ->
     table_lookup (inl (parm_id p)) (table vars c) = None) ->
  exists c2,
    emit_function_body decl fn c
    = (emit_labels_and_body decl;; finish_function_body decl fn fty) c2
    /\ ops c2 !! fn = Some (with_blocks [entry_block fty] o)
    /\ insertion c2 = in_function fn 0
    /\ length (getArguments (entry_block fty)) = length (getInputs fty)
    /\ (forall i t, getInputs fty !! i = Some t ->
          getArguments (entry_block fty) !! i = Some (BlockArgument i t))
    /\ (forall i p, parameters decl !! i = Some p ->
          table_lookup (inl (parm_id p)) (table vars c2)
          = getArguments (entry_block fty) !! i)
    /\ (length (getInputs fty) = length (parameters decl) ->
        forall i p, parameters decl !! i = Some p ->
          exists t, getInputs fty !! i = Some t
            /\ table_lookup (inl (parm_id p)) (table vars c2)
               = Some (BlockArgument i t)).
Proof.
  intros Hbody Hop Hty Hnd Hfree.
  destruct (entry_block_arguments fty) as [Hlen Hargs].
  set (c1 := set_insertion (in_function fn 0)
               (set_ops (alter (with_blocks [entry_block fty]) fn) c)).
  destruct (declare_function_params_spec (parameters decl)
              (getArguments (entry_block fty)) c1 Hnd)
    as (c2 & Hrun & Hops & Hip & Hbound & _); [done|].
  exists c2. split; [|split; [|split; [|split; [|split; [|split]]]]]; try done.
  - unfold emit_function_body. rewrite Hbody.
    cbv [mbind M_bind mret M_ret get_op update_op restore_insertion_point modify].
    rewrite Hop, Hty. fold c1. by rewrite Hrun.
  - rewrite Hops. unfold c1. cbn. by rewrite lookup_alter_eq, Hop.
  - intros Heq i p Hp.
    destruct (lookup_lt_is_Some_2 (getInputs fty) i) as [t Ht].
    { rewrite Heq. by apply lookup_lt_Some in Hp. }
    exists t. split; [done|]. by rewrite (Hbound i p Hp), (Hargs i t Ht).
Qed.

(** The theorem applied to [int k(int a) { }] after its prototype has been
    created: [a] is bound to the only argument of the entry block. *)
Lemma entry_block_parameters_witness :
  let lens := Examples.c_lens Examples.no_representative in
  let fty := Examples.prototype_of Examples.k_definition in
  let c := (create (new_op FuncOp "k" (Some (FunctionType fty))) new_context).2 in
  exists c2,
    emit_function_body Examples.k_definition 0 c
    = (emit_labels_and_body Examples.k_definition;;
       finish_function_body Examples.k_definition 0 fty) c2
    /\ table_lookup (inl (parm_id Examples.parm_a)) (table vars c2)
       = Some (BlockArgument 0 "!hl.lvalue<!hl.int>").
Proof.
  intros lens fty c.
  destruct (entry_block_parameters (lens := lens) Examples.k_definition 0
              (new_op FuncOp "k" (Some (FunctionType fty))) fty c
              eq_refl eq_refl eq_refl)
    as (c2 & Hrun & _ & _ & _ & _ & Hbound & _).
  - cbn. apply NoDup_singleton.
  - intros p Hp. reflexivity.
  - exists c2. split; [exact Hrun|]. exact (Hbound 0 Examples.parm_a eq_refl).
Defined.

(** C6 as stated fails on [int h(); int h(int a) { }]: the definition
    reuses the entity created for the declaration without a prototype,
    whose type has no input, so the entry block of the lowered body has no
    argument although the definition declares one parameter. *)
Lemma entry_block_follows_entity_type :
  let lens := Examples.c_lens Examples.no_representative in
  let declared := (VisitFunctionDecl Examples.h_declaration new_context).2 in
  let defined := VisitFunctionDecl Examples.h_definition declared in
  defined.1 = Done (Some 0)
  /\ (op_blocks <$> ops defined.2 !! 0)
     = Some [Block [] [Operation hl_UnreachableOp []]]
  /\ length (parameters Examples.h_definition) = 1
  /\ (declare_function_params (parameters Examples.h_definition) []
        new_context).2 = new_context.
Proof. vm_compute. by repeat split. Qed.

(** ** Idempotent declaration *)

Section declare_contract.

(** Whatever [declare] returns is bound afterwards, so that declaring the
    same key again returns it without running the builder or changing the
    context. *)
Lemma declare_binds T key builder c v c' :
  declare T key builder c = (Done v, c') ->
  table_lookup key (table T c') = Some v.
Proof.
  destruct (table_lookup key (table T c)) as [v0|] eqn:Hc.
  - rewrite (declare_bound _ _ _ _ _ Hc). by intros [= <- <-].
  - destruct (builder c) as [[v1|msg] c1] eqn:Hb.
    + rewrite (declare_unbound _ _ _ _ _ _ Hc Hb). intros [= <- <-].
      by rewrite table_set_tables, table_lookup_insert.
    + by rewrite (declare_unbound_Fatal _ _ _ _ _ _ Hc Hb).
Qed.

Lemma declare_twice T key builder builder' c v c' :
  declare T key builder c = (Done v, c') ->
  declare T key builder' c' = (Done v, c').
Proof. intros H. apply declare_bound. by eapply declare_binds. Qed.

Lemma declare_op_run T key builder c :
  declare_op T key builder c
  = match declare T key (id ← builder; mret (OpResult id)) c with
    | (Done v, c') => (Done (getDefiningOp v), c')
    | (Fatal msg, c') => (Fatal msg, c')
    end.
Proof. unfold declare_op. cbv [mbind M_bind mret M_ret]. by destruct (declare _ _ _ _) as [[]]. Qed.

Lemma declare_op_twice T key builder builder' c r c' :
  declare_op T key builder c = (Done r, c') ->
  declare_op T key builder' c' = (Done r, c').
Proof.
  rewrite !declare_op_run.
  destruct (declare T key _ c) as [[v|msg] c1] eqn:Hd; [|done].
  intros [= <- <-]. by rewrite (declare_twice _ _ _ _ _ _ _ Hd).
Qed.

(** A bound key: the builder is not run and nothing changes. *)
Lemma declare_op_bound T key builder c v :
  table_lookup key (table T c) = Some v ->
  declare_op T key builder c = (Done (getDefiningOp v), c).
Proof. intros H. by rewrite declare_op_run, (declare_bound _ _ _ _ _ H). Qed.

End declare_contract.

Section table_frame.
Context `{lens : visitor_lens}.

Lemma keeps_table_update_op T id f : keeps (table T) (update_op id f).
Proof. by apply keeps_modify. Qed.

Lemma keeps_table_restore T ip : keeps (table T) (restore_insertion_point ip).
Proof. by apply keeps_modify. Qed.

Lemma keeps_table_enter_scope T T' : T' <> T -> keeps (table T) (enter_scope T').
Proof. intros H. apply keeps_modify. intros c. by apply table_set_tables_ne. Qed.

Lemma keeps_table_leave_scope T T' : T' <> T -> keeps (table T) (leave_scope T').
Proof. intros H. apply keeps_modify. intros c. by apply table_set_tables_ne. Qed.

Lemma keeps_table_create T o : keeps (table T) (create o).
Proof. intros c. unfold create. by destruct (insertion c). Qed.

Lemma keeps_table_declare T T' key builder :
  T' <> T -> keeps (table T) builder -> keeps (table T) (declare T' key builder).
Proof.
  intros Hne Hb. unfold declare. apply keeps_bind; [apply keeps_lookup|].
  intros [v|]; [apply keeps_ret|].
  apply keeps_bind; [done|]. intros v.
  apply keeps_bind; [|intros; apply keeps_ret].
  apply keeps_modify. intros c. by apply table_set_tables_ne.
Qed.

Lemma keeps_for_each {A X} (proj : codegen_context -> X) (l : list A) f :
  (forall x, keeps proj (f x)) -> keeps proj (for_each l f).
Proof.
  intros Hf. induction l as [|x l IH]; [apply keeps_ret|].
  cbn [for_each]. apply keeps_bind; [done|]. by intros _.
Qed.

Lemma keeps_table_declare_function_params T params args :
  T <> vars -> keeps (table T) (declare_function_params params args).
Proof.
  intros H. apply keeps_for_each. intros [arg earg].
  apply keeps_bind; [|intros; apply keeps_ret].
  apply keeps_table_declare; [done|apply keeps_ret].
Qed.

Lemma keeps_table_finish_function_body T decl fn fty :
  keeps (table T) (finish_function_body decl fn fty).
Proof.
  unfold finish_function_body. apply keeps_bind; [apply keeps_get_op|]. intros o.
  destruct (FunctionBody.find_last_op _) as [[ip l]|]; [|apply keeps_fatal].
  destruct (FunctionBody.emit_function_body_tail _ _ _); [|apply keeps_fatal].
  apply keeps_bind; [apply keeps_table_update_op|]. intros _.
  apply keeps_table_restore.
Qed.

(** What is left alone is kept in place. *)
Lemma persists_keeps {A} T (m : M A) : keeps (table T) m -> persists T m.
Proof.
  intros Hk c a c' key v Hrun. specialize (Hk c). rewrite Hrun in Hk.
  cbn [snd] in Hk. by rewrite Hk.
Qed.

Lemma persists_ret {A} T (a : A) : persists T (mret a).
Proof. apply persists_keeps, keeps_ret. Qed.

Lemma persists_fatal {A} T msg : persists T (@fatal A msg).
Proof. apply persists_keeps, keeps_fatal. Qed.

Lemma persists_bind {A B} T (m : M A) (f : A -> M B) :
  persists T m -> (forall a, persists T (f a)) -> persists T (m ≫= f).
Proof.
  intros Hm Hf c b c' key v Hrun Hbound.
  apply bind_inv in Hrun as (a & c1 & H1 & H2).
  eapply Hf; [exact H2|]. by eapply Hm.
Qed.

Lemma persists_for_each {A} T (l : list A) f :
  (forall x, x ∈ l -> persists T (f x)) -> persists T (for_each l f).
Proof.
  induction l as [|x l IH]; intros Hf; [apply persists_ret|].
  cbn [for_each]. apply persists_bind; [apply Hf; by left|].
  intros _. apply IH. intros y Hy. apply Hf. by right.
Qed.

(** [declare] binds a key that had no binding, after its builder: every
    binding there was stays. *)
Lemma persists_declare T T' key builder :
  persists T builder -> persists T (declare T' key builder).
Proof.
  intros Hb c v c' key' v' Hrun Hbound.
  destruct (table_lookup key (table T' c)) as [v0|] eqn:Hc.
  - rewrite (declare_bound _ _ _ _ _ Hc) in Hrun. by injection Hrun as _ <-.
  - destruct (builder c) as [[v1|msg] c1] eqn:Hrun1.
    + rewrite (declare_unbound _ _ _ _ _ _ Hc Hrun1) in Hrun.
      injection Hrun as _ <-.
      pose proof (Hb _ _ _ _ _ Hrun1 Hbound) as Hbound1.
      destruct (decide (T' = T)) as [->|Hne].
      * rewrite table_set_tables, table_lookup_insert_ne; [done|].
        intros <-. by rewrite Hc in Hbound.
      * by rewrite table_set_tables_ne.
    + by rewrite (declare_unbound_Fatal _ _ _ _ _ _ Hc Hrun1) in Hrun.
Qed.

Lemma persists_declare_op T T' key builder :
  persists T builder -> persists T (declare_op T' key builder).
Proof.
  intros Hb. unfold declare_op.
  apply persists_bind; [|intros; apply persists_ret].
  apply persists_declare. apply persists_bind; [done|]. intros; apply persists_ret.
Qed.

Lemma persists_create_with_region T o fill :
  persists T fill -> persists T (create_with_region o fill).
Proof.
  intros Hfill. unfold create_with_region.
  apply persists_bind; [apply persists_keeps, keeps_table_create|]. intros id.
  apply persists_bind; [apply persists_keeps; by intros ?|]. intros saved.
  apply persists_bind; [apply persists_keeps, keeps_table_restore|]. intros _.
  apply persists_bind; [done|]. intros _.
  apply persists_bind; [apply persists_keeps, keeps_table_restore|].
  intros _. apply persists_ret.
Qed.

(** Lowering a body keeps the bindings of the table of functions in place
    when lowering its labels and its statement does. *)
Lemma persists_emit_function_body decl fn :
  (forall l, l ∈ fn_labels decl ->
     persists funcdecls (visit_decl (label_id l))) ->
  persists funcdecls (visit_stmt (fn_getBody decl)) ->
  persists funcdecls (emit_function_body decl fn).
Proof.
  intros Hlabels Hstmt. unfold emit_function_body.
  apply persists_bind; [apply persists_keeps, keeps_get_op|]. intros o.
  apply persists_bind.
  { destruct (op_type o) as [[]|]; first [apply persists_ret|apply persists_fatal]. }
  intros fty.
  apply persists_bind; [apply persists_keeps, keeps_table_update_op|]. intros _.
  apply persists_bind; [apply persists_keeps, keeps_table_restore|]. intros _.
  apply persists_bind;
    [|intros _; apply persists_keeps, keeps_table_finish_function_body].
  destruct (hasBody decl); [|apply persists_ret].
  apply persists_bind;
    [by apply persists_keeps, keeps_table_declare_function_params|]. intros _.
  unfold emit_labels_and_body.
  apply persists_bind; [by apply persists_keeps, keeps_table_enter_scope|].
  intros _. apply persists_bind.
  { apply persists_for_each. intros l Hl.
    apply persists_bind; [by apply Hlabels|]. intros; apply persists_ret. }
  intros _. apply persists_bind; [done|]. intros _.
  by apply persists_keeps, keeps_table_leave_scope.
Qed.

(** So does the visit of a function declaration, which binds its mangled
    name only when the name has no binding. *)
Lemma persists_VisitFunctionLikeDecl structor decl :
  (forall l, l ∈ fn_labels decl ->
     persists funcdecls (visit_decl (label_id l))) ->
  persists funcdecls (visit_stmt (fn_getBody decl)) ->
  persists funcdecls (VisitFunctionLikeDecl structor decl).
Proof.
  intros Hlabels Hstmt. unfold VisitFunctionLikeDecl.
  apply persists_bind.
  { apply persists_keeps. unfold lookup_function, lookup_op.
    apply keeps_bind; [apply keeps_lookup|]. intros; apply keeps_ret. }
  intros fn0. apply persists_bind; [apply persists_keeps; by intros ?|].
  intros guard.
  apply persists_bind; [by apply persists_keeps, keeps_table_enter_scope|].
  intros _. apply persists_bind.
  { destruct fn0; [apply persists_ret|]. apply persists_declare_op.
    apply persists_bind; [apply persists_keeps, keeps_table_create|]. intros ret.
    apply persists_bind; [apply persists_keeps, keeps_table_update_op|].
    intros; apply persists_ret. }
  intros [fn|]; [|apply persists_fatal].
  apply persists_bind.
  { destruct (isThisDeclarationADefinition decl); [|apply persists_ret].
    apply persists_bind; [apply persists_keeps, keeps_table_update_op|].
    intros _. apply persists_bind; [apply persists_keeps, keeps_get_op|].
    intros o. destruct (isDeclaration o); [|apply persists_ret].
    by apply persists_emit_function_body. }
  intros _.
  apply persists_bind; [by apply persists_keeps, keeps_table_leave_scope|].
  intros _. apply persists_bind; [apply persists_keeps, keeps_table_restore|].
  intros; apply persists_ret.
Qed.

(** Filling the initializer of a variable keeps the bindings of the table
    of variables in place when lowering the initializer does. *)
Lemma persists_fill_initializer decl var_decl :
  (forall e, var_getInit decl = Some e -> persists vars (make_value_builder e)) ->
  persists vars (fill_initializer decl var_decl).
Proof.
  intros Hinit. unfold fill_initializer.
  destruct (var_getInit decl) as [init|]; [|apply persists_ret].
  apply persists_bind; [apply persists_keeps; by intros ?|]. intros guard.
  destruct var_decl; [|apply persists_fatal].
  apply persists_bind; [apply persists_keeps, keeps_table_restore|]. intros _.
  apply persists_bind; [by apply Hinit|]. intros _.
  apply persists_keeps, keeps_table_restore.
Qed.

Lemma persists_VisitVarDecl decl :
  (forall e, persists vars (make_value_builder e)) ->
  persists vars (VisitVarDecl decl).
Proof.
  intros Hvalue. unfold VisitVarDecl.
  apply persists_bind.
  { apply persists_declare. unfold make_var_decl.
    apply persists_bind; [|intros; apply persists_ret].
    apply persists_create_with_region.
    destruct (variable_array_size _); [apply Hvalue|apply persists_ret]. }
  intros v. apply persists_bind; [|intros; apply persists_ret].
  apply persists_fill_initializer. intros e _. apply Hvalue.
Qed.

End table_frame.

Section function_revisit.
Context `{lens : visitor_lens}.

(** Visiting a function declaration whose mangled name is bound returns
    the bound entity and creates nothing; for a definition whose entity
    already has a body, the body is left as it is. *)
Lemma VisitFunctionLikeDecl_bound structor decl c fn :
  table_lookup (inr (get_mangled_name (get_gdecl structor decl)))
               (table funcdecls c) = Some (OpResult fn) ->
  (isThisDeclarationADefinition decl = true ->
   exists o, ops c !! fn = Some o /\ op_blocks o <> []) ->
  exists c',
    VisitFunctionLikeDecl structor decl c = (Done (Some fn), c')
    /\ next_op c' = next_op c
    /\ dom (ops c') = dom (ops c)
    /\ (op_blocks <$> ops c' !! fn) = (op_blocks <$> ops c !! fn)
    /\ table funcdecls c' = table funcdecls c.
Proof.
  intros Hbound Hbody. unfold VisitFunctionLikeDecl.
  cbv [lookup_function lookup_op lookup save_insertion_point enter_scope
       leave_scope modify update_op restore_insertion_point
       mbind M_bind mret M_ret].
  rewrite Hbound. cbn [option_bind mbind getDefiningOp].
  destruct (isThisDeclarationADefinition decl) eqn:Hdef; cbn [negb].
  - destruct (Hbody eq_refl) as (o & Ho & Hblocks).
    unfold get_op. cbn [ops set_ops set_tables].
    rewrite lookup_alter_eq, Ho. cbn [fmap option_fmap option_map].
    assert (isDeclaration (with_visibility
              (Some (get_visibility_from_linkage
                 (get_function_linkage
                    match getDefinition acontext decl with
                    | Some d => get_gdecl NoStructor d
                    | None => get_gdecl structor decl
                    end))) o) = false) as ->.
    { unfold isDeclaration. cbn. by destruct (op_blocks o). }
    eexists. split; [reflexivity|]. cbn.
    split; [done|]. split; [by rewrite dom_alter_L|].
    split; [by rewrite lookup_alter_eq, Ho|].
    unfold table. cbn. by rewrite !lookup_insert_ne.
  - eexists. split; [reflexivity|]. cbn.
    split; [done|]. split; [done|]. split; [done|].
    unfold table. cbn. by rewrite !lookup_insert_ne.
Qed.

End function_revisit.

Section function_first_visit.
Context `{lens : visitor_lens}.

Lemma at_back_nonempty {A} (f : A -> A) l : l <> [] -> at_back f l <> [].
Proof. destruct l as [|x [|y l]]; done. Qed.

Lemma insert_at_nonempty ip new (r : region) :
  r <> [] -> FunctionBody.insert_at ip new r <> [].
Proof. destruct ip; apply at_back_nonempty. Qed.

Lemma emit_function_body_tail_nonempty decl fty blocks blocks' :
  emit_function_body_tail decl fty blocks = Some blocks' -> blocks' <> [].
Proof.
  unfold emit_function_body_tail.
  destruct (back blocks) as [lb|] eqn:Hlb; [|done]. cbn [mbind option_bind].
  assert (blocks <> []) as Hne by (intros ->; done).
  destruct (find_last_op blocks) as [[ip l]|]; [|done]. cbn [mbind option_bind].
  destruct (_ || _); intros [= <-]; [by apply insert_at_nonempty|done].
Qed.

(** A function whose body has been finished has blocks. *)
Lemma finish_function_body_post decl fn fty c c' :
  finish_function_body decl fn fty c = (Done tt, c') ->
  exists o, ops c' !! fn = Some o /\ op_blocks o <> [].
Proof.
  unfold finish_function_body, get_op. cbv [mbind M_bind].
  destruct (ops c !! fn) as [o|] eqn:Ho; [|done].
  destruct (find_last_op (op_blocks o)) as [[ip l]|]; [|done].
  destruct (emit_function_body_tail decl fty (op_blocks o)) as [blocks|] eqn:Htail;
    [|done].
  cbv [update_op restore_insertion_point modify]. intros [= <-].
  exists (with_blocks blocks o). cbn. rewrite lookup_alter_eq, Ho. split; [done|].
  by eapply emit_function_body_tail_nonempty.
Qed.

Lemma emit_function_body_post decl fn c c' :
  emit_function_body decl fn c = (Done tt, c') ->
  exists o, ops c' !! fn = Some o /\ op_blocks o <> [].
Proof.
  unfold emit_function_body. intros H.
  apply bind_inv in H as (o0 & c0 & _ & H).
  apply bind_inv in H as (fty & c1 & _ & H).
  apply bind_inv in H as (? & c2 & _ & H).
  apply bind_inv in H as (? & c3 & _ & H).
  apply bind_inv in H as ([] & c4 & _ & H).
  by eapply finish_function_body_post.
Qed.

(** What a visit of a function declaration leaves behind, when lowering
    the labels and the body keeps the bindings of the table of functions
    in place: the entity it returns is bound to the mangled name, and after
    a definition it has a body. *)
Lemma VisitFunctionLikeDecl_post structor decl c r c' :
  (forall l, l ∈ fn_labels decl ->
     persists funcdecls (visit_decl (label_id l))) ->
  persists funcdecls (visit_stmt (fn_getBody decl)) ->
  VisitFunctionLikeDecl structor decl c = (Done r, c') ->
  exists fn,
    r = Some fn
    /\ table_lookup (inr (get_mangled_name (get_gdecl structor decl)))
                    (table funcdecls c') = Some (OpResult fn)
    /\ (isThisDeclarationADefinition decl = true ->
        exists o, ops c' !! fn = Some o /\ op_blocks o <> []).
Proof.
  intros Hdecl Hstmt. unfold VisitFunctionLikeDecl.
  set (mangled := get_mangled_name (get_gdecl structor decl)).
  set (linkage := get_function_linkage _).
  intros H.
  apply bind_inv in H as (fn0 & c0 & H0 & H).
  apply bind_inv in H as (guard & c1 & H1 & H).
  apply bind_inv in H as ([] & c2 & H2 & H).
  apply bind_inv in H as (fn1 & c3 & H3 & H).
  destruct fn1 as [fn|]; [|done].
  apply bind_inv in H as ([] & c4 & H4 & H).
  apply bind_inv in H as ([] & c5 & H5 & H).
  apply bind_inv in H as ([] & c6 & H6 & H).
  injection H as <- <-.
  injection H1 as <- <-. injection H2 as <-.
  unfold lookup_function, lookup_op, lookup in H0. cbv [mbind M_bind mret M_ret] in H0.
  injection H0 as <- <-.
  (* the name is bound to [fn] once the prototype exists *)
  assert (Hbound3 : table_lookup (inr mangled) (table funcdecls c3)
                    = Some (OpResult fn)).
  { destruct (option_bind _ _ getDefiningOp
                (table_lookup (inr mangled) (table funcdecls c)))
      as [fn'|] eqn:Hfound.
    - injection H3 as <- <-.
      rewrite table_set_tables_ne by done.
      destruct (table_lookup _ _) as [[]|]; cbn in Hfound; by simplify_eq.
    - rewrite declare_op_run in H3.
      destruct (declare funcdecls _ _ _) as [[v|msg] c3'] eqn:Hd; [|done].
      injection H3 as Hv <-. apply declare_binds in Hd. rewrite Hd.
      destruct v; cbn in Hv; by simplify_eq. }
  (* the rest of the visit keeps the binding in place *)
  assert (Hkeep : persists funcdecls
            (if negb (isThisDeclarationADefinition decl) then mret tt
             else update_op fn
                    (with_visibility (Some (get_visibility_from_linkage linkage)));;
                  o ← get_op fn;
                  if isDeclaration o then emit_function_body decl fn else mret tt)).
  { destruct (isThisDeclarationADefinition decl); [|apply persists_ret].
    apply persists_bind; [apply persists_keeps, keeps_table_update_op|].
    intros _. apply persists_bind; [apply persists_keeps, keeps_get_op|].
    intros o. destruct (isDeclaration o); [|apply persists_ret].
    by apply persists_emit_function_body. }
  pose proof (Hkeep _ _ _ _ _ H4 Hbound3) as Hbound4.
  injection H5 as <-. injection H6 as <-.
  exists fn. split; [done|]. split.
  - by rewrite table_set_insertion, table_set_tables_ne.
  - intros Hdef. rewrite Hdef in H4. cbn [negb] in H4.
    apply bind_inv in H4 as ([] & c3a & Hvis & H4).
    apply bind_inv in H4 as (o & c3b & Hget & H4).
    cbn [ops set_insertion set_tables].
    destruct (isDeclaration o) eqn:Hempty.
    + by eapply emit_function_body_post.
    + injection H4 as <-. unfold get_op in Hget.
      destruct (ops c3a !! fn) as [o'|] eqn:Ho'; [|done].
      injection Hget as <- <-. exists o'. split; [done|].
      unfold isDeclaration in Hempty. by destruct (op_blocks o').
Qed.

End function_first_visit.

Section visit_twice.
Context `{lens : visitor_lens}.

Lemma VisitVarDecl_twice decl c r c' :
  (forall e, var_getInit decl = Some e -> persists vars (make_value_builder e)) ->
  VisitVarDecl decl c = (Done r, c') ->
  VisitVarDecl decl c' = (fill_initializer decl r;; mret r) c'.
Proof.
  intros Hframe H. unfold VisitVarDecl in H.
  apply bind_inv in H as (v & c1 & Hd & H).
  apply bind_inv in H as ([] & c2 & Hfill & H). injection H as <- <-.
  apply declare_binds in Hd.
  pose proof (persists_fill_initializer decl (getDefiningOp v) Hframe
                _ _ _ _ _ Hfill Hd) as Hbound.
  unfold VisitVarDecl.
  by rewrite (bind_Done _ _ _ _ _ (declare_bound _ _ _ _ _ Hbound)).
Qed.

Lemma VisitEnumDecl_twice decl c r c' :
  previous_decls decl = [] \/ isComplete decl = false ->
  VisitEnumDecl decl c = (Done r, c') ->
  VisitEnumDecl decl c' = (Done r, c').
Proof.
  unfold VisitEnumDecl. intros Hcase.
  destruct (previous_decls decl) as [|prev earlier] eqn:Hprev.
  - apply declare_op_twice.
  - destruct Hcase as [|Hinc]; [done|]. rewrite Hinc. cbn [negb].
    unfold lookup_op, lookup. cbv [mbind M_bind mret M_ret].
    by intros [= <- <-].
Qed.

End visit_twice.

Section enum_previous_declarations.
Context `{lens : visitor_lens}.

(** The walk over the previous declarations stops at the first one that
    has an operation and completes that operation. *)
Lemma complete_previous_found decl skipped prev earlier prev_op c :
  (forall s, s ∈ skipped ->
     table_lookup (inl (prev_id s)) (table enumdecls c) ≫= getDefiningOp = None) ->
  table_lookup (inl (prev_id prev)) (table enumdecls c) = Some (OpResult prev_op) ->
  prev_isComplete prev = false ->
  complete_previous decl (skipped ++ prev :: earlier) c
  = (visit_enumerators decl;;
     restore_insertion_point (insertion c);;
     mret (Some prev_op))
      (set_insertion (in_region_of prev_op 0)
         (set_ops (alter (with_type (Some (visit_type (getIntegerType decl))))
                         prev_op) c)).
Proof.
  intros Hskip Hprev Hinc.
  induction skipped as [|s skipped IH]; cbn [app complete_previous].
  - unfold lookup_op, lookup.
    cbv [mbind M_bind mret M_ret VAST_CHECK update_op save_insertion_point
         restore_insertion_point modify].
    rewrite Hprev, Hinc. cbn [option_bind mbind getDefiningOp negb].
    by destruct (visit_enumerators decl _) as [[]].
  - unfold lookup_op at 1, lookup. cbv [mbind M_bind mret M_ret].
    change (option_bind _ _ getDefiningOp ?x) with (x ≫= getDefiningOp).
    rewrite (Hskip s) by (by left). apply IH. intros s' Hs'. apply Hskip. by right.
Qed.

End enum_previous_declarations.

Section enum_revisit.
Context `{lens : visitor_lens}.

Lemma complete_previous_none decl prevs c :
  (forall s, s ∈ prevs ->
     table_lookup (inl (prev_id s)) (table enumdecls c) ≫= getDefiningOp = None) ->
  complete_previous decl prevs c = (Done None, c).
Proof.
  induction prevs as [|s prevs IH]; intros Hnone; [done|].
  cbn [complete_previous]. unfold lookup_op at 1, lookup.
  cbv [mbind M_bind mret M_ret].
  change (option_bind _ _ getDefiningOp ?x) with (x ≫= getDefiningOp).
  rewrite (Hnone s) by (by left). apply IH. intros s' Hs'. apply Hnone. by right.
Qed.

(** Either no previous declaration has an operation, or there is a
    nearest one that has. *)
Lemma previous_decls_split (prevs : list EnumRedecl) c :
  (forall s, s ∈ prevs ->
     table_lookup (inl (prev_id s)) (table enumdecls c) ≫= getDefiningOp = None)
  \/ exists skipped prev earlier prev_op,
       prevs = skipped ++ prev :: earlier
       /\ (forall s, s ∈ skipped ->
            table_lookup (inl (prev_id s)) (table enumdecls c) ≫= getDefiningOp
            = None)
       /\ table_lookup (inl (prev_id prev)) (table enumdecls c)
          = Some (OpResult prev_op).
Proof.
  induction prevs as [|s prevs IH].
  - left. intros s Hs. by apply elem_of_nil in Hs.
  - destruct (table_lookup (inl (prev_id s)) (table enumdecls c) ≫= getDefiningOp)
      as [prev_op|] eqn:Hs.
    + right. exists [], s, prevs, prev_op. split; [done|]. split.
      * intros s' Hs'. by apply elem_of_nil in Hs'.
      * destruct (table_lookup _ _) as [[]|]; cbn in Hs; by simplify_eq.
    + destruct IH as [Hnone|(skipped & prev & earlier & prev_op & -> & Hskip & Hprev)].
      * left. intros s' [->|Hs']%elem_of_cons; auto.
      * right. exists (s :: skipped), prev, earlier, prev_op.
        split; [done|]. split; [|done].
        intros s' [->|Hs']%elem_of_cons; auto.
Qed.

(** The binding of [key] in table [T]. *)
Lemma keeps_binding {A} T key (m : M A) :
  keeps (table T) m -> keeps (fun c => table_lookup key (table T c)) m.
Proof. intros H c. by rewrite H. Qed.

Lemma preserves_for_each_in {A X} (proj : codegen_context -> X) (l : list A) f :
  (forall x, x ∈ l -> preserves proj (f x)) -> preserves proj (for_each l f).
Proof.
  induction l as [|x l IH]; intros Hf; [apply keeps_preserves, keeps_ret|].
  cbn [for_each]. apply preserves_bind; [apply Hf; by left|].
  intros _. apply IH. intros y Hy. apply Hf. by right.
Qed.

(** Visiting the enumerators leaves a binding of the table of enums as it
    is when the visit of each enumerator does. *)
Lemma preserves_binding_visit_enumerators decl key :
  (forall con, con ∈ enumerators decl ->
     preserves (fun c => table_lookup key (table enumdecls c))
               (visit_decl (enumerator_id con))) ->
  preserves (fun c => table_lookup key (table enumdecls c))
            (visit_enumerators decl).
Proof.
  intros Hframe. apply preserves_for_each_in. intros con Hcon.
  apply preserves_bind; [by apply Hframe|].
  intros; apply keeps_preserves, keeps_ret.
Qed.

Lemma keeps_table_create_with_region T o fill :
  keeps (table T) fill -> keeps (table T) (create_with_region o fill).
Proof.
  intros Hfill. unfold create_with_region.
  apply keeps_bind; [apply keeps_table_create|]. intros id.
  apply keeps_bind; [by intros ?|]. intros saved.
  apply keeps_bind; [apply keeps_table_restore|]. intros _.
  apply keeps_bind; [done|]. intros _.
  apply keeps_bind; [apply keeps_table_restore|]. intros _. apply keeps_ret.
Qed.

(** A complete definition whose nearest declared predecessor has the
    operation [prev_op]. *)
Lemma VisitEnumDecl_completes decl skipped prev earlier prev_op c :
  isComplete decl = true ->
  previous_decls decl = skipped ++ prev :: earlier ->
  (forall s, s ∈ skipped ->
     table_lookup (inl (prev_id s)) (table enumdecls c) ≫= getDefiningOp = None) ->
  table_lookup (inl (prev_id prev)) (table enumdecls c) = Some (OpResult prev_op) ->
  prev_isComplete prev = false ->
  VisitEnumDecl decl c
  = (visit_enumerators decl;;
     restore_insertion_point (insertion c);;
     mret (Some prev_op))
      (set_insertion (in_region_of prev_op 0)
         (set_ops (alter (with_type (Some (visit_type (getIntegerType decl))))
                         prev_op) c)).
Proof.
  intros Hcomplete Hprevs Hskip Hprev Hinc.
  unfold VisitEnumDecl. rewrite Hprevs, Hcomplete.
  destruct (skipped ++ prev :: earlier) as [|p ps] eqn:Hl; [by destruct skipped|].
  rewrite <- Hl. cbn [negb]. unfold mbind at 1, M_bind at 1.
  rewrite (complete_previous_found decl skipped prev earlier prev_op c) by done.
  cbv [mbind M_bind mret M_ret].
  destruct (visit_enumerators decl _) as [[[]|msg] c2]; [|done].
  by destruct (restore_insertion_point (insertion c) c2) as [[[]|msg] c3].
Qed.

(** A second visit of an enum declaration returns what the first visit
    returned, when the visits of its enumerators leave the bindings of its
    previous declarations as they are. *)
Lemma VisitEnumDecl_again decl c r c' r2 c2 :
  (forall s, s ∈ previous_decls decl -> prev_id s <> enum_id decl) ->
  (forall con s, con ∈ enumerators decl -> s ∈ previous_decls decl ->
     preserves (fun c => table_lookup (inl (prev_id s)) (table enumdecls c))
               (visit_decl (enumerator_id con))) ->
  VisitEnumDecl decl c = (Done r, c') ->
  VisitEnumDecl decl c' = (Done r2, c2) ->
  r2 = r.
Proof.
  intros Hself Hframe Hfirst Hsecond.
  destruct (previous_decls decl) as [|p0 ps0] eqn:Hprevs.
  { assert (VisitEnumDecl decl c' = (Done r, c')) as Heq.
    { apply (VisitEnumDecl_twice decl c); [by left|done]. }
    rewrite Heq in Hsecond. by simplify_eq. }
  destruct (isComplete decl) eqn:Hcomplete.
  2:{ assert (VisitEnumDecl decl c' = (Done r, c')) as Heq.
      { apply (VisitEnumDecl_twice decl c); [by right|done]. }
      rewrite Heq in Hsecond. by simplify_eq. }
  rewrite <- Hprevs in Hself, Hframe.
  assert (Henums : forall s, s ∈ previous_decls decl ->
            preserves (fun c => table_lookup (inl (prev_id s)) (table enumdecls c))
                      (visit_enumerators decl)).
  { intros s Hs. apply preserves_binding_visit_enumerators.
    intros con Hcon. by apply Hframe. }
  destruct (previous_decls_split (previous_decls decl) c)
    as [Hnone|(skipped & prev & earlier & prev_op & Hsplit & Hskip & Hprev)].
  - (* nothing to complete: the definition is declared on its own *)
    assert (Hdeclare : declare_enum decl c = (Done r, c')).
    { revert Hfirst. unfold VisitEnumDecl. rewrite Hprevs, Hcomplete.
      cbn [negb]. rewrite <- Hprevs. unfold mbind at 1, M_bind at 1.
      by rewrite complete_previous_none. }
    assert (Htable : forall s, s ∈ previous_decls decl ->
              table_lookup (inl (prev_id s)) (table enumdecls c')
              = table_lookup (inl (prev_id s)) (table enumdecls c)).
    { intros s Hs. revert Hdeclare. unfold declare_enum. rewrite declare_op_run.
      destruct (table_lookup (inl (enum_id decl)) (table enumdecls c))
        as [v|] eqn:Hbound.
      - rewrite (declare_bound _ _ _ _ _ Hbound). by intros [= _ <-].
      - match goal with |- context [declare _ _ ?b _] => set (builder := b) end.
        assert (preserves
                  (fun c => table_lookup (inl (prev_id s)) (table enumdecls c))
                  builder) as Hkeep.
        { unfold builder. apply preserves_bind;
            [|intros; apply keeps_preserves, keeps_ret].
          rewrite Hcomplete. cbn [negb]. unfold create_with_region.
          apply preserves_bind;
            [apply keeps_preserves, keeps_binding, keeps_table_create|].
          intros id. apply preserves_bind; [apply keeps_preserves; by intros ?|].
          intros saved. apply preserves_bind;
            [apply keeps_preserves, keeps_binding, keeps_table_restore|].
          intros _. apply preserves_bind; [by apply Henums|]. intros _.
          apply preserves_bind;
            [apply keeps_preserves, keeps_binding, keeps_table_restore|].
          intros; apply keeps_preserves, keeps_ret. }
        destruct (builder c) as [[v|msg] cb] eqn:Hb.
        + rewrite (declare_unbound _ _ _ _ _ _ Hbound Hb). intros [= _ <-].
          rewrite table_set_tables, table_lookup_insert_ne.
          * exact (Hkeep _ _ _ Hb).
          * intros [= Heq]. by apply (Hself s).
        + by rewrite (declare_unbound_Fatal _ _ _ _ _ _ Hbound Hb). }
    assert (Hagain : VisitEnumDecl decl c' = (Done r, c')).
    { unfold VisitEnumDecl. rewrite Hprevs, Hcomplete. cbn [negb].
      rewrite <- Hprevs. unfold mbind at 1, M_bind at 1.
      rewrite complete_previous_none.
      - unfold declare_enum in *. by eapply declare_op_twice.
      - intros s Hs. rewrite Htable by done. by apply Hnone. }
    rewrite Hagain in Hsecond. by simplify_eq.
  - (* completion in place, both times *)
    destruct (prev_isComplete prev) eqn:Hinc.
    { exfalso. revert Hfirst. unfold VisitEnumDecl. rewrite Hprevs, Hcomplete.
      cbn [negb]. rewrite <- Hprevs, Hsplit. unfold mbind at 1, M_bind at 1.
      clear -Hskip Hprev Hinc.
      induction skipped as [|s skipped IH]; cbn [app complete_previous].
      - unfold lookup_op, lookup. cbv [mbind M_bind mret M_ret VAST_CHECK fatal].
        rewrite Hprev, Hinc. by cbn.
      - unfold lookup_op at 1, lookup. cbv [mbind M_bind mret M_ret].
        change (option_bind _ _ getDefiningOp ?x) with (x ≫= getDefiningOp).
        rewrite (Hskip s) by (by left). apply IH.
        intros s' Hs'. apply Hskip. by right. }
    rewrite (VisitEnumDecl_completes decl skipped prev earlier prev_op c)
      in Hfirst by done.
    apply bind_inv in Hfirst as ([] & c1 & Hvisit & Hfirst).
    apply bind_inv in Hfirst as ([] & c1' & Hrestore & Hfirst).
    injection Hfirst as <- <-. injection Hrestore as <-.
    assert (Htable : forall s, s ∈ previous_decls decl ->
              table_lookup (inl (prev_id s))
                (table enumdecls (set_insertion (insertion c) c1))
              = table_lookup (inl (prev_id s)) (table enumdecls c)).
    { intros s Hs. rewrite table_set_insertion.
      by rewrite (Henums s Hs _ _ _ Hvisit). }
    rewrite (VisitEnumDecl_completes decl skipped prev earlier prev_op) in Hsecond;
      [|done|done| | |done].
    + apply bind_inv in Hsecond as ([] & ? & _ & Hsecond).
      apply bind_inv in Hsecond as ([] & ? & _ & Hsecond).
      by injection Hsecond as <-.
    + intros s Hs. rewrite Htable; [by apply Hskip|].
      rewrite Hsplit. apply elem_of_app. by left.
    + rewrite Htable; [done|]. rewrite Hsplit. apply elem_of_app. right. by left.
Qed.

(** The visit of an enumerator leaves every table but that of the
    enumerators alone when lowering its initializer does. *)
Lemma keeps_table_VisitEnumConstantDecl T decl :
  T <> enumconsts ->
  (forall e, keeps (table T) (make_value_builder e)) ->
  keeps (table T) (VisitEnumConstantDecl decl).
Proof.
  intros Hne Hvalue. unfold VisitEnumConstantDecl, declare_op.
  apply keeps_bind; [|intros; apply keeps_ret].
  apply keeps_table_declare; [done|].
  apply keeps_bind; [|intros; apply keeps_ret].
  apply keeps_table_create_with_region.
  destruct (getInitExpr decl); [apply Hvalue|apply keeps_ret].
Qed.

End enum_revisit.

(** C2 (as amended). [declare] returns the binding of a key that has one
    without running the builder, and otherwise binds what the builder
    returns, so that declaring the key again returns the same entity. A
    second visit of a typedef, label, enumerator or (first or incomplete)
    enum declaration returns the entity of the first visit and changes
    nothing. A second visit of any enum declaration, if it returns,
    returns the entity of the first visit (the definition that completed
    an earlier declaration visits its enumerators again), provided the
    visits of its enumerators leave the bindings of its previous
    declarations as they are. A second visit of a variable declaration
    returns the same entity and only fills the initializer again, provided
    lowering the initializer keeps the bindings of the table of variables
    in place. A second visit of a function declaration returns the same
    entity, creates no operation, and -- the entity of a definition having
    a body after the first visit -- leaves the body as it is, provided
    lowering the labels and the body keeps the bindings of the table of
    functions in place. Bindings are kept in place by every collaborator
    that adds bindings through [declare], such as the visits of the callees
    of the body. *)
Theorem idempotent_declaration `{lens : visitor_lens} :
  (forall T key builder c v,
     table_lookup key (table T c) = Some v ->
     declare T key builder c = (Done v, c))
  /\ (forall T key builder builder' c v c',
      declare T key builder c = (Done v, c') ->
      table_lookup key (table T c') = Some v
      /\ declare T key builder' c' = (Done v, c'))
  /\ (forall decl c r c',
      VisitTypedefDecl decl c = (Done r, c') ->
      VisitTypedefDecl decl c' = (Done r, c'))
  /\ (forall decl c r c',
      VisitLabelDecl decl c = (Done r, c') ->
      VisitLabelDecl decl c' = (Done r, c'))
  /\ (forall decl c r c',
      VisitEnumConstantDecl decl c = (Done r, c') ->
      VisitEnumConstantDecl decl c' = (Done r, c'))
  /\ (forall decl c r c',
      previous_decls decl = [] \/ isComplete decl = false ->
      VisitEnumDecl decl c = (Done r, c') ->
      VisitEnumDecl decl c' = (Done r, c'))
  /\ (forall decl c r c' r2 c2,
      (forall s, s ∈ previous_decls decl -> prev_id s <> enum_id decl) ->
      (forall con s, con ∈ enumerators decl -> s ∈ previous_decls decl ->
         preserves (fun c => table_lookup (inl (prev_id s)) (table enumdecls c))
                   (visit_decl (enumerator_id con))) ->
      VisitEnumDecl decl c = (Done r, c') ->
      VisitEnumDecl decl c' = (Done r2, c2) ->
      r2 = r)
  /\ (forall decl c r c',
      (forall e, var_getInit decl = Some e ->
         persists vars (make_value_builder e)) ->
      VisitVarDecl decl c = (Done r, c') ->
      VisitVarDecl decl c' = (fill_initializer decl r;; mret r) c')
  /\ (forall structor decl c r c',
      (forall l, l ∈ fn_labels decl ->
         persists funcdecls (visit_decl (label_id l))) ->
      persists funcdecls (visit_stmt (fn_getBody decl)) ->
      VisitFunctionLikeDecl structor decl c = (Done r, c') ->
      exists fn c'',
        r = Some fn
        /\ VisitFunctionLikeDecl structor decl c' = (Done (Some fn), c'')
        /\ next_op c'' = next_op c'
        /\ dom (ops c'') = dom (ops c')
        /\ (op_blocks <$> ops c'' !! fn) = (op_blocks <$> ops c' !! fn)
        /\ (isThisDeclarationADefinition decl = true ->
            exists o, ops c' !! fn = Some o /\ op_blocks o <> [])).
Proof.
  split; [apply @declare_bound|].
  split; [intros T key b b' c v c' H; split;
          [by eapply declare_binds|by eapply declare_twice]|].
  split; [intros decl c r c'; apply declare_op_twice|].
  split; [intros decl c r c'; apply declare_op_twice|].
  split; [intros decl c r c'; apply declare_op_twice|].
  split; [intros decl c r c'; apply VisitEnumDecl_twice|].
  split; [intros decl c r c' r2 c2 Hself Hframe H1 H2;
          by apply (VisitEnumDecl_again decl c r c' r2 c2)|].
  split; [intros decl c r c' Hframe; by apply VisitVarDecl_twice|].
  intros structor decl c r c' Hlabels Hstmt H.
  destruct (VisitFunctionLikeDecl_post _ _ _ _ _ Hlabels Hstmt H)
    as (fn & -> & Hbound & Hbody).
  destruct (VisitFunctionLikeDecl_bound structor decl c' fn Hbound Hbody)
    as (c'' & Hrun & Hnext & Hdom & Hblocks & _).
  by exists fn, c''.
Qed.

(** The theorem applied to three declarations visited twice, each with
    collaborators that lower something: the definition of [f], whose body
    lowers the declaration of its callee [g]; the variable [x], whose
    initializer lowers the declaration of [y]; and the definition of the
    enum [E] after its forward declaration, whose enumerators are lowered
    by [VisitEnumConstantDecl]. *)
Lemma idempotent_declaration_witness :
  (let lens := Examples.unit_lens in
   let first := VisitFunctionDecl Examples.int_f new_context in
   exists fn c'',
     first.1 = Done (Some fn)
     /\ next_op first.2 = 2
     /\ VisitFunctionDecl Examples.int_f first.2 = (Done (Some fn), c'')
     /\ next_op c'' = next_op first.2
     /\ (op_blocks <$> ops c'' !! fn) = (op_blocks <$> ops first.2 !! fn))
  /\ (let lens := Examples.unit_lens in
      let first := VisitVarDecl Examples.static_x new_context in
      first.1 = Done (Some 0)
      /\ next_op first.2 = 2
      /\ VisitVarDecl Examples.static_x first.2
         = (fill_initializer Examples.static_x (Some 0);; mret (Some 0)) first.2)
  /\ (let lens := Examples.enum_lens in
      let forward := (VisitEnumDecl Examples.E_forward new_context).2 in
      let first := VisitEnumDecl Examples.E_definition forward in
      let second := VisitEnumDecl Examples.E_definition first.2 in
      let r2 := match second.1 with Done r => r | Fatal _ => None end in
      first.1 = Done (Some 0)
      /\ second.1 = Done r2
      /\ r2 = Some 0).
Proof.
  set (leaf := Examples.c_lens Examples.no_representative).
  split; [|split].
  - intros lens first.
    assert (Hfirst : VisitFunctionLikeDecl NoStructor Examples.int_f new_context
                     = (Done (Some 0), first.2)) by (vm_compute; reflexivity).
    destruct (proj2 (proj2 (proj2 (proj2 (proj2 (proj2 (proj2 (proj2
                (idempotent_declaration (lens := lens)))))))))
                NoStructor Examples.int_f new_context (Some 0) first.2)
      as (fn & c'' & Hr & Hrun & Hnext & _ & Hblocks & _).
    + intros l Hl. by apply elem_of_nil in Hl.
    + apply persists_bind; [|intros; apply persists_ret].
      apply (persists_VisitFunctionLikeDecl (lens := leaf)).
      * intros l Hl. by apply elem_of_nil in Hl.
      * apply persists_ret.
    + exact Hfirst.
    + injection Hr as <-. exists 0, c''.
      split; [vm_compute; reflexivity|]. split; [vm_compute; reflexivity|].
      split; [exact Hrun|]. split; [exact Hnext|exact Hblocks].
  - intros lens first.
    assert (Hfirst : VisitVarDecl Examples.static_x new_context
                     = (Done (Some 0), first.2)) by (vm_compute; reflexivity).
    split; [vm_compute; reflexivity|]. split; [vm_compute; reflexivity|].
    apply (proj1 (proj2 (proj2 (proj2 (proj2 (proj2 (proj2 (proj2
             (idempotent_declaration (lens := lens)))))))))
             Examples.static_x new_context (Some 0) first.2);
      [|exact Hfirst].
    intros e _.
    apply persists_bind; [|intros; apply persists_ret].
    apply (persists_VisitVarDecl (lens := leaf)). intros e'. apply persists_ret.
  - intros lens forward first second r2.
    assert (Hfirst : VisitEnumDecl Examples.E_definition forward
                     = (Done (Some 0), first.2)) by (vm_compute; reflexivity).
    assert (Hsecond : VisitEnumDecl Examples.E_definition first.2
                      = (Done r2, second.2)) by (vm_compute; reflexivity).
    split; [vm_compute; reflexivity|]. split; [vm_compute; reflexivity|].
    apply (proj1 (proj2 (proj2 (proj2 (proj2 (proj2 (proj2
             (idempotent_declaration (lens := lens))))))))
             Examples.E_definition forward (Some 0) first.2 r2 second.2);
      [| |exact Hfirst|exact Hsecond].
    + intros s Hs. apply list_elem_of_singleton in Hs as ->. by cbn.
    + intros con s _ _. apply keeps_preserves, keeps_binding.
      cbv [visit_decl lens Examples.enum_lens].
      repeat case_bool_decide;
        first [apply keeps_ret
              |apply (keeps_table_VisitEnumConstantDecl (lens := leaf));
               [done|intros e; apply keeps_ret]].
Defined.

(** C2 as stated fails for the definition of a record: [struct S { };]
    visited twice yields two operations. *)
Lemma record_definition_visited_twice :
  let lens := Examples.c_lens Examples.no_representative in
  let first := VisitRecordDecl Examples.S_definition new_context in
  let second := VisitRecordDecl Examples.S_definition first.2 in
  first.1 = Done (Some 0)
  /\ second.1 = Done (Some 1)
  /\ (op_kind_of <$> ops second.2 !! 0) = Some StructDeclOp
  /\ (op_kind_of <$> ops second.2 !! 1) = Some StructDeclOp
  /\ module_body second.2 = [0; 1].
Proof. vm_compute. by repeat split. Qed.

(** ** Completion of tag types *)

(** C3 (as amended). For an enum, visiting a complete definition walks the
    previous declarations, and the nearest one that has an operation is
    completed in place: the underlying integer type is set on that
    operation, the enumerators are visited with the insertion point at the
    front of its constants (an operation created there becomes the first
    constant), and that operation is returned; the visitor itself creates
    no operation. For a record, union or class there is no such walk: a
    declaration that is not a complete definition declares a type
    declaration operation, and a complete definition always creates a new
    operation of the record kind, whose identity is the next fresh one. *)
Theorem tag_completion `{lens : visitor_lens} :
  (forall decl skipped prev earlier prev_op e c,
     isComplete decl = true ->
     previous_decls decl = skipped ++ prev :: earlier ->
     (forall s, s ∈ skipped ->
        table_lookup (inl (prev_id s)) (table enumdecls c) ≫= getDefiningOp
        = None) ->
     table_lookup (inl (prev_id prev)) (table enumdecls c)
     = Some (OpResult prev_op) ->
     prev_isComplete prev = false ->
     ops c !! prev_op = Some e ->
     let completed := with_type (Some (visit_type (getIntegerType decl))) e in
     let c1 := set_insertion (in_region_of prev_op 0)
                 (set_ops (alter (with_type
                             (Some (visit_type (getIntegerType decl))))
                           prev_op) c) in
     VisitEnumDecl decl c
     = (visit_enumerators decl;;
        restore_insertion_point (insertion c);;
        mret (Some prev_op)) c1
     /\ ops c1 !! prev_op = Some completed
     /\ next_op c1 = next_op c
     /\ dom (ops c1) = dom (ops c)
     /\ (forall o, next_op c <> prev_op ->
           ops (create o c1).2 !! prev_op
           = Some (with_members (next_op c :: op_members e) completed)))
  /\ (forall Op decl c,
      isCompleteDefinition decl = false ->
      make_record_decl Op decl c
      = declare_op typedecls (inl (record_id decl))
          (create (new_op TypeDeclOp (record_name decl) None)) c)
  /\ (forall Op decl c,
      isCompleteDefinition decl = true ->
      make_record_decl Op decl c
      = (op ← create_with_region (new_op Op (record_name decl) None)
                (visit_record_children (decls decl));
         mret (Some op)) c
      /\ (create (new_op Op (record_name decl) None) c).1 = Done (next_op c)
      /\ forall r c', make_record_decl Op decl c = (Done r, c') ->
           r = Some (next_op c)).
Proof.
  split; [|split].
  - intros decl skipped prev earlier prev_op e c Hcomplete Hprevs Hskip Hprev
           Hinc He completed c1.
    split; [|split; [|split; [|split]]].
    + unfold VisitEnumDecl. rewrite Hprevs, Hcomplete.
      destruct (skipped ++ prev :: earlier) as [|p ps] eqn:Hl;
        [by destruct skipped|].
      rewrite <- Hl. cbn [negb]. unfold mbind at 1, M_bind at 1.
      rewrite (complete_previous_found decl skipped prev earlier prev_op c)
        by done.
      fold c1. cbv [mbind M_bind mret M_ret].
      destruct (visit_enumerators decl c1) as [[[]|msg] c2]; [|done].
      by destruct (restore_insertion_point (insertion c) c2) as [[[]|msg] c3].
    + unfold c1. cbn. by rewrite lookup_alter_eq, He.
    + done.
    + unfold c1. cbn. by rewrite dom_alter_L.
    + intros o Hfresh. unfold create, c1. cbn.
      rewrite lookup_alter_eq, lookup_insert_ne by done.
      by rewrite lookup_alter_eq, He.
  - intros Op decl c H. unfold make_record_decl. by rewrite H.
  - intros Op decl c H.
    assert (Hcreate : (create (new_op Op (record_name decl) None) c).1
                      = Done (next_op c)).
    { unfold create. by destruct (insertion c). }
    split; [unfold make_record_decl; by rewrite H|]. split; [done|].
    intros r c'. unfold make_record_decl. rewrite H. cbn [negb].
    unfold create_with_region. intros Hrun.
    apply bind_inv in Hrun as (op & c2 & Hrun & Hret). injection Hret as <- <-.
    apply bind_inv in Hrun as (id & c1 & Hc & Hrun).
    rewrite Hc in Hcreate. cbn in Hcreate. injection Hcreate as ->.
    apply bind_inv in Hrun as (? & ? & _ & Hrun).
    apply bind_inv in Hrun as (? & ? & _ & Hrun).
    apply bind_inv in Hrun as (? & ? & _ & Hrun).
    apply bind_inv in Hrun as (? & ? & _ & Hrun).
    by injection Hrun as <-.
Qed.

(** The theorem applied to [enum E; enum E { A, B };]: the operation of
    the forward declaration is returned again, with its type set and the
    two enumerators as its constants. *)
Lemma tag_completion_witness :
  let lens := Examples.enum_lens in
  let forward := VisitEnumDecl Examples.E_forward new_context in
  let c1 := set_insertion (in_region_of 0 0)
              (set_ops (alter (with_type (Some (ElementType "unsigned int"))) 0)
                       forward.2) in
  forward.1 = Done (Some 0)
  /\ VisitEnumDecl Examples.E_definition forward.2
     = (visit_enumerators Examples.E_definition;;
        restore_insertion_point in_module;;
        mret (Some 0)) c1
  /\ (VisitEnumDecl Examples.E_definition forward.2).1 = Done (Some 0)
  /\ ((fun o => (op_kind_of o, op_type o, op_members o))
        <$> ops (VisitEnumDecl Examples.E_definition forward.2).2 !! 0)
     = Some (EnumDeclOp, Some (ElementType "unsigned int"), [1; 2]).
Proof.
  intros lens forward c1.
  split; [vm_compute; reflexivity|].
  split; [|split; vm_compute; reflexivity].
  refine (proj1 (proj1 (tag_completion (lens := lens))
    Examples.E_definition [] {| prev_id := 30; prev_isComplete := false |} []
    0 (new_op EnumDeclOp "E" None) forward.2 eq_refl eq_refl _ _ eq_refl _)).
  - intros s Hs. by apply elem_of_nil in Hs.
  - vm_compute. reflexivity.
  - vm_compute. reflexivity.
Defined.

(** C3 as stated fails for records: after [struct S;] has been lowered,
    [struct S { };] gets an operation of its own, and the operation of the
    forward declaration stays what it was. *)
Lemma record_completion_creates_new_entity :
  let lens := Examples.c_lens Examples.no_representative in
  let forward := VisitRecordDecl Examples.S_forward new_context in
  let defined := VisitRecordDecl Examples.S_definition forward.2 in
  forward.1 = Done (Some 0)
  /\ defined.1 = Done (Some 1)
  /\ (op_kind_of <$> ops defined.2 !! 0) = Some TypeDeclOp
  /\ (op_kind_of <$> ops defined.2 !! 1) = Some StructDeclOp
  /\ ops defined.2 !! 0 = ops forward.2 !! 0
  /\ module_body defined.2 = [0; 1].
Proof. vm_compute. by repeat split. Qed.


(** * Further properties of the code *)

(** ** Terminator synthesis and the structure of the body *)

Section synthesis_frame.

Lemma count_region_last p r b :
  count_region p (r ++ [b]) = count_region p r + count_ops p (getOperations b).
Proof.
  rewrite count_region_app. unfold count_region at 2, count_block.
  cbn [foldr]. lia.
Qed.

Lemma back_app_Some {A} (l new : list A) t :
  back new = Some t -> back (l ++ new) = Some t.
Proof.
  intros H. apply back_Some_snoc in H as [new' ->].
  rewrite app_assoc. apply back_snoc.
Qed.

(** Creating operations at the end of the function's last block. *)
Lemma insert_at_flat new blocks b :
  back blocks = Some b ->
  (forall a scope, blocks = [Block a [scope]] -> isa_ScopeOp scope = false) ->
  length (insert_at 0 new blocks) = length blocks
  /\ getArguments <$> insert_at 0 new blocks = getArguments <$> blocks
  /\ (exists front lb lb',
        blocks = front ++ [lb] /\ insert_at 0 new blocks = front ++ [lb'])
  /\ (forall p, count_region p (insert_at 0 new blocks)
                = count_region p blocks + count_ops p new)
  /\ (forall t, back new = Some t -> isa_ScopeOp t = false ->
        find_last_op (insert_at 0 new blocks) = Some (0, Some t)).
Proof.
  intros Hb Hflat. apply back_Some_snoc in Hb as [front ->].
  cbn [insert_at]. rewrite at_back_snoc.
  split; [by rewrite !length_app|].
  split; [by rewrite !fmap_app|].
  split; [by eexists front, b, _|].
  split.
  - intros p. rewrite !count_region_last. cbn [getOperations].
    rewrite count_ops_app. lia.
  - intros t Ht Hns.
    rewrite (find_last_op_flat _ (Block (getArguments b) (getOperations b ++ new))).
    + cbn [getOperations]. rewrite (back_app_Some _ _ _ Ht).
      cbn [unless_scope]. by rewrite Hns.
    + apply back_snoc.
    + intros a scope Heq.
      change [Block a [scope]] with ([] ++ [Block a [scope]]) in Heq.
      apply app_inj_tail in Heq as [-> Heq].
      injection Heq as _ Heq.
      pose proof (back_app_Some (getOperations b) new t Ht) as Hlast.
      rewrite Heq in Hlast. cbn in Hlast. by simplify_eq.
Qed.

(** The search and the insertion point it leaves: operations created there
    are appended to one block, below the last block of the function, and
    the search then ends at the last of them. *)
Lemma search_insert n : forall blocks,
  region_depth blocks <= n ->
  blocks <> [] ->
  scopes_have_blocks blocks ->
  exists ip last_op,
    find_last_op blocks = Some (ip, last_op)
    /\ forall new,
        length (insert_at ip new blocks) = length blocks
        /\ getArguments <$> insert_at ip new blocks = getArguments <$> blocks
        /\ (exists front lb lb',
              blocks = front ++ [lb] /\ insert_at ip new blocks = front ++ [lb'])
        /\ (forall q : op_name -> bool,
              count_region (fun op => q (getName op)) (insert_at ip new blocks)
              = count_region (fun op => q (getName op)) blocks
                + count_ops (fun op => q (getName op)) new)
        /\ (forall t, back new = Some t -> isa_ScopeOp t = false ->
              find_last_op (insert_at ip new blocks) = Some (ip, Some t)).
Proof.
  induction n as [|n IH]; intros blocks Hd Hne Hwf;
    (destruct (region_shape blocks) as [(a & scope & -> & Hs)|Hflat];
     [|destruct (back_nonempty blocks Hne) as [b Hb];
       exists 0, (unless_scope (back (getOperations b)));
       split; [by apply find_last_op_flat|];
       intros new;
       destruct (insert_at_flat new blocks b Hb Hflat) as (H1 & H2 & H3 & H4 & H5);
       split; [done|]; split; [done|]; split; [done|];
       split; [intros q; apply H4|done]]).
  - rewrite region_depth_single in Hd. destruct scope.
    rewrite op_depth_unfold in Hd. lia.
  - rewrite region_depth_single in Hd. unfold scopes_have_blocks in Hwf.
    rewrite count_region_single in Hwf. destruct scope as [nm body].
    rewrite op_depth_unfold in Hd. rewrite count_op_unfold in Hwf.
    assert (Hbody : body <> []).
    { intros ->. unfold empty_scope in Hwf. rewrite Hs in Hwf. done. }
    destruct (IH body) as (ip & last_op & Hfind & Hins);
      [lia|done|unfold scopes_have_blocks; lia|].
    exists (S ip), last_op. split.
    { rewrite find_last_op_scope by done. cbn [getBody]. by rewrite Hfind. }
    intros new. destruct (Hins new) as (H1 & H2 & H3 & H4 & H5).
    cbn [insert_at at_back getArguments getOperations getName getBody].
    split; [done|]. split; [done|].
    split; [by eexists [], _, _|].
    split.
    + intros q. rewrite !count_region_single, !count_op_unfold.
      cbn [getName]. rewrite H4. lia.
    + intros t Ht Hns. rewrite find_last_op_scope.
      * cbn [getBody]. by rewrite (H5 t Ht Hns).
      * done.
      * cbn [getBody]. by apply insert_at_nonempty.
Qed.

End synthesis_frame.

(** X1. Terminator synthesis only appends. Whatever [emit_function_body]
    does after the body has been lowered, the function keeps its blocks and
    their arguments, every block before the last one is as it was, and for
    every kind of operation the body holds at least as many operations as
    before and at most those of [emit_function_terminator] more. *)
Theorem terminator_synthesis_only_appends decl fty blocks blocks' :
  blocks <> [] ->
  scopes_have_blocks blocks ->
  emit_function_body_tail decl fty blocks = Some blocks' ->
  length blocks' = length blocks
  /\ getArguments <$> blocks' = getArguments <$> blocks
  /\ (exists front lb lb', blocks = front ++ [lb] /\ blocks' = front ++ [lb'])
  /\ (forall q : op_name -> bool,
        count_region (fun op => q (getName op)) blocks
        <= count_region (fun op => q (getName op)) blocks'
        /\ count_region (fun op => q (getName op)) blocks'
           <= count_region (fun op => q (getName op)) blocks
              + count_ops (fun op => q (getName op))
                          (emit_function_terminator decl fty)).
Proof.
  intros Hne Hwf.
  destruct (search_insert (region_depth blocks) blocks)
    as (ip & last_op & Hfind & Hins); [lia|done|done|].
  destruct (back_nonempty blocks Hne) as [lb Hlb].
  unfold emit_function_body_tail. rewrite Hlb, Hfind. cbn [mbind option_bind].
  destruct (_ || _); intros [= <-].
  - destruct (Hins (emit_function_terminator decl fty)) as (H1 & H2 & H3 & H4 & _).
    split; [done|]. split; [done|]. split; [done|].
    intros q. rewrite H4. lia.
  - split; [done|]. split; [done|]. split.
    + apply back_Some_snoc in Hlb as [front ->]. by exists front, lb, lb.
    + intros q. lia.
Qed.

(** The theorem applied to [int f(void) { { { expr; } } }]. *)
Lemma terminator_synthesis_only_appends_witness :
  let blocks' :=
    [Block [] [Examples.scope [Block [] [Examples.scope
       [Block [] [Examples.hl_expr; Operation hl_UnreachableOp []]]]]]] in
  length blocks' = length Examples.nested_trailing_scopes
  /\ getArguments <$> blocks' = getArguments <$> Examples.nested_trailing_scopes
  /\ (exists front lb lb',
        Examples.nested_trailing_scopes = front ++ [lb]
        /\ blocks' = front ++ [lb'])
  /\ (forall q : op_name -> bool,
        count_region (fun op => q (getName op)) Examples.nested_trailing_scopes
        <= count_region (fun op => q (getName op)) blocks'
        /\ count_region (fun op => q (getName op)) blocks'
           <= count_region (fun op => q (getName op))
                           Examples.nested_trailing_scopes
              + count_ops (fun op => q (getName op))
                  (emit_function_terminator Examples.int_f Examples.int_fty)).
Proof.
  apply (terminator_synthesis_only_appends Examples.int_f Examples.int_fty
           Examples.nested_trailing_scopes); [done|reflexivity|reflexivity].
Defined.

(** X2. Terminator synthesis is stable. After [emit_function_body] has
    looked for the last operation and created a terminator where one was
    missing, the same search ends at the same insertion point and finds a
    terminator there, so that running the step again changes nothing. *)
Theorem terminator_synthesis_stable decl fty blocks blocks' :
  blocks <> [] ->
  scopes_have_blocks blocks ->
  emit_function_body_tail decl fty blocks = Some blocks' ->
  (exists ip last_op t,
     find_last_op blocks = Some (ip, last_op)
     /\ find_last_op blocks' = Some (ip, Some t)
     /\ is_terminator t = true)
  /\ emit_function_body_tail decl fty blocks' = Some blocks'.
Proof.
  intros Hne Hwf Htail.
  destruct (search_insert (region_depth blocks) blocks)
    as (ip & last_op & Hfind & Hins); [lia|done|done|].
  destruct (back_nonempty blocks Hne) as [lb Hlb].
  assert (Hfound : exists t, find_last_op blocks' = Some (ip, Some t)
                             /\ is_terminator t = true).
  { revert Htail. unfold emit_function_body_tail.
    rewrite Hlb, Hfind. cbn [mbind option_bind].
    destruct (is_empty (getOperations lb) || _) eqn:Hc; intros [= <-].
    - destruct (emit_function_terminator_last decl fty) as (Hlast & _ & _).
      destruct (Hins (emit_function_terminator decl fty)) as (_ & _ & _ & _ & H5).
      eexists. split; [apply (H5 _ Hlast)|];
        by destruct (returnType_isVoidType decl), (isMain decl).
    - apply orb_false_elim in Hc as [_ Hc].
      destruct last_op as [op|]; [|done]. exists op. split; [done|].
      by destruct (is_terminator op). }
  destruct Hfound as (t & Hfind' & Hterm).
  split; [by exists ip, last_op, t|].
  assert (Hne' : blocks' <> []) by (by eapply emit_function_body_tail_nonempty).
  destruct (back_nonempty blocks' Hne') as [lb' Hlb'].
  unfold emit_function_body_tail. rewrite Hlb', Hfind'. cbn [mbind option_bind].
  rewrite Hterm. cbn [negb]. rewrite orb_false_r.
  destruct (is_empty (getOperations lb')) eqn:He; [|done].
  rewrite (find_last_op_empty_block _ _ Hlb' He) in Hfind'. by simplify_eq.
Qed.

(** The theorem applied to [int f(void) { { { expr; } } }]. *)
Lemma terminator_synthesis_stable_witness :
  let blocks' :=
    [Block [] [Examples.scope [Block [] [Examples.scope
       [Block [] [Examples.hl_expr; Operation hl_UnreachableOp []]]]]]] in
  (exists ip last_op t,
     find_last_op Examples.nested_trailing_scopes = Some (ip, last_op)
     /\ find_last_op blocks' = Some (ip, Some t)
     /\ is_terminator t = true)
  /\ emit_function_body_tail Examples.int_f Examples.int_fty blocks'
     = Some blocks'.
Proof.
  apply (terminator_synthesis_stable Examples.int_f Examples.int_fty
           Examples.nested_trailing_scopes); [done|reflexivity|reflexivity].
Defined.

(** ** Definitions without a body *)

(** X3. A definition that has no body (a deleted or defaulted function)
    still gets an entry block with one argument for each input of the
    function type; the block holds the operations of
    [emit_function_terminator] and nothing else, no parameter is bound, no
    collaborator is called and no other operation is touched. *)
Theorem bodiless_definition `{lens : visitor_lens}
    (decl : FunctionDecl) (fn : op_id) (o : op_state) (fty : function_type)
    (c : codegen_context) :
  hasBody decl = false ->
  ops c !! fn = Some o ->
  op_type o = Some (FunctionType fty) ->
  exists c',
    emit_function_body decl fn c = (Done tt, c')
    /\ ops c' !! fn
       = Some (with_blocks
                 [Block (imap (fun i t => BlockArgument i t) (getInputs fty))
                        (emit_function_terminator decl fty)] o)
    /\ (forall id, id <> fn -> ops c' !! id = ops c !! id)
    /\ tables c' = tables c
    /\ next_op c' = next_op c
    /\ diagnostics c' = diagnostics c
    /\ insertion c' = in_function fn 0.
Proof.
  intros Hbody Hop Hty. unfold emit_function_body, finish_function_body.
  rewrite Hbody.
  cbv [mbind M_bind mret M_ret get_op update_op restore_insertion_point modify].
  rewrite Hop, Hty. cbn [ops set_ops set_insertion].
  rewrite lookup_alter_eq, Hop. cbn [fmap option_fmap option_map op_blocks with_blocks].
  unfold entry_block. cbn. eexists. split; [reflexivity|]. cbn.
  split; [by rewrite !lookup_alter_eq, Hop|].
  split; [|done].
  intros id Hid. by rewrite !lookup_alter_ne.
Qed.

(** The theorem applied to a definition of [k] without a body, after its
    prototype has been created. *)
Lemma bodiless_definition_witness :
  let lens := Examples.c_lens Examples.no_representative in
  let fty := Examples.prototype_of Examples.k_definition in
  let o := new_op FuncOp "k" (Some (FunctionType fty)) in
  let c := (create o new_context).2 in
  exists c',
    emit_function_body Examples.k_deleted 0 c = (Done tt, c')
    /\ ops c' !! 0
       = Some (with_blocks
                 [Block [BlockArgument 0 "!hl.lvalue<!hl.int>"]
                        [Operation hl_UnreachableOp []]] o)
    /\ (forall id, id <> 0 -> ops c' !! id = ops c !! id)
    /\ tables c' = tables c
    /\ next_op c' = next_op c
    /\ diagnostics c' = diagnostics c
    /\ insertion c' = in_function 0 0.
Proof.
  intros lens fty o c.
  exact (bodiless_definition (lens := lens) Examples.k_deleted 0 o fty c
           eq_refl eq_refl eq_refl).
Defined.

(** ** Attributes of a declaration, again *)

Section visit_decl_attrs_algebra.

Variable visit : Attr -> Attribute.

Lemma visit_decl_attrs_loop decl_attrs op_attrs :
  Attrs.visit_decl_attrs visit decl_attrs op_attrs
  = visit_attrs visit op_attrs (exclude_attrs decl_attrs).
Proof. unfold visit_decl_attrs. by destruct decl_attrs. Qed.

Lemma elem_of_exclude_attrs a l :
  a ∈ exclude_attrs l <-> a ∈ l /\ excluded a = false.
Proof.
  unfold exclude_attrs. rewrite !list_elem_of_In, filter_In.
  by rewrite negb_true_iff.
Qed.

(** The dictionary a successful loop leaves is determined by the
    dictionary it started from and the set of attributes it visited. *)
Lemma visit_attrs_determined todo todo' attrs attrs1 attrs2 :
  (forall a, a ∈ todo <-> a ∈ todo') ->
  visit_attrs visit attrs todo = Done attrs1 ->
  visit_attrs visit attrs todo' = Done attrs2 ->
  attrs1 = attrs2.
Proof.
  intros Hsame H1 H2.
  apply visit_attrs_Done in H1 as (_ & Hset1 & Hother1 & _).
  apply visit_attrs_Done in H2 as (_ & Hset2 & Hother2 & _).
  apply map_eq. intros name.
  destruct (decide (Exists (fun a => spelling a = name) todo)) as [Hex|Hex].
  - apply Exists_exists in Hex as (a & Ha & <-).
    rewrite (Hset1 a Ha). symmetry. apply Hset2. by apply Hsame.
  - assert (forall a, a ∈ todo -> spelling a <> name) as Hno.
    { intros a Ha Heq. apply Hex. apply Exists_exists. by exists a. }
    rewrite Hother1 by done. symmetry. apply Hother2.
    intros a Ha. apply Hno. by apply Hsame.
Qed.

End visit_decl_attrs_algebra.

(** Running the loop again on its own result. *)
Lemma visit_decl_attrs_again (visit : Attr -> Attribute)
    (decl_attrs : list Attr) (op_attrs attrs' : NamedAttrList) :
  Attrs.visit_decl_attrs visit decl_attrs op_attrs = Done attrs' ->
  Attrs.visit_decl_attrs visit decl_attrs attrs' = Done attrs'.
Proof.
  rewrite !visit_decl_attrs_loop. intros H.
  pose proof (visit_attrs_Done visit _ _ _ H) as ([_ C2] & Hset & _ & _).
  destruct (visit_attrs_consistent visit (exclude_attrs decl_attrs) attrs')
    as [attrs'' H2].
  { split; [|done]. intros a prev Ha. rewrite (Hset a Ha). by intros [= <-]. }
  rewrite H2. f_equal.
  pose proof (visit_attrs_Done visit _ _ _ H2) as (_ & Hset2 & Hother2 & Hkeep2).
  apply map_eq. intros name.
  destruct (attrs' !! name) as [v|] eqn:Hv; [by apply Hkeep2|].
  rewrite Hother2; [done|].
  intros a Ha <-. by rewrite (Hset a Ha) in Hv.
Qed.

(** X4. [visit_decl_attrs] is idempotent: when it has set the attributes of
    a declaration on an operation, running it again with the same
    declaration on the resulting dictionary passes the
    conflicting-redefinition check and leaves the dictionary as it is. *)
Theorem visit_decl_attrs_idempotent (visit : Attr -> Attribute)
    (decl_attrs : list Attr) (op_attrs attrs' : NamedAttrList) :
  Attrs.visit_decl_attrs visit decl_attrs op_attrs = Done attrs' ->
  Attrs.visit_decl_attrs visit decl_attrs attrs' = Done attrs'.
Proof.
  rewrite !visit_decl_attrs_loop. intros H.
  pose proof (visit_attrs_Done visit _ _ _ H) as ([_ C2] & Hset & _ & _).
  (* the second run passes every check: each entry it meets is its own *)
  destruct (visit_attrs_consistent visit (exclude_attrs decl_attrs) attrs')
    as [attrs'' H2].
  { split; [|done]. intros a prev Ha. rewrite (Hset a Ha). by intros [= <-]. }
  rewrite H2. f_equal.
  (* and it sets nothing new *)
  pose proof (visit_attrs_Done visit _ _ _ H2) as (_ & _ & Hother2 & Hkeep2).
  apply map_eq. intros name.
  destruct (attrs' !! name) as [v|] eqn:Hv; [by apply Hkeep2|].
  rewrite Hother2; [done|].
  intros a Ha <-. by rewrite (Hset a Ha) in Hv.
Qed.

(** The theorem applied to a declaration with a [section] attribute and an
    operation without attributes. *)
Lemma visit_decl_attrs_idempotent_witness :
  Attrs.visit_decl_attrs Examples.print_args [Examples.section_attr ".data"]
    {[ "section" := ".data" ]}
  = Done {[ "section" := ".data" ]}.
Proof.
  apply (visit_decl_attrs_idempotent Examples.print_args
           [Examples.section_attr ".data"] ∅).
  reflexivity.
Defined.

(** X5. The outcome of [visit_decl_attrs] depends on the set of attributes
    of the declaration only: two attribute lists with the same elements, in
    any order and with any repetitions, pass or fail the check together and
    leave the same dictionary when they pass. *)
Theorem visit_decl_attrs_order_irrelevant (visit : Attr -> Attribute)
    (decl_attrs decl_attrs' : list Attr) (op_attrs attrs' : NamedAttrList) :
  (forall a, a ∈ decl_attrs <-> a ∈ decl_attrs') ->
  Attrs.visit_decl_attrs visit decl_attrs op_attrs = Done attrs' ->
  Attrs.visit_decl_attrs visit decl_attrs' op_attrs = Done attrs'.
Proof.
  rewrite !visit_decl_attrs_loop. intros Hsame H.
  assert (Hsame' : forall a,
             a ∈ exclude_attrs decl_attrs <-> a ∈ exclude_attrs decl_attrs').
  { intros a. rewrite !elem_of_exclude_attrs. by rewrite Hsame. }
  pose proof (visit_attrs_Done visit _ _ _ H) as ([C1 C2] & _).
  destruct (visit_attrs_consistent visit (exclude_attrs decl_attrs') op_attrs)
    as [attrs'' H2].
  { split.
    - intros a prev Ha. apply C1. by apply Hsame'.
    - intros a b Ha Hb. apply C2; by apply Hsame'. }
  rewrite H2. f_equal. symmetry.
  by apply (visit_attrs_determined visit _ _ op_attrs attrs' attrs'' Hsame').
Qed.

(** The theorem applied to two attributes written in either order. *)
Lemma visit_decl_attrs_order_irrelevant_witness :
  Attrs.visit_decl_attrs Examples.print_args
    [Examples.aligned_attr "16"; Examples.section_attr ".data"] ∅
  = Done {[ "section" := ".data"; "aligned" := "16" ]}.
Proof.
  apply (visit_decl_attrs_order_irrelevant Examples.print_args
           [Examples.section_attr ".data"; Examples.aligned_attr "16"]
           [Examples.aligned_attr "16"; Examples.section_attr ".data"] ∅).
  - intros a. rewrite !elem_of_cons. tauto.
  - reflexivity.
Defined.

(** X6. Weak, selectany and CUDA-global attributes are inert: an attribute
    of one of the excluded kinds, anywhere among the attributes of a
    declaration, is neither set on the operation nor checked, so the
    outcome is that of the declaration without it; a declaration that has
    only such attributes leaves the operation as it is. *)
Theorem excluded_attrs_inert (visit : Attr -> Attribute)
    (before after : list Attr) (a : Attr) (op_attrs : NamedAttrList) :
  excluded a = true ->
  Attrs.visit_decl_attrs visit (before ++ a :: after) op_attrs
  = Attrs.visit_decl_attrs visit (before ++ after) op_attrs
  /\ ((forall b, b ∈ before ++ after -> excluded b = true) ->
      Attrs.visit_decl_attrs visit (before ++ a :: after) op_attrs = Done op_attrs).
Proof.
  intros Ha. rewrite !visit_decl_attrs_loop. unfold exclude_attrs.
  rewrite !List.filter_app. cbn [List.filter]. rewrite Ha. cbn [negb].
  split; [done|]. intros Hall.
  rewrite <- List.filter_app.
  replace (List.filter (fun a0 => negb (excluded a0)) (before ++ after))
    with (@nil Attr); [done|].
  symmetry. induction (before ++ after) as [|b l IH]; [done|].
  cbn [List.filter]. rewrite (Hall b) by (by left). cbn [negb].
  apply IH. intros b' Hb'. apply Hall. by right.
Qed.

(** The theorem applied to [__attribute__((weak, section(".data")))]. *)
Lemma excluded_attrs_inert_witness :
  Attrs.visit_decl_attrs Examples.print_args
    [Examples.weak_attr; Examples.section_attr ".data"] ∅
  = Attrs.visit_decl_attrs Examples.print_args [Examples.section_attr ".data"] ∅
  /\ ((forall b, b ∈ [Examples.section_attr ".data"] -> excluded b = true) ->
      Attrs.visit_decl_attrs Examples.print_args
        [Examples.weak_attr; Examples.section_attr ".data"] ∅
      = Done ∅).
Proof.
  apply (excluded_attrs_inert Examples.print_args []
           [Examples.section_attr ".data"] Examples.weak_attr ∅).
  reflexivity.
Defined.

(** ** The order of a pipeline *)

Section pipeline_order.

Lemma add_nested_snoc ppl passes p :
  addNestedPasses (passes ++ [p]) ppl
  = addNestedPass p.1 p.2 (addNestedPasses passes ppl).
Proof. unfold addNestedPasses. by rewrite foldl_app. Qed.

Lemma add_nested_seen passes :
  seen (addNestedPasses passes new_pipeline)
  = list_to_set ((getTypeID ∘ snd) <$> passes).
Proof.
  induction passes as [|p passes IH] using rev_ind; [done|].
  rewrite add_nested_snoc, fmap_app, list_to_set_app_L.
  set (ppl := addNestedPasses passes new_pipeline) in *.
  unfold addNestedPass. case_bool_decide as Hin.
  - rewrite IH in *. apply elem_of_list_to_set in Hin.
    apply set_eq. intros id. rewrite elem_of_union, !elem_of_list_to_set.
    rewrite list_fmap_singleton, list_elem_of_singleton.
    split; [tauto|]. intros [?| ->]; done.
  - cbn [seen base_addNestedPass seen_insert]. rewrite IH.
    apply set_eq. intros id.
    rewrite !elem_of_union, elem_of_singleton, !elem_of_list_to_set.
    rewrite list_fmap_singleton, list_elem_of_singleton. cbn. tauto.
Qed.

Lemma add_nested_ids passes :
  scheduled_ids (addNestedPasses passes new_pipeline)
  = reverse (remove_dups (reverse ((getTypeID ∘ snd) <$> passes))).
Proof.
  induction passes as [|p passes IH] using rev_ind; [done|].
  rewrite add_nested_snoc, fmap_app, reverse_app. cbn [fmap list_fmap reverse app].
  change (reverse [(getTypeID ∘ snd) p]) with [getTypeID p.2].
  cbn [app remove_dups].
  pose proof (add_nested_seen passes) as Hseen.
  set (ppl := addNestedPasses passes new_pipeline) in *.
  unfold addNestedPass. case_bool_decide as Hin; rewrite Hseen in Hin.
  - destruct (decide_rel elem_of _ _) as [Hd|Hd]; [done|].
    exfalso. apply Hd, elem_of_reverse. by apply elem_of_list_to_set in Hin.
  - destruct (decide_rel elem_of _ _) as [Hd|Hd].
    + exfalso. apply Hin. apply elem_of_list_to_set.
      by apply elem_of_reverse.
    + rewrite reverse_cons, <- IH. unfold base_addNestedPass, seen_insert.
      by rewrite scheduled_ids_snoc.
Qed.

Lemma add_nested_first passes parent pass :
  nested parent pass ∈ base (addNestedPasses passes new_pipeline)
  <-> exists i,
        passes !! i = Some (parent, pass)
        /\ forall j q, j < i -> passes !! j = Some q ->
             getTypeID q.2 <> getTypeID pass.
Proof.
  induction passes as [|p passes IH] using rev_ind.
  { split; [by intros ?%elem_of_nil|by intros (i & ? & _)]. }
  rewrite add_nested_snoc.
  pose proof (add_nested_seen passes) as Hseen.
  set (ppl := addNestedPasses passes new_pipeline) in *.
  assert (Hfresh : getTypeID p.2 ∉ seen ppl
                   <-> forall j q, passes !! j = Some q ->
                         getTypeID q.2 <> getTypeID p.2).
  { rewrite Hseen, elem_of_list_to_set, list_elem_of_fmap. split.
    - intros Hno j q Hq Heq. apply Hno. exists q. split; [done|].
      by apply list_elem_of_lookup_2 in Hq.
    - intros Hno (q & Heq & Hq). apply list_elem_of_lookup_1 in Hq as [j Hj].
      by apply (Hno j q). }
  assert (Hold : nested parent pass ∈ base ppl
                 -> exists i,
                      (passes ++ [p]) !! i = Some (parent, pass)
                      /\ forall j q, j < i -> (passes ++ [p]) !! j = Some q ->
                           getTypeID q.2 <> getTypeID pass).
  { intros (i & Hi & Hfirst)%IH. exists i.
    pose proof (lookup_lt_Some _ _ _ Hi) as Hlt.
    split; [by rewrite lookup_app_l|].
    intros j q Hj. rewrite lookup_app_l by lia. by apply Hfirst. }
  split.
  - unfold addNestedPass. case_bool_decide as Hin; [done|].
    cbn. rewrite elem_of_app, list_elem_of_singleton.
    intros [Hbase|Heq]; [by apply Hold|].
    injection Heq as -> ->. exists (length passes). split.
    + rewrite lookup_app_r by lia. rewrite Nat.sub_diag. by destruct p.
    + intros j q Hj. rewrite lookup_app_l by lia. by apply Hfresh.
  - intros (i & Hi & Hfirst).
    destruct (decide (i < length passes)) as [Hlt|Hge].
    + rewrite lookup_app_l in Hi by done.
      assert (nested parent pass ∈ base ppl) as Hb.
      { apply IH. exists i. split; [done|].
        intros j q Hj Hq. apply (Hfirst j q Hj). rewrite lookup_app_l; [done|lia]. }
      unfold addNestedPass. case_bool_decide; [done|].
      cbn. apply elem_of_app. by left.
    + pose proof (lookup_lt_Some _ _ _ Hi) as Hlen.
      rewrite length_app in Hlen. cbn in Hlen.
      assert (i = length passes) as -> by lia.
      rewrite lookup_app_r in Hi by lia. rewrite Nat.sub_diag in Hi.
      injection Hi as ->. cbn [fst snd].
      unfold addNestedPass. rewrite bool_decide_eq_false_2.
      * cbn. apply elem_of_app. right. by apply list_elem_of_singleton.
      * apply Hfresh. intros j q Hq. apply (Hfirst j q).
        -- by apply lookup_lt_Some in Hq.
        -- rewrite lookup_app_l; [done|]. by apply lookup_lt_Some in Hq.
Qed.

End pipeline_order.

(** X7. First registration wins, in order. When passes are added to a
    fresh pipeline with [addNestedPass], the pass manager runs exactly one
    pass of each type that was added, in the order in which the types were
    first added; the pass that runs for a type is the first one added of
    that type, under the parent it was added with; and [seen] holds exactly
    the types that were added. *)
Theorem pipeline_first_registration_wins (passes : list (string * Pass)) :
  let ppl := addNestedPasses passes new_pipeline in
  scheduled_ids ppl
  = reverse (remove_dups (reverse ((getTypeID ∘ snd) <$> passes)))
  /\ seen ppl = list_to_set ((getTypeID ∘ snd) <$> passes)
  /\ (forall s, s ∈ base ppl -> exists parent pass, s = nested parent pass)
  /\ (forall parent pass,
        nested parent pass ∈ base ppl
        <-> exists i,
              passes !! i = Some (parent, pass)
              /\ forall j q, j < i -> passes !! j = Some q ->
                   getTypeID q.2 <> getTypeID pass).
Proof.
  intros ppl. split; [apply add_nested_ids|]. split; [apply add_nested_seen|].
  split; [|apply add_nested_first].
  unfold ppl. clear ppl.
  induction passes as [|p passes IH] using rev_ind.
  { by intros s ?%elem_of_nil. }
  rewrite add_nested_snoc.
  set (ppl := addNestedPasses passes new_pipeline) in *.
  unfold addNestedPass. case_bool_decide; [done|].
  cbn. intros s [Hs| ->%list_elem_of_singleton]%elem_of_app; [by apply IH|].
  by eexists _, _.
Qed.

(** ** Scopes of a function *)

Section function_scopes.
Context `{lens : visitor_lens}.

Lemma preserves_for_each {A X} (proj : codegen_context -> X) (l : list A) f :
  (forall x, preserves proj (f x)) -> preserves proj (for_each l f).
Proof.
  intros Hf. induction l as [|x l IH]; [apply keeps_preserves, keeps_ret|].
  cbn [for_each]. apply preserves_bind; [done|]. by intros _.
Qed.

Lemma keeps_enclosing {A} T (m : M A) :
  keeps (table T) m -> keeps (enclosing_scopes T) m.
Proof. intros H c. unfold enclosing_scopes. by rewrite H. Qed.

(** [declare] binds in the current scope. *)
Lemma keeps_enclosing_declare T T' key builder :
  keeps (enclosing_scopes T) builder ->
  keeps (enclosing_scopes T) (declare T' key builder).
Proof.
  intros Hb. unfold declare. apply keeps_bind; [apply keeps_lookup|].
  intros [v|]; [apply keeps_ret|].
  apply keeps_bind; [done|]. intros v.
  apply keeps_bind; [|intros; apply keeps_ret].
  apply keeps_modify. intros c. unfold enclosing_scopes.
  destruct (decide (T' = T)) as [->|Hne].
  - by rewrite table_set_tables.
  - by rewrite table_set_tables_ne.
Qed.

Lemma keeps_enclosing_declare_function_params T params args :
  keeps (enclosing_scopes T) (declare_function_params params args).
Proof.
  apply keeps_for_each. intros [arg earg].
  apply keeps_bind; [|intros; apply keeps_ret].
  apply keeps_enclosing_declare, keeps_ret.
Qed.

(** A scope that is entered and left: the table is as before, whatever was
    bound in between. *)
Lemma pop_push_scope t t' :
  enclosing t' = innermost t :: enclosing t -> pop_scope t' = t.
Proof. intros H. unfold pop_scope. rewrite H. by destruct t. Qed.

Lemma scope_entered_and_left {A} T (m : M A) c a c' :
  preserves (enclosing_scopes T) m ->
  (enter_scope T;; m) c = (Done a, c') ->
  table T (leave_scope T c').2 = table T c.
Proof.
  intros Hm H. apply bind_inv in H as ([] & c1 & H1 & H2).
  injection H1 as <-. apply Hm in H2.
  cbn. rewrite table_set_tables. apply pop_push_scope.
  unfold enclosing_scopes in H2. rewrite H2.
  by rewrite table_set_tables.
Qed.

Section collaborators.

Hypothesis visit_decl_vars : forall d, preserves (enclosing_scopes vars) (visit_decl d).
Hypothesis visit_stmt_vars : forall s, preserves (enclosing_scopes vars) (visit_stmt s).
Hypothesis visit_decl_labels :
  forall d, preserves (enclosing_scopes labels) (visit_decl d).
Hypothesis visit_stmt_labels :
  forall s, preserves (enclosing_scopes labels) (visit_stmt s).

Lemma visit_labels_and_body_preserves T decl :
  (forall d, preserves (enclosing_scopes T) (visit_decl d)) ->
  (forall s, preserves (enclosing_scopes T) (visit_stmt s)) ->
  preserves (enclosing_scopes T)
    (for_each (fn_labels decl) (fun label => visit_decl (label_id label);; mret tt);;
     visit_stmt (fn_getBody decl)).
Proof.
  intros Hd Hs. apply preserves_bind; [|by intros _].
  apply preserves_for_each. intros l.
  apply preserves_bind; [done|]. intros; apply keeps_preserves, keeps_ret.
Qed.

Lemma emit_labels_and_body_vars decl :
  preserves (enclosing_scopes vars) (emit_labels_and_body decl).
Proof.
  unfold emit_labels_and_body.
  apply preserves_bind.
  { by apply keeps_preserves, keeps_enclosing, keeps_table_enter_scope. }
  intros _. apply preserves_bind.
  { apply preserves_for_each. intros l.
    apply preserves_bind; [done|]. intros; apply keeps_preserves, keeps_ret. }
  intros _. apply preserves_bind; [done|]. intros _.
  by apply keeps_preserves, keeps_enclosing, keeps_table_leave_scope.
Qed.

Lemma emit_labels_and_body_labels decl :
  preserves (table labels) (emit_labels_and_body decl).
Proof.
  intros c a c' H. unfold emit_labels_and_body in H.
  assert (H' : ((enter_scope labels;;
                 (for_each (fn_labels decl)
                    (fun label => visit_decl (label_id label);; mret tt);;
                  visit_stmt (fn_getBody decl)));;
                leave_scope labels) c = (Done a, c')).
  { revert H. cbv [mbind M_bind].
    destruct (enter_scope labels c) as [[[]|msg] c1]; [|done].
    destruct (for_each _ _ c1) as [[[]|msg] c2]; [|done].
    by destruct (visit_stmt _ c2) as [[[]|msg] c3]. }
  apply bind_inv in H' as ([] & c1 & H1 & H2).
  pose proof (scope_entered_and_left labels _ c tt c1
                (visit_labels_and_body_preserves labels decl
                   visit_decl_labels visit_stmt_labels) H1) as Hrestored.
  unfold leave_scope, modify in H2, Hrestored. injection H2 as _ <-.
  exact Hrestored.
Qed.

Lemma emit_function_body_scopes decl fn :
  preserves (enclosing_scopes vars) (emit_function_body decl fn)
  /\ preserves (table labels) (emit_function_body decl fn).
Proof.
  unfold emit_function_body. split.
  - apply preserves_bind; [apply keeps_preserves, keeps_get_op|]. intros o.
    apply preserves_bind.
    { apply keeps_preserves.
      destruct (op_type o) as [[]|]; first [apply keeps_ret|apply keeps_fatal]. }
    intros fty.
    apply preserves_bind;
      [apply keeps_preserves, keeps_enclosing, keeps_table_update_op|].
    intros _.
    apply preserves_bind;
      [apply keeps_preserves, keeps_enclosing, keeps_table_restore|].
    intros _. apply preserves_bind.
    + destruct (hasBody decl); [|apply keeps_preserves, keeps_ret].
      apply preserves_bind;
        [apply keeps_preserves, keeps_enclosing_declare_function_params|].
      intros _. apply emit_labels_and_body_vars.
    + intros _.
      apply keeps_preserves, keeps_enclosing, keeps_table_finish_function_body.
  - apply preserves_bind; [apply keeps_preserves, keeps_get_op|]. intros o.
    apply preserves_bind.
    { apply keeps_preserves.
      destruct (op_type o) as [[]|]; first [apply keeps_ret|apply keeps_fatal]. }
    intros fty.
    apply preserves_bind; [apply keeps_preserves, keeps_table_update_op|].
    intros _.
    apply preserves_bind; [apply keeps_preserves, keeps_table_restore|].
    intros _. apply preserves_bind.
    + destruct (hasBody decl); [|apply keeps_preserves, keeps_ret].
      apply preserves_bind;
        [by apply keeps_preserves, keeps_table_declare_function_params|].
      intros _. apply emit_labels_and_body_labels.
    + intros _. apply keeps_preserves, keeps_table_finish_function_body.
Qed.

End collaborators.

End function_scopes.

(** X8. A function is lowered in scopes of its own. When
    [VisitFunctionLikeDecl] returns, the table of variables and the table
    of labels are as they were before the visit -- the parameters, and
    whatever the body bound in the scopes opened for the function, are no
    longer visible -- and the builder's insertion point is back where it
    was. The collaborators are assumed to leave the enclosing scopes of the
    two tables alone when they return. *)
Theorem function_visit_scope_neutral `{lens : visitor_lens}
    (structor : structor_type) (decl : FunctionDecl)
    (c c' : codegen_context) (r : option op_id) :
  (forall d, preserves (enclosing_scopes vars) (visit_decl d)) ->
  (forall s, preserves (enclosing_scopes vars) (visit_stmt s)) ->
  (forall d, preserves (enclosing_scopes labels) (visit_decl d)) ->
  (forall s, preserves (enclosing_scopes labels) (visit_stmt s)) ->
  VisitFunctionLikeDecl structor decl c = (Done r, c') ->
  table vars c' = table vars c
  /\ table labels c' = table labels c
  /\ insertion c' = insertion c.
Proof.
  intros Hdv Hsv Hdl Hsl. unfold VisitFunctionLikeDecl.
  set (mangled := get_mangled_name (get_gdecl structor decl)).
  set (linkage := get_function_linkage _).
  intros H.
  apply bind_inv in H as (fn0 & c0 & H0 & H).
  apply bind_inv in H as (guard & c1 & H1 & H).
  assert (c0 = c) as ->.
  { revert H0. unfold lookup_function, lookup_op, lookup.
    cbv [mbind M_bind mret M_ret]. by intros [= _ <-]. }
  injection H1 as <- <-.
  (* everything between entering and leaving the scope of the variables *)
  set (inside :=
         fn ← match fn0 with
              | Some fn => mret (Some fn)
              | None =>
                  declare_op funcdecls (inr mangled)
                    (ret ← create (with_linkage (Some linkage)
                                     (new_op FuncOp mangled
                                        (Some (visit_function_type decl))));
                     update_op ret (with_visibility (Some Private));;
                     mret ret)
              end;
         match fn with
         | None => fatal "null function"
         | Some fn =>
             (if negb (isThisDeclarationADefinition decl) then mret tt
              else
                update_op fn (with_visibility
                                (Some (get_visibility_from_linkage linkage)));;
                o ← get_op fn;
                if isDeclaration o then emit_function_body decl fn else mret tt);;
             mret fn
         end).
  assert (Hbuilder : forall T, T <> funcdecls ->
            keeps (table T)
              (declare_op funcdecls (inr mangled)
                 (ret ← create (with_linkage (Some linkage)
                                  (new_op FuncOp mangled
                                     (Some (visit_function_type decl))));
                  update_op ret (with_visibility (Some Private));;
                  mret ret))).
  { intros T HT. unfold declare_op.
    apply keeps_bind; [|intros; apply keeps_ret].
    apply keeps_table_declare; [done|].
    apply keeps_bind; [|intros; apply keeps_ret].
    apply keeps_bind; [apply keeps_table_create|]. intros ret.
    apply keeps_bind; [apply keeps_table_update_op|]. intros; apply keeps_ret. }
  assert (Hinside_vars : preserves (enclosing_scopes vars) inside).
  { unfold inside. apply preserves_bind.
    { destruct fn0; [apply keeps_preserves, keeps_ret|].
      by apply keeps_preserves, keeps_enclosing, Hbuilder. }
    intros [fn|]; [|apply keeps_preserves, keeps_fatal].
    apply preserves_bind; [|intros; apply keeps_preserves, keeps_ret].
    destruct (isThisDeclarationADefinition decl); [|apply keeps_preserves, keeps_ret].
    apply preserves_bind;
      [apply keeps_preserves, keeps_enclosing, keeps_table_update_op|].
    intros _. apply preserves_bind; [apply keeps_preserves, keeps_get_op|].
    intros o. destruct (isDeclaration o); [|apply keeps_preserves, keeps_ret].
    by apply (emit_function_body_scopes Hdv Hsv Hdl Hsl). }
  assert (Hinside_labels : preserves (table labels) inside).
  { unfold inside. apply preserves_bind.
    { destruct fn0; [apply keeps_preserves, keeps_ret|].
      by apply keeps_preserves, Hbuilder. }
    intros [fn|]; [|apply keeps_preserves, keeps_fatal].
    apply preserves_bind; [|intros; apply keeps_preserves, keeps_ret].
    destruct (isThisDeclarationADefinition decl); [|apply keeps_preserves, keeps_ret].
    apply preserves_bind; [apply keeps_preserves, keeps_table_update_op|].
    intros _. apply preserves_bind; [apply keeps_preserves, keeps_get_op|].
    intros o. destruct (isDeclaration o); [|apply keeps_preserves, keeps_ret].
    by apply (emit_function_body_scopes Hdv Hsv Hdl Hsl). }
  assert (Hshape : exists fn c4,
             (enter_scope vars;; inside) c = (Done fn, c4)
             /\ c' = set_insertion (insertion c) (leave_scope vars c4).2).
  { apply bind_inv in H as ([] & c2 & H2 & H).
    apply bind_inv in H as (fn1 & c3 & H3 & H).
    destruct fn1 as [fn|]; [|done].
    apply bind_inv in H as ([] & c4 & H4 & H).
    apply bind_inv in H as ([] & c5 & H5 & H).
    apply bind_inv in H as ([] & c6 & H6 & H).
    injection H as _ <-. injection H6 as <-.
    exists fn, c4. split; [|by rewrite H5].
    unfold inside. erewrite bind_Done; [|exact H2].
    erewrite bind_Done; [|exact H3]. cbv beta iota.
    erewrite bind_Done; [|exact H4]. done. }
  destruct Hshape as (fn & c4 & Hrun & ->).
  split; [|split; [|done]].
  - rewrite table_set_insertion.
    by apply (scope_entered_and_left vars inside c fn c4).
  - rewrite table_set_insertion.
    apply bind_inv in Hrun as ([] & c2 & H2 & Hrun).
    injection H2 as <-. apply Hinside_labels in Hrun.
    cbn [leave_scope modify snd].
    rewrite table_set_tables_ne by done. rewrite Hrun.
    by rewrite table_set_tables_ne.
Qed.

(** The theorem applied to [int k(int a) { }]: [a] is not bound after the
    visit. *)
Lemma function_visit_scope_neutral_witness :
  let lens := Examples.c_lens Examples.no_representative in
  let c' := (VisitFunctionDecl Examples.k_definition new_context).2 in
  table vars c' = table vars new_context
  /\ table labels c' = table labels new_context
  /\ insertion c' = insertion new_context.
Proof.
  intros lens c'.
  assert (Hrun : VisitFunctionLikeDecl NoStructor Examples.k_definition
                   new_context = (Done (Some 0), c'))
    by (vm_compute; reflexivity).
  exact (function_visit_scope_neutral (lens := lens) NoStructor
           Examples.k_definition new_context c' (Some 0)
           (fun d => keeps_preserves (enclosing_scopes vars) (visit_decl d)
                       (fun c => eq_refl))
           (fun s => keeps_preserves (enclosing_scopes vars) (visit_stmt s)
                       (fun c => eq_refl))
           (fun d => keeps_preserves (enclosing_scopes labels) (visit_decl d)
                       (fun c => eq_refl))
           (fun s => keeps_preserves (enclosing_scopes labels) (visit_stmt s)
                       (fun c => eq_refl))
           Hrun).
Defined.

(** ** Parameters that are bound *)

(** Binding the parameters changes the symbol tables and nothing else. *)
Lemma keeps_tables_only_declare_function_params `{lens : visitor_lens} {X}
    (proj : codegen_context -> X) params args :
  (forall f c, proj (set_tables f c) = proj c) ->
  keeps proj (declare_function_params params args).
Proof.
  intros Hproj. apply keeps_for_each. intros [arg earg].
  apply keeps_bind; [|intros; apply keeps_ret].
  unfold declare. apply keeps_bind; [apply keeps_lookup|].
  intros [v|]; [apply keeps_ret|].
  apply keeps_bind; [apply keeps_ret|]. intros v.
  apply keeps_bind; [|intros; apply keeps_ret].
  apply keeps_modify. intros c. apply Hproj.
Qed.

(** X9. A parameter that [declare_function_params] has bound is found by
    [VisitParmVarDecl]: for a function type with an input for each
    parameter, visiting any of the parameters afterwards reports no error
    and leaves the context as it is. The answer is null all the same,
    because the binding is an argument of the entry block, which has no
    defining operation. *)
Theorem bound_parameter_is_found `{lens : visitor_lens}
    (decl : FunctionDecl) (fty : function_type) (c c' : codegen_context) :
  NoDup (parm_id <$> parameters decl) ->
  (forall p, p ∈ parameters decl ->
     table_lookup (inl (parm_id p)) (table vars c) = None) ->
  length (parameters decl) <= length (getInputs fty) ->
  declare_function_params (parameters decl) (getArguments (entry_block fty)) c
  = (Done tt, c') ->
  diagnostics c' = diagnostics c
  /\ forall p, p ∈ parameters decl ->
       VisitParmVarDecl p c' = (Done None, c').
Proof.
  intros Hnd Hfree Hlen Hrun.
  destruct (declare_function_params_spec (parameters decl)
              (getArguments (entry_block fty)) c Hnd Hfree)
    as (c'' & Hrun' & _ & _ & Hbound & _).
  rewrite Hrun in Hrun'. injection Hrun' as <-.
  split.
  - rewrite <- (keeps_tables_only_declare_function_params diagnostics
                  (parameters decl) (getArguments (entry_block fty))
                  ltac:(done) c).
    by rewrite Hrun.
  - intros p [i Hi]%list_elem_of_lookup_1.
    destruct (entry_block_arguments fty) as [_ Hargs].
    destruct (lookup_lt_is_Some_2 (getInputs fty) i) as [t Ht].
    { apply lookup_lt_Some in Hi. lia. }
    unfold VisitParmVarDecl, lookup. cbv [mbind M_bind mret M_ret].
    by rewrite (Hbound i p Hi), (Hargs i t Ht).
Qed.

(** The theorem applied to the parameter [a] of [int k(int a) { }]. *)
Lemma bound_parameter_is_found_witness :
  let lens := Examples.c_lens Examples.no_representative in
  let fty := Examples.prototype_of Examples.k_definition in
  let c' := (declare_function_params (parameters Examples.k_definition)
               (getArguments (entry_block fty)) new_context).2 in
  diagnostics c' = diagnostics new_context
  /\ forall p, p ∈ parameters Examples.k_definition ->
       VisitParmVarDecl p c' = (Done None, c').
Proof.
  intros lens fty c'.
  apply (bound_parameter_is_found (lens := lens) Examples.k_definition fty
           new_context c').
  - vm_compute. apply NoDup_singleton.
  - intros p Hp. reflexivity.
  - vm_compute. lia.
  - reflexivity.
Defined.

(** ** The global resolver *)

Section resolver_steps.
Context `{lens : visitor_lens}.

Lemma VAST_UNIMPLEMENTED_IF_inv cond c u c' :
  VAST_UNIMPLEMENTED_IF cond c = (Done u, c') -> cond = false /\ c' = c.
Proof. destruct cond; [done|]. by intros [= _ <-]. Qed.

Lemma VAST_CHECK_inv cond msg c u c' :
  VAST_CHECK cond msg c = (Done u, c') -> cond = true /\ c' = c.
Proof. destruct cond; [|done]. by intros [= _ <-]. Qed.

Lemma get_op_inv id c o c' :
  get_op id c = (Done o, c') -> ops c !! id = Some o /\ c' = c.
Proof. unfold get_op. destruct (ops c !! id); [|done]. by intros [= <- <-]. Qed.

End resolver_steps.

Section resolver_facts.
Context `{lens : visitor_lens}.

Lemma decl_guards_inv (decl : option FunctionDecl) c c' :
  match decl with
  | Some fn =>
      VAST_UNIMPLEMENTED_IF (OpenMPIsTargetDevice acontext);;
      VAST_UNIMPLEMENTED_IF (isMultiVersion fn)
  | None => mret tt
  end c = (Done tt, c') ->
  c' = c
  /\ forall d, decl = Some d ->
       OpenMPIsTargetDevice acontext = false /\ isMultiVersion d = false.
Proof.
  destruct decl as [d|].
  - intros H. apply bind_inv in H as ([] & c1 & H1 & H2).
    apply VAST_UNIMPLEMENTED_IF_inv in H1 as [Homp ->].
    apply VAST_UNIMPLEMENTED_IF_inv in H2 as [Hmv ->].
    split; [done|]. by intros ? [= <-].
  - intros [= <-]. by split.
Qed.

(** Reporting a conflicting definition touches the diagnostics and the
    set of diagnosed declarations only. *)
Lemma keeps_report_conflict {X} (proj : codegen_context -> X)
    name glob (decl : option FunctionDecl) (cond : bool) :
  (forall s c, proj (set_diagnosed s c) = proj c) ->
  (forall d c, proj (add_diagnostic d c) = proj c) ->
  keeps proj
    (if cond
     then
       match lookup_representative_decl name, decl with
       | Some other, Some d =>
           fresh ← record_conflicting_definition glob;
           if fresh : bool
           then
             Report (err_duplicate_mangled_name (fn_loc d) name);;
             Report (note_previous_definition
                       (from_option fn_loc 0 (getDecl other)))
           else mret tt
       | _, _ => mret tt
       end
     else mret tt).
Proof.
  intros Hs Hd. destruct cond; [|apply keeps_ret].
  destruct (lookup_representative_decl name) as [other|]; [|apply keeps_ret].
  destruct decl as [d|]; [|apply keeps_ret].
  apply keeps_bind.
  { intros c. unfold record_conflicting_definition. case_bool_decide; [done|].
    apply Hs. }
  intros [|]; [|apply keeps_ret].
  apply keeps_bind; [by apply keeps_modify|]. intros _. by apply keeps_modify.
Qed.

(** Promoting a deferred declaration touches the ledger only. *)
Lemma keeps_promote {X} (proj : codegen_context -> X)
    name glob (function_decl : FunctionDecl) (cond : bool) :
  (forall p e m c, proj (set_deferred p e m c) = proj c) ->
  keeps proj
    (if cond
     then
       VAST_UNIMPLEMENTED_IF (isa_CXXDestructorDecl function_decl);;
       c ← get_context;
       match deferred_decls c !! name with
       | Some ddi => add_deferred_decl_to_emit ddi;; erase_deferred name
       | None =>
           if CPlusPlus acontext
           then queue_record_member glob
                  (redecls_from_most_recent acontext function_decl)
           else mret tt
       end
     else mret tt).
Proof.
  intros Hp. destruct cond; [|apply keeps_ret].
  apply keeps_bind.
  { unfold VAST_UNIMPLEMENTED_IF.
    destruct (isa_CXXDestructorDecl _); [apply keeps_fatal|apply keeps_ret]. }
  intros _. apply keeps_bind; [by intros c|]. intros c0.
  destruct (deferred_decls c0 !! name) as [ddi|].
  { apply keeps_bind; [by apply keeps_modify|]. intros _. by apply keeps_modify. }
  destruct (CPlusPlus acontext); [|apply keeps_ret].
  intros c. rewrite queue_record_member_find.
  destruct (List.find _ _) as [r|]; [|done].
  destruct (is_defaulted_method r); apply Hp.
Qed.

(** A request for a name that has an entity. *)
Lemma get_or_create_existing name type glob emit c entry fn c' :
  symbol_table c !! name = Some entry ->
  get_or_create_vast_function name type glob emit c = (Done fn, c') ->
  fn = entry
  /\ module_view c' = module_view c
  /\ tables c' = tables c
  /\ ledger c' = ledger c
  /\ exists o,
       ops c !! entry = Some o /\ op_kind_of o = FuncOp
       /\ op_type o = Some type.
Proof.
  intros Hsym H. unfold get_or_create_vast_function in H.
  apply bind_inv in H as ([] & c1 & H1 & H).
  apply VAST_UNIMPLEMENTED_IF_inv in H1 as [_ ->].
  apply bind_inv in H as ([] & c1 & H1 & H).
  apply VAST_UNIMPLEMENTED_IF_inv in H1 as [_ ->].
  apply bind_inv in H as ([] & c1 & H1 & H).
  apply decl_guards_inv in H1 as [-> _].
  apply bind_inv in H as (found & c1 & H1 & H).
  unfold get_global_value in H1. rewrite Hsym in H1. injection H1 as <- <-.
  apply bind_inv in H as (o & c1 & H1 & H).
  apply get_op_inv in H1 as [Ho ->].
  apply bind_inv in H as ([] & c1 & H1 & H).
  apply VAST_UNIMPLEMENTED_IF_inv in H1 as [Hkind ->].
  apply bind_inv in H as (erased & c1 & H1 & H).
  apply bind_inv in H as ([] & c2 & H2 & H).
  apply VAST_UNIMPLEMENTED_IF_inv in H2 as [-> ->].
  assert (c1 = c) as ->.
  { revert H1. unfold erase_weak_ref.
    destruct (bool_decide (entry ∈ weak_ref_references c)); by intros [=]. }
  apply bind_inv in H as ([] & c2 & H2 & H).
  case_bool_decide as Hty; [|done]. injection H as <- <-.
  pose proof (keeps_report_conflict
                (fun c => (module_view c, tables c, ledger c)) name glob
                (getDecl glob)
                (is_for_definition emit && negb (isDeclaration o))
                ltac:(done) ltac:(done) c) as Hkeep.
  rewrite H2 in Hkeep. cbn [snd] in Hkeep.
  injection Hkeep as Hview Htables Hledger.
  split; [done|]. split; [unfold module_view; congruence|].
  split; [done|]. split; [unfold ledger; congruence|].
  exists o. split; [done|]. split; [|done].
  apply negb_false_iff in Hkind. by apply bool_decide_eq_true in Hkind.
Qed.

(** A request for a name that has no entity yet. *)
Lemma get_or_create_fresh name type glob emit c fn c' :
  symbol_table c !! name = None ->
  get_or_create_vast_function name type glob emit c = (Done fn, c') ->
  exists fty d c1 o,
    type = FunctionType fty
    /\ getDecl glob = Some d
    /\ OpenMPIsTargetDevice acontext = false
    /\ isMultiVersion d = false
    /\ create_vast_function name fty d c = (Done fn, c1)
    /\ module_view c' = module_view c1
    /\ tables c' = tables c1
    /\ module_body c' = module_body c1
    /\ ops c' !! fn = Some o
    /\ op_type o = Some type.
Proof.
  intros Hsym H. unfold get_or_create_vast_function in H.
  apply bind_inv in H as ([] & c1 & H1 & H).
  apply VAST_UNIMPLEMENTED_IF_inv in H1 as [_ ->].
  apply bind_inv in H as ([] & c1 & H1 & H).
  apply VAST_UNIMPLEMENTED_IF_inv in H1 as [_ ->].
  apply bind_inv in H as ([] & c1 & H1 & H).
  apply decl_guards_inv in H1 as [-> Hguards].
  apply bind_inv in H as (found & c1 & H1 & H).
  unfold get_global_value in H1. rewrite Hsym in H1. injection H1 as <- <-.
  apply bind_inv in H as (fty' & c1 & H1 & H).
  destruct type as [t|fty]; [done|]. injection H1 as <- <-.
  apply bind_inv in H as (d' & c1 & H1 & H).
  destruct (getDecl glob) as [d|] eqn:Hd; [|done]. injection H1 as <- <-.
  apply bind_inv in H as (fn' & c1 & Hcreate & H).
  apply bind_inv in H as ([] & c2 & H2 & H).
  apply bind_inv in H as (o & c3 & H3 & H).
  apply get_op_inv in H3 as [Ho ->].
  apply bind_inv in H as ([] & c3 & H3 & H).
  apply VAST_CHECK_inv in H3 as [Hty ->]. injection H as <- <-.
  apply bool_decide_eq_true in Hty.
  pose proof (keeps_promote (fun c => (module_view c, tables c, module_body c))
                name glob d (defer emit) ltac:(done) c1) as Hkeep.
  rewrite H2 in Hkeep. cbn [snd] in Hkeep.
  injection Hkeep as Hview Htables Hbody.
  destruct (Hguards d eq_refl) as [Homp Hmv].
  exists fty, d, c1, o.
  split; [done|]. split; [done|]. split; [done|]. split; [done|].
  split; [done|]. split; [unfold module_view; congruence|]. done.
Qed.

End resolver_facts.

(** X10. What [get_or_create_vast_function] returns is a function of the
    requested type: whenever a request returns, it was neither for a vtable
    nor for a thunk, and the entity it returns exists and has exactly the
    requested type. A name that already has an entity in the module is
    answered with that entity, which is a function, and the request
    creates, erases or changes no operation, binds no symbol and queues
    nothing. *)
Theorem resolved_function_has_requested_type `{lens : visitor_lens}
    (name : string) (type : mlir_type) (glob : GlobalDecl)
    (emit : global_emition) (c c' : codegen_context) (fn : op_id) :
  get_or_create_vast_function name type glob emit c = (Done fn, c') ->
  for_vtable emit = false
  /\ thunk emit = false
  /\ (exists o, ops c' !! fn = Some o /\ op_type o = Some type)
  /\ (forall entry, symbol_table c !! name = Some entry ->
        fn = entry
        /\ module_view c' = module_view c
        /\ tables c' = tables c
        /\ ledger c' = ledger c
        /\ exists o, ops c !! entry = Some o /\ op_kind_of o = FuncOp).
Proof.
  intros H.
  assert (Hflags : for_vtable emit = false /\ thunk emit = false).
  { unfold get_or_create_vast_function in H.
    apply bind_inv in H as ([] & c1 & H1 & H).
    apply VAST_UNIMPLEMENTED_IF_inv in H1 as [Hv ->].
    apply bind_inv in H as ([] & c1 & H1 & H).
    by apply VAST_UNIMPLEMENTED_IF_inv in H1 as [Ht ->]. }
  destruct Hflags as [Hv Ht]. split; [done|]. split; [done|].
  destruct (symbol_table c !! name) as [entry|] eqn:Hsym.
  - destruct (get_or_create_existing name type glob emit c entry fn c' Hsym H)
      as (-> & Hview & Htables & Hledger & o & Ho & Hkind & Hty).
    split.
    + exists o. split; [|done]. injection Hview as -> _ _ _. done.
    + intros ? [= <-]. split; [done|]. split; [done|]. split; [done|].
      split; [done|]. by exists o.
  - destruct (get_or_create_fresh name type glob emit c fn c' Hsym H)
      as (fty & d & c1 & o & _ & _ & _ & _ & _ & _ & _ & _ & Ho & Hty).
    split; [by exists o|]. by intros entry.
Qed.

(** The theorem applied to the first reference to [g]. *)
Lemma resolved_function_has_requested_type_witness :
  let lens := Examples.c_lens Examples.no_representative in
  let c' := (get_or_create_vast_function "g" (FunctionType Examples.int_fty)
               Examples.glob_g deferred_emit_definition Examples.pending_g).2 in
  exists o, ops c' !! 0 = Some o /\ op_type o = Some (FunctionType Examples.int_fty).
Proof.
  intros lens c'.
  assert (Hrun : get_or_create_vast_function "g" (FunctionType Examples.int_fty)
                   Examples.glob_g deferred_emit_definition Examples.pending_g
                 = (Done 0, c')) by (vm_compute; reflexivity).
  exact (proj1 (proj2 (proj2
           (resolved_function_has_requested_type (lens := lens) "g"
              (FunctionType Examples.int_fty) Examples.glob_g
              deferred_emit_definition Examples.pending_g c' 0 Hrun)))).
Defined.

Section prototypes.
Context `{lens : visitor_lens}.

Lemma create_run o c : create o c = (Done (next_op c), (create o c).2).
Proof. unfold create. by destruct (insertion c). Qed.

(** The operation [create] makes: it may at once be given a member or a
    block, when the insertion point happens to lie inside it, but its kind,
    name and type are those asked for. *)
Lemma create_post o c :
  next_op (create o c).2 = S (next_op c)
  /\ weak_ref_references (create o c).2 = weak_ref_references c
  /\ tables (create o c).2 = tables c
  /\ (op_kind_of o = FuncOp -> insertion c = in_module ->
      symbol_table c !! sym_name o = None ->
      symbol_table (create o c).2 !! sym_name o = Some (next_op c))
  /\ (insertion c <> in_module ->
      symbol_table (create o c).2 = symbol_table c)
  /\ exists o', ops (create o c).2 !! next_op c = Some o'
       /\ op_kind_of o' = op_kind_of o
       /\ op_type o' = op_type o.
Proof.
  unfold create.
  destruct (insertion c) as [|parent i|fn ip]; cbn;
    (split; [done|]; split; [done|]; split; [done|]; split;
     [intros Hk Hip Hs; try done;
      rewrite !bool_decide_eq_true_2 by done; cbn [andb];
      rewrite Hs; by rewrite lookup_insert_eq|]);
    (split; [intros Hip; try done;
             rewrite (bool_decide_eq_false_2 (_ = in_module)) by done;
             by rewrite andb_false_r|]).
  - exists o. by rewrite lookup_insert_eq.
  - destruct (decide (parent = next_op c)) as [->|Hne].
    + eexists. rewrite lookup_alter_eq, lookup_insert_eq. by cbn.
    + exists o. by rewrite lookup_alter_ne, lookup_insert_eq.
  - destruct (decide (fn = next_op c)) as [->|Hne].
    + eexists. rewrite lookup_alter_eq, lookup_insert_eq. by cbn.
    + exists o. by rewrite lookup_alter_ne, lookup_insert_eq.
Qed.

(** Where [create] puts the operation: it is a child of the module only
    when the builder stands at module level, and the symbols of the module
    do not change otherwise. *)
Lemma create_placement o c :
  (insertion c = in_module ->
   module_body (create o c).2 = module_body c ++ [next_op c])
  /\ (insertion c <> in_module ->
      module_body (create o c).2 = module_body c
      /\ symbol_table (create o c).2 = symbol_table c).
Proof.
  unfold create. destruct (insertion c) as [|parent i|fn ip]; cbn;
    (split; [done|]); intros Hip; try done;
    rewrite (bool_decide_eq_false_2 (_ = in_module)) by done;
    by rewrite andb_false_r.
Qed.

(** The function [create_vast_function] makes for a name that is new, with
    the builder at module level. *)
Lemma create_vast_function_post name fty d c fn c1 :
  insertion c = in_module ->
  symbol_table c !! name = None ->
  table_lookup (inr name) (table funcdecls c) = None ->
  create_vast_function name fty d c = (Done fn, c1) ->
  fn = next_op c
  /\ module_body c1 = module_body c ++ [fn]
  /\ symbol_table c1 !! name = Some fn
  /\ weak_ref_references c1 = weak_ref_references c
  /\ exists o,
       ops c1 !! fn = Some o
       /\ op_kind_of o = FuncOp
       /\ isDeclaration o = true
       /\ op_type o = Some (FunctionType fty).
Proof.
  intros Hip Hsym Hfree H. unfold create_vast_function in H.
  apply bind_inv in H as (guard & c0 & H0 & H). injection H0 as <- <-.
  apply bind_inv in H as (fn' & c2 & H2 & H).
  set (o0 := with_linkage _ _) in H2.
  rewrite declare_op_run in H2.
  rewrite (declare_unbound funcdecls (inr name) _ c (OpResult (next_op c))
             (create o0 c).2 Hfree) in H2.
  2:{ cbv [mbind M_bind mret M_ret]. by rewrite create_run. }
  injection H2 as <- <-. cbn [getDefiningOp] in H.
  destruct (create_post o0 c)
    as (_ & Hweak & _ & Hsymbol & _ & o1 & Ho1 & Hk1 & Ht1).
  specialize (Hsymbol eq_refl Hip Hsym).
  cbn [sym_name o0 with_linkage new_op] in Hsymbol.
  destruct (create_placement o0 c) as [Hmodule _]. specialize (Hmodule Hip).
  apply bind_inv in H as ([] & c3 & H3 & H).
  unfold visit_decl_attrs in H3.
  apply bind_inv in H3 as (o1' & c3' & Hget & H3).
  apply get_op_inv in Hget as [Hget ->]. cbn [ops set_tables] in Hget.
  rewrite Ho1 in Hget. injection Hget as <-.
  destruct (Attrs.visit_decl_attrs _ _ _) as [attrs|]; [|done].
  injection H3 as <-.
  apply bind_inv in H as (o2 & c4 & H4 & H).
  apply get_op_inv in H4 as [Ho2 ->].
  cbn [ops set_ops set_tables] in Ho2. rewrite lookup_alter_eq, Ho1 in Ho2.
  injection Ho2 as <-.
  apply bind_inv in H as ([] & c4 & H4 & H).
  apply VAST_CHECK_inv in H4 as [Hdecl ->].
  apply bind_inv in H as ([] & c4 & H4 & H). injection H4 as <-.
  apply bind_inv in H as ([] & c5 & H5 & H). injection H5 as <-.
  injection H as <- <-.
  split; [done|]. split; [done|]. split; [done|]. split; [done|].
  eexists. cbn. rewrite !lookup_alter_eq, Ho1. cbn.
  split; [done|]. split; [done|]. split; [done|]. done.
Qed.

(** A request that finds a function which may be returned as it is. *)
Lemma get_or_create_hit name type glob emit c entry o :
  for_vtable emit = false ->
  thunk emit = false ->
  (forall d, getDecl glob = Some d ->
     OpenMPIsTargetDevice acontext = false /\ isMultiVersion d = false) ->
  symbol_table c !! name = Some entry ->
  ops c !! entry = Some o ->
  op_kind_of o = FuncOp ->
  entry ∉ weak_ref_references c ->
  op_type o = Some type ->
  is_for_definition emit = false \/ isDeclaration o = true ->
  get_or_create_vast_function name type glob emit c = (Done entry, c).
Proof.
  intros Hv Ht Hd Hsym Hop Hkind Hweak Hty Hcase.
  unfold get_or_create_vast_function. rewrite Hv, Ht.
  assert (Hguards : match getDecl glob with
                    | Some fn =>
                        VAST_UNIMPLEMENTED_IF (OpenMPIsTargetDevice acontext);;
                        VAST_UNIMPLEMENTED_IF (isMultiVersion fn)
                    | None => mret tt
                    end c = (Done tt, c)).
  { destruct (getDecl glob) as [d|]; [|done].
    destruct (Hd d eq_refl) as [-> ->]. done. }
  cbv [VAST_UNIMPLEMENTED_IF] in *.
  erewrite bind_Done; [|reflexivity]. erewrite bind_Done; [|reflexivity].
  erewrite bind_Done; [|exact Hguards].
  cbv [mbind M_bind mret M_ret get_global_value get_op erase_weak_ref].
  rewrite Hsym, Hop, Hkind, Hty.
  rewrite (bool_decide_eq_true_2 (FuncOp = FuncOp)) by done. cbn [negb].
  rewrite (bool_decide_eq_false_2 (entry ∈ weak_ref_references c)) by done.
  rewrite (bool_decide_eq_true_2 (Some type = Some type)) by done.
  assert (is_for_definition emit && negb (isDeclaration o) = false) as ->.
  { destruct Hcase as [-> | ->]; [done|]. by rewrite andb_false_r. }
  done.
Qed.

End prototypes.

(** X11. A function that is only declared can be asked for again and
    again. A request for a name whose entity is a function of the requested
    type, made for a declaration or while the function has no body,
    returns that entity and leaves the whole context as it is: nothing is
    created, queued or reported, however often the request is made. *)
Theorem declared_function_is_returned_unchanged `{lens : visitor_lens}
    (name : string) (type : mlir_type) (glob : GlobalDecl)
    (emit : global_emition) (c : codegen_context) (entry : op_id)
    (o : op_state) :
  for_vtable emit = false ->
  thunk emit = false ->
  (forall d, getDecl glob = Some d ->
     OpenMPIsTargetDevice acontext = false /\ isMultiVersion d = false) ->
  symbol_table c !! name = Some entry ->
  ops c !! entry = Some o ->
  op_kind_of o = FuncOp ->
  entry ∉ weak_ref_references c ->
  op_type o = Some type ->
  is_for_definition emit = false \/ isDeclaration o = true ->
  forall n,
    Nat.iter n
      (fun c' => (get_or_create_vast_function name type glob emit c').2) c = c
    /\ get_or_create_vast_function name type glob emit c = (Done entry, c).
Proof.
  intros Hv Ht Hd Hsym Hop Hkind Hweak Hty Hcase n.
  pose proof (get_or_create_hit name type glob emit c entry o
                Hv Ht Hd Hsym Hop Hkind Hweak Hty Hcase) as Hrun.
  split; [|done].
  induction n as [|n IH]; [done|]. by rewrite Nat.iter_succ, IH, Hrun.
Qed.

(** The theorem applied to a second and third reference to [g]. *)
Lemma declared_function_is_returned_unchanged_witness :
  let lens := Examples.c_lens Examples.no_representative in
  let request :=
    get_or_create_vast_function "g" (FunctionType Examples.int_fty)
      Examples.glob_g deferred_emit_definition in
  let c := (request Examples.pending_g).2 in
  (request (request c).2).2 = c /\ request c = (Done 0, c).
Proof.
  intros lens request c.
  refine (declared_function_is_returned_unchanged (lens := lens) "g"
            (FunctionType Examples.int_fty) Examples.glob_g
            deferred_emit_definition c 0
            (with_visibility (Some Private)
               (with_linkage (Some 0)
                  (new_op FuncOp "g" (Some (FunctionType Examples.int_fty)))))
            eq_refl eq_refl _ _ _ eq_refl _ eq_refl (or_intror eq_refl) 2).
  - intros d [= <-]. split; reflexivity.
  - vm_compute. reflexivity.
  - vm_compute. reflexivity.
  - apply (bool_decide_unpack _). vm_compute. exact I.
Defined.

(** X12. A prototype is built once. When [build_function_prototype],
    called with the builder at module level, has created the function of a
    declaration whose mangled name was new, the function is the last child
    of the module and its symbol of that name, and every later call for
    the same declaration is answered with that function and leaves the
    context as it is. *)
Theorem function_prototype_built_once `{lens : visitor_lens}
    (glob : GlobalDecl) (c c' : codegen_context) (fn : op_id) :
  insertion c = in_module ->
  symbol_table c !! get_mangled_name glob = None ->
  table_lookup (inr (get_mangled_name glob)) (table funcdecls c) = None ->
  next_op c ∉ weak_ref_references c ->
  Entry.build_function_prototype glob c = (Done fn, c') ->
  fn = next_op c
  /\ module_body c' = module_body c ++ [fn]
  /\ symbol_table c' !! get_mangled_name glob = Some fn
  /\ Entry.build_function_prototype glob c' = (Done fn, c').
Proof.
  intros Hip Hsym Hfree Hweak H.
  unfold Entry.build_function_prototype, Entry.get_addr_of_function in H.
  apply bind_inv in H as (d & c0 & Hcast & H).
  unfold Entry.cast_FunctionDecl in Hcast.
  destruct (getDecl glob) as [d0|] eqn:Hd; [|done]. injection Hcast as <- <-.
  apply bind_inv in H as ([] & c0 & H0 & H).
  apply VAST_UNIMPLEMENTED_IF_inv in H0 as [_ ->].
  apply bind_inv in H as (d' & c1 & Hcast & H).
  unfold Entry.cast_FunctionDecl in Hcast. rewrite Hd in Hcast.
  injection Hcast as <- <-.
  apply bind_inv in H as ([] & c1 & H1 & H).
  apply VAST_CHECK_inv in H1 as [Hconsteval ->].
  apply bind_inv in H as ([] & c1 & H1 & H).
  apply VAST_UNIMPLEMENTED_IF_inv in H1 as [Hdtor ->].
  destruct (get_or_create_fresh _ _ _ _ _ _ _ Hsym H)
    as (fty & d' & c1 & o & Hty & Hd' & Homp & Hmv & Hcreate & Hview & _
        & Hbody & Ho & Hoty).
  rewrite Hd in Hd'. injection Hd' as <-.
  destruct (create_vast_function_post _ _ _ _ _ _ Hip Hsym Hfree Hcreate)
    as (-> & Hbody1 & Hsym1 & Hweak1 & o1 & Ho1 & Hkind & Hdecl & _).
  injection Hview as Hops Hsymbols _ Hweaks.
  rewrite Hops, Ho1 in Ho. injection Ho as ->.
  split; [done|]. split; [by rewrite Hbody|]. split; [by rewrite Hsymbols|].
  unfold Entry.build_function_prototype, Entry.get_addr_of_function,
    Entry.cast_FunctionDecl.
  rewrite Hd.
  cbv [mbind M_bind mret M_ret VAST_UNIMPLEMENTED_IF VAST_CHECK
       deferred_emit_definition for_vtable].
  rewrite Hconsteval, Hdtor.
  apply (get_or_create_hit _ _ _ _ _ _ o); try done.
  - intros d Hd'. rewrite Hd in Hd'. injection Hd' as <-. by split.
  - by rewrite Hsymbols.
  - by rewrite Hops.
  - by rewrite Hweaks, Hweak1.
  - by right.
Qed.

(** The theorem applied to the prototype of [g], built at module level. *)
Lemma function_prototype_built_once_witness :
  let lens := Examples.c_lens Examples.no_representative in
  let c' := (Entry.build_function_prototype Examples.glob_g new_context).2 in
  0 = next_op new_context
  /\ module_body c' = [0]
  /\ symbol_table c' !! "g" = Some 0
  /\ Entry.build_function_prototype Examples.glob_g c' = (Done 0, c').
Proof.
  intros lens c'.
  apply (function_prototype_built_once (lens := lens) Examples.glob_g
           new_context c' 0).
  - reflexivity.
  - reflexivity.
  - reflexivity.
  - apply (bool_decide_unpack _). vm_compute. exact I.
  - vm_compute. reflexivity.
Defined.

(** X13. [get_addr_of_function] answers only for what it can emit. A
    request for a vtable, a request without a declaration, for a consteval
    function or a destructor, or with a null type aborts and leaves the
    context untouched. A request that returns has passed every one of these
    guards, is the answer of [get_or_create_vast_function] for the mangled
    name of the declaration, and names a function of the type asked for. *)
Theorem get_addr_of_function_guards `{lens : visitor_lens}
    (decl : GlobalDecl) (fty : option mlir_type) (emit : global_emition)
    (c : codegen_context) :
  (forall fn c',
     Entry.get_addr_of_function decl fty emit c = (Done fn, c') ->
     for_vtable emit = false
     /\ exists d type,
          getDecl decl = Some d
          /\ isConsteval d = false
          /\ isa_CXXDestructorDecl d = false
          /\ fty = Some type
          /\ get_or_create_vast_function (get_mangled_name decl) type decl emit c
             = (Done fn, c')
          /\ exists o, ops c' !! fn = Some o /\ op_type o = Some type)
  /\ (for_vtable emit = true
      \/ getDecl decl = None
      \/ (exists d, getDecl decl = Some d
                    /\ (isConsteval d = true \/ isa_CXXDestructorDecl d = true))
      \/ fty = None ->
      exists msg, Entry.get_addr_of_function decl fty emit c = (Fatal msg, c)).
Proof.
  split.
  - intros fn c' H. unfold Entry.get_addr_of_function in H.
    apply bind_inv in H as ([] & c0 & H0 & H).
    apply VAST_UNIMPLEMENTED_IF_inv in H0 as [Hv ->].
    apply bind_inv in H as (d & c0 & Hcast & H).
    unfold Entry.cast_FunctionDecl in Hcast.
    destruct (getDecl decl) as [d0|] eqn:Hd; [|done]. injection Hcast as <- <-.
    apply bind_inv in H as ([] & c0 & H0 & H).
    apply VAST_CHECK_inv in H0 as [Hconsteval ->].
    apply negb_true_iff in Hconsteval.
    destruct fty as [type|]; [|done].
    apply bind_inv in H as ([] & c0 & H0 & H).
    apply VAST_UNIMPLEMENTED_IF_inv in H0 as [Hdtor ->].
    split; [done|]. exists d0, type.
    split; [done|]. split; [done|]. split; [done|]. split; [done|].
    split; [done|].
    destruct (symbol_table c !! get_mangled_name decl) as [entry|] eqn:Hsym.
    + destruct (get_or_create_existing _ _ _ _ _ _ _ _ Hsym H)
        as (-> & Hview & _ & _ & o & Ho & _ & Hty).
      exists o. split; [|done]. injection Hview as -> _ _ _. done.
    + destruct (get_or_create_fresh _ _ _ _ _ _ _ Hsym H)
        as (? & ? & ? & o & _ & _ & _ & _ & _ & _ & _ & _ & Ho & Hty).
      by exists o.
  - unfold Entry.get_addr_of_function, Entry.cast_FunctionDecl.
    cbv [mbind M_bind mret M_ret VAST_UNIMPLEMENTED_IF VAST_CHECK fatal].
    intros [Hv|[Hd|[(d & Hd & Hcase)|Hty]]].
    + rewrite Hv. by eexists.
    + destruct (for_vtable emit); [by eexists|]. rewrite Hd. by eexists.
    + destruct (for_vtable emit); [by eexists|]. rewrite Hd.
      destruct (isConsteval d) eqn:Hc; cbn [negb]; [by eexists|].
      destruct Hcase as [|Hdtor]; [done|].
      destruct fty; [|by eexists]. rewrite Hdtor. by eexists.
    + destruct (for_vtable emit); [by eexists|].
      destruct (getDecl decl) as [d|]; [|by eexists].
      destruct (isConsteval d); cbn [negb]; [by eexists|].
      rewrite Hty. by eexists.
Qed.

(** The theorem applied to a request for a consteval function. *)
Lemma get_addr_of_function_guards_witness :
  let lens := Examples.c_lens Examples.no_representative in
  exists msg,
    Entry.get_addr_of_function (get_gdecl NoStructor Examples.consteval_f)
      (Some (FunctionType Examples.int_fty)) emit_definition new_context
    = (Fatal msg, new_context).
Proof.
  intros lens.
  apply (get_addr_of_function_guards (lens := lens)).
  right. right. left. exists Examples.consteval_f.
  split; [reflexivity|]. left. reflexivity.
Defined.

(** ** The visitor with attributes *)

Section visit_with_attrs.
Context `{lens : visitor_lens}.

Lemma with_attrs_same o : with_attrs (op_attrs o) o = o.
Proof. by destruct o. Qed.

Lemma set_ops_alter_same f op o c :
  ops c !! op = Some o -> f o = o -> set_ops (alter f op) c = c.
Proof.
  intros Ho Hf.
  assert (alter f op (ops c) = ops c) as Heq.
  { apply map_eq. intros id. destruct (decide (id = op)) as [->|Hne].
    - by rewrite lookup_alter_eq, Ho; cbn; rewrite Hf.
    - by rewrite lookup_alter_ne. }
  destruct c. unfold set_ops. cbn in *. by rewrite Heq.
Qed.

(** [visit_decl_attrs] on an operation of the context. *)
Lemma visit_decl_attrs_run decl_attrs op o c :
  ops c !! op = Some o ->
  visit_decl_attrs decl_attrs op c
  = match Attrs.visit_decl_attrs visit_attr decl_attrs (op_attrs o) with
    | Done attrs => (Done tt, set_ops (alter (with_attrs attrs) op) c)
    | Fatal msg => (Fatal msg, c)
    end.
Proof.
  intros Ho. unfold visit_decl_attrs, get_op. cbv [mbind M_bind]. rewrite Ho.
  by destruct (Attrs.visit_decl_attrs _ _ _).
Qed.

End visit_with_attrs.

(** X14. [decl_visitor_with_attrs::Visit] adds the attributes to what the
    base visitor returns and changes nothing else. When the base visitor
    returns null or aborts, so does [Visit], with the context the base
    visitor left. When it returns an operation, a declaration without
    attributes leaves that context as it is; otherwise a visit that returns
    has changed the attribute dictionary of that operation only, and
    visiting the declaration once more, the operation being found again,
    changes nothing at all. *)
Theorem attributes_follow_the_visit `{lens : visitor_lens}
    (base_Visit : M (option op_id)) (decl_attrs : list Attr)
    (c : codegen_context) :
  (forall c1, base_Visit c = (Done None, c1) ->
     Entry.decl_visitor_with_attrs_Visit base_Visit decl_attrs c = (Done None, c1))
  /\ (forall msg c1, base_Visit c = (Fatal msg, c1) ->
      Entry.decl_visitor_with_attrs_Visit base_Visit decl_attrs c
      = (Fatal msg, c1))
  /\ (forall op c1 o,
      base_Visit c = (Done (Some op), c1) ->
      ops c1 !! op = Some o ->
      (decl_attrs = [] ->
       Entry.decl_visitor_with_attrs_Visit base_Visit decl_attrs c
       = (Done (Some op), c1))
      /\ (forall r c',
          Entry.decl_visitor_with_attrs_Visit base_Visit decl_attrs c
          = (Done r, c') ->
          r = Some op
          /\ (exists attrs',
                Attrs.visit_decl_attrs visit_attr decl_attrs (op_attrs o)
                = Done attrs'
                /\ ops c' !! op = Some (with_attrs attrs' o))
          /\ (forall id, id <> op -> ops c' !! id = ops c1 !! id)
          /\ tables c' = tables c1
          /\ symbol_table c' = symbol_table c1
          /\ next_op c' = next_op c1
          /\ insertion c' = insertion c1
          /\ diagnostics c' = diagnostics c1
          /\ Entry.decl_visitor_with_attrs_Visit (mret (Some op)) decl_attrs c'
             = (Done (Some op), c'))).
Proof.
  unfold Entry.decl_visitor_with_attrs_Visit.
  split; [|split].
  - intros c1 H. erewrite bind_Done; [|exact H]. done.
  - intros msg c1 H. erewrite bind_Fatal; [|exact H]. done.
  - intros op c1 o H Ho. split.
    + intros ->. erewrite bind_Done; [|exact H]. cbv beta iota.
      cbv [mbind M_bind]. rewrite (visit_decl_attrs_run [] op o c1 Ho).
      cbn. by rewrite (set_ops_alter_same _ op o c1 Ho (with_attrs_same o)).
    + intros r c'. erewrite bind_Done; [|exact H]. cbv beta iota.
      cbv [mbind M_bind mret M_ret].
      rewrite (visit_decl_attrs_run decl_attrs op o c1 Ho).
      destruct (Attrs.visit_decl_attrs visit_attr decl_attrs (op_attrs o))
        as [attrs'|msg] eqn:Hattrs; [|done].
      intros [= <- <-].
      assert (Ho' : ops (set_ops (alter (with_attrs attrs') op) c1) !! op
                    = Some (with_attrs attrs' o)).
      { cbn. by rewrite lookup_alter_eq, Ho. }
      split; [done|]. split; [by exists attrs'|].
      split; [intros id Hid; cbn; by rewrite lookup_alter_ne|].
      split; [done|]. split; [done|]. split; [done|]. split; [done|].
      split; [done|].
      rewrite (visit_decl_attrs_run decl_attrs op _ _ Ho').
      cbn [op_attrs with_attrs].
      rewrite (visit_decl_attrs_again _ _ _ _ Hattrs).
      by rewrite (set_ops_alter_same _ op _ _ Ho').
Qed.

(** The theorem applied to a declaration of [g] with a [section]
    attribute, visited after its function has been created. *)
Lemma attributes_follow_the_visit_witness :
  let lens := Examples.c_lens Examples.no_representative in
  let o := new_op FuncOp "g" (Some (FunctionType Examples.int_fty)) in
  let c1 := (create o new_context).2 in
  let attrs := [Examples.section_attr ".data"] in
  let c' := (Entry.decl_visitor_with_attrs_Visit (mret (Some 0)) attrs c1).2 in
  tables c' = tables c1
  /\ next_op c' = next_op c1
  /\ Entry.decl_visitor_with_attrs_Visit (mret (Some 0)) attrs c'
     = (Done (Some 0), c').
Proof.
  intros lens o c1 attrs c'.
  assert (Hrun : Entry.decl_visitor_with_attrs_Visit (mret (Some 0)) attrs c1
                 = (Done (Some 0), c')) by (vm_compute; reflexivity).
  destruct (proj2 (proj2 (proj2 (attributes_follow_the_visit (lens := lens)
              (mret (Some 0)) attrs c1)) 0 c1 o eq_refl eq_refl)
              (Some 0) c' Hrun)
    as (_ & _ & _ & Htables & _ & Hnext & _ & _ & Hagain).
  split; [exact Htables|]. split; [exact Hnext|exact Hagain].
Defined.

(** ** Typedefs *)

Section typedef_walk.
Context `{lens : visitor_lens}.

Lemma bind_ret_tt (m : M unit) c : (m;; mret tt) c = m c.
Proof. cbv [mbind M_bind mret M_ret]. by destruct (m c) as [[[]|msg] c1]. Qed.

(** The walk of [VisitTypedefDecl] over the underlying type visits the tag
    declaration the type is built from, and nothing else. *)
Lemma walk_type_tag (type : QualType) c :
  walk_type type
    (fun ty => match ty with
               | TagType tag => visit_decl tag;; mret true
               | _ => mret false
               end) c
  = match Entry.innermost_tag type with
    | Some tag => (visit_decl tag;; mret tt) c
    | None => (Done tt, c)
    end.
Proof.
  revert c. induction type as [n|n|tag|element IH size|pointee IH]; intros c;
    cbn [walk_type Entry.innermost_tag]; try done.
  - cbv [mbind M_bind mret M_ret]. by destruct (visit_decl tag c) as [[r|msg] c1].
  - cbv [mbind M_bind mret M_ret] in *. rewrite IH.
    destruct (Entry.innermost_tag element) as [tag|]; [|done].
    by destruct (visit_decl tag c) as [[r|msg] c1].
  - cbv [mbind M_bind mret M_ret] in *. apply IH.
Qed.

Lemma declare_op_ext T key (builder builder' : M op_id) c :
  (forall c0, builder c0 = builder' c0) ->
  declare_op T key builder c = declare_op T key builder' c.
Proof.
  intros Hext. unfold declare_op, declare, lookup.
  cbv [mbind M_bind mret M_ret].
  destruct (table_lookup key (table T c)); [done|]. by rewrite Hext.
Qed.

End typedef_walk.

(** X15. A typedef predeclares the tag it is built from, once. Visiting a
    typedef is declaring it with a builder that first visits the tag
    declaration at the end of the chain of array and pointer types of the
    underlying type, if the chain ends in a tag, and then creates the
    typedef operation with the lowered underlying type; a typedef of a
    function type, of a builtin type, or of pointers and arrays of them
    visits no declaration at all. *)
Theorem typedef_predeclares_its_tag `{lens : visitor_lens}
    (decl : TypedefDecl) (c : codegen_context) :
  VisitTypedefDecl decl c
  = declare_op typedefs (inl (typedef_id decl))
      (match Entry.innermost_tag (getUnderlyingType decl) with
       | Some tag => visit_decl tag;; mret tt
       | None => mret tt
       end;;
       create (new_op TypeDefOp (typedef_name decl)
                 (Some (visit_type (getUnderlyingType decl))))) c.
Proof.
  unfold VisitTypedefDecl. apply declare_op_ext. intros c0.
  pose proof (walk_type_tag (getUnderlyingType decl) c0) as Hw.
  destruct (getUnderlyingType decl) as [n|n|tag|element size|pointee] eqn:Hty;
    [|by cbv [mbind M_bind mret M_ret]|..];
    (cbv [mbind M_bind mret M_ret] in Hw |- *; rewrite Hw;
     destruct (Entry.innermost_tag _) as [tag'|]; [|done];
     by destruct (visit_decl tag' c0) as [[r|msg] c1]).
Qed.

(** ** Variables and the insertion point *)

Section variable_insertion_point.
Context `{lens : visitor_lens}.

Lemma create_insertion o c :
  insertion (create o c).2
  = match insertion c with
    | in_module => in_module
    | in_region_of parent i => in_region_of parent (S i)
    | in_function fn ip => in_function fn ip
    end.
Proof. unfold create. by destruct (insertion c). Qed.

(** An operation built with a region callback: whatever the callback does
    to the insertion point, it ends just past the new operation. *)
Lemma create_with_region_insertion o fill c id c' :
  create_with_region o fill c = (Done id, c') ->
  id = next_op c /\ insertion c' = insertion (create o c).2.
Proof.
  unfold create_with_region. intros H.
  apply bind_inv in H as (id' & c1 & H1 & H).
  rewrite create_run in H1. injection H1 as <- <-.
  apply bind_inv in H as (saved & c1 & H1 & H). injection H1 as <- <-.
  apply bind_inv in H as ([] & c1 & _ & H).
  apply bind_inv in H as ([] & c2 & _ & H).
  apply bind_inv in H as ([] & c3 & H3 & H). injection H3 as <-.
  by injection H as <- <-.
Qed.

Lemma fill_initializer_insertion decl var_decl :
  preserves insertion (fill_initializer decl var_decl).
Proof.
  intros c [] c' H. unfold fill_initializer in H.
  destruct (var_getInit decl) as [init|]; [|by injection H as <-].
  apply bind_inv in H as (guard & c1 & H1 & H). injection H1 as <- <-.
  destruct var_decl as [declared|]; [|done].
  apply bind_inv in H as ([] & c1 & _ & H).
  apply bind_inv in H as ([] & c2 & _ & H).
  by injection H as <-.
Qed.

End variable_insertion_point.

(** X16. [VisitVarDecl] leaves the insertion point where the declaration
    itself puts it. Visiting a variable that is bound returns the operation
    of its binding and creates nothing; visiting one that is not creates
    the operation with the first fresh identity. In both cases the array
    size and the initializer are built in regions of the variable, and
    whatever their builders did to the insertion point, it ends where it
    was for a bound variable and just past the new operation otherwise. *)
Theorem variable_visit_insertion_point `{lens : visitor_lens}
    (decl : VarDecl) (c c' : codegen_context) (r : option op_id) :
  VisitVarDecl decl c = (Done r, c') ->
  match table_lookup (inl (var_id decl)) (table vars c) with
  | Some v => r = getDefiningOp v /\ insertion c' = insertion c
  | None =>
      r = Some (next_op c)
      /\ insertion c'
         = match insertion c with
           | in_module => in_module
           | in_region_of parent i => in_region_of parent (S i)
           | in_function fn ip => in_function fn ip
           end
  end.
Proof.
  unfold VisitVarDecl. intros H.
  apply bind_inv in H as (v & c1 & Hdeclare & H).
  apply bind_inv in H as ([] & c2 & Hfill & H). injection H as <- <-.
  apply fill_initializer_insertion in Hfill. rewrite Hfill.
  destruct (table_lookup (inl (var_id decl)) (table vars c)) as [v0|] eqn:Hbound.
  - rewrite (declare_bound _ _ _ _ _ Hbound) in Hdeclare.
    by injection Hdeclare as <- <-.
  - destruct (make_var_decl decl c) as [[v1|msg] cb] eqn:Hbuild.
    2:{ by rewrite (declare_unbound_Fatal _ _ _ _ _ _ Hbound Hbuild) in Hdeclare. }
    rewrite (declare_unbound _ _ _ _ _ _ Hbound Hbuild) in Hdeclare.
    injection Hdeclare as <- <-.
    unfold make_var_decl in Hbuild.
    apply bind_inv in Hbuild as (var & cb' & Hcreate & Hret).
    injection Hret as <- <-.
    apply create_with_region_insertion in Hcreate as [-> Hip].
    split; [done|]. cbn [insertion set_tables]. by rewrite Hip, create_insertion.
Qed.

(** The theorem applied to [static int x = e;] at the top of a module. *)
Lemma variable_visit_insertion_point_witness :
  let lens := Examples.c_lens Examples.no_representative in
  let c' := (VisitVarDecl Examples.static_x new_context).2 in
  Some 0 = Some (next_op new_context) /\ insertion c' = in_module.
Proof.
  intros lens c'.
  assert (Hrun : VisitVarDecl Examples.static_x new_context = (Done (Some 0), c'))
    by (vm_compute; reflexivity).
  exact (variable_visit_insertion_point (lens := lens) Examples.static_x
           new_context c' (Some 0) Hrun).
Defined.

(** ** Function declarations *)

Section function_declarations.
Context `{lens : visitor_lens}.

(** The operation [create] makes is the one asked for, but for a member or
    a block it may be given at once. *)
Lemma create_fields o c :
  exists o',
    ops (create o c).2 !! next_op c = Some o'
    /\ with_members [] (with_blocks [] o') = with_members [] (with_blocks [] o).
Proof.
  unfold create. destruct (insertion c) as [|parent i|fn ip]; cbn.
  - exists o. by rewrite lookup_insert_eq.
  - destruct (decide (parent = next_op c)) as [->|Hne].
    + eexists. rewrite lookup_alter_eq, lookup_insert_eq. by cbn.
    + exists o. by rewrite lookup_alter_ne, lookup_insert_eq.
  - destruct (decide (fn = next_op c)) as [->|Hne].
    + eexists. rewrite lookup_alter_eq, lookup_insert_eq. by cbn.
    + exists o. by rewrite lookup_alter_ne, lookup_insert_eq.
Qed.

End function_declarations.

(** X17. A function that is declared and not defined becomes a private
    declaration. The first visit of a declaration that is not a definition,
    under a mangled name that is not bound, returns a new operation: a
    function of that name, with the type of the declaration, the linkage
    of the definition if the translation unit has one and of the
    declaration otherwise, and private visibility. The name is bound to it,
    no body is lowered and no collaborator is called. *)
Theorem declared_function_is_private `{lens : visitor_lens}
    (structor : structor_type) (decl : FunctionDecl) (c : codegen_context) :
  let mangled := get_mangled_name (get_gdecl structor decl) in
  table_lookup (inr mangled) (table funcdecls c) = None ->
  isThisDeclarationADefinition decl = false ->
  exists c' o,
    VisitFunctionLikeDecl structor decl c = (Done (Some (next_op c)), c')
    /\ ops c' !! next_op c = Some o
    /\ op_kind_of o = FuncOp
    /\ sym_name o = mangled
    /\ op_type o = Some (visit_function_type decl)
    /\ op_visibility o = Some Private
    /\ op_linkage o
       = Some (get_function_linkage
                 match getDefinition acontext decl with
                 | Some d => get_gdecl NoStructor d
                 | None => get_gdecl structor decl
                 end)
    /\ next_op c' = S (next_op c)
    /\ insertion c' = insertion c
    /\ table vars c' = table vars c
    /\ table_lookup (inr mangled) (table funcdecls c')
       = Some (OpResult (next_op c)).
Proof.
  intros mangled Hfree Hdecl. unfold VisitFunctionLikeDecl.
  fold mangled. set (linkage := get_function_linkage _).
  set (o0 := with_linkage (Some linkage)
               (new_op FuncOp mangled (Some (visit_function_type decl)))).
  set (c2 := set_tables <[vars := push_scope (table vars c)]> c).
  assert (Hfree2 : table_lookup (inr mangled) (table funcdecls c2) = None).
  { unfold c2. by rewrite table_set_tables_ne. }
  destruct (create_fields o0 c2) as (o1 & Ho1 & Hfields).
  destruct (create_post o0 c2) as (Hnext & _ & Htables & _ & _).
  set (cb := set_ops (alter (with_visibility (Some Private)) (next_op c2))
               (create o0 c2).2).
  assert (Hbuild : (ret ← create o0;
                    update_op ret (with_visibility (Some Private));;
                    mret (OpResult ret)) c2
                   = (Done (OpResult (next_op c2)), cb)).
  { cbv [mbind M_bind mret M_ret update_op modify]. by rewrite create_run. }
  assert (Hdeclare :
    declare_op funcdecls (inr mangled)
      (ret ← create o0; update_op ret (with_visibility (Some Private));; mret ret)
      c2
    = (Done (Some (next_op c2)),
       set_tables <[funcdecls := table_insert (inr mangled)
                                   (OpResult (next_op c2)) (table funcdecls cb)]>
                  cb)).
  { rewrite declare_op_run.
    rewrite (declare_unbound funcdecls (inr mangled) _ c2
               (OpResult (next_op c2)) cb Hfree2); [done|].
    revert Hbuild. cbv [mbind M_bind mret M_ret update_op modify].
    by rewrite create_run. }
  assert (H0 : lookup_function mangled c = (Done None, c)).
  { unfold lookup_function, lookup_op, lookup. cbv [mbind M_bind mret M_ret].
    by rewrite Hfree. }
  erewrite bind_Done; [|exact H0].
  erewrite (bind_Done save_insertion_point); [|reflexivity].
  erewrite (bind_Done (enter_scope vars) _ c tt c2); [|reflexivity].
  erewrite bind_Done; [|exact Hdeclare].
  cbv beta iota. rewrite Hdecl.
  cbv [mbind M_bind mret M_ret negb leave_scope modify restore_insertion_point].
  eexists _, (with_visibility (Some Private) o1).
  split; [reflexivity|]. cbn [ops set_insertion set_tables set_ops cb].
  split; [by rewrite lookup_alter_eq, Ho1|].
  assert (Heq : forall X (f : op_state -> X),
             f (with_members [] (with_blocks [] o1))
             = f (with_members [] (with_blocks [] o0))) by (by rewrite Hfields).
  split; [exact (Heq _ op_kind_of)|].
  split; [exact (Heq _ sym_name)|].
  split; [exact (Heq _ op_type)|].
  split; [done|].
  split; [exact (Heq _ op_linkage)|].
  split; [exact Hnext|].
  split; [done|].
  split.
  - rewrite table_set_insertion, table_set_tables.
    rewrite table_set_tables_ne by done.
    unfold table at 1 2. cbn [tables set_ops cb]. rewrite Htables.
    change (default empty_table (tables c2 !! vars)) with (table vars c2).
    unfold c2. rewrite table_set_tables. apply pop_push_scope. done.
  - rewrite table_set_insertion, table_set_tables_ne by done.
    by rewrite table_set_tables, table_lookup_insert.
Qed.

(** The theorem applied to [int h();] in an empty context. *)
Lemma declared_function_is_private_witness :
  let lens := Examples.c_lens Examples.no_representative in
  exists c' o,
    VisitFunctionLikeDecl NoStructor Examples.h_declaration new_context
    = (Done (Some 0), c')
    /\ ops c' !! 0 = Some o
    /\ op_kind_of o = FuncOp
    /\ sym_name o = "h"
    /\ op_type o = Some (visit_function_type Examples.h_declaration)
    /\ op_visibility o = Some Private
    /\ op_linkage o = Some 0
    /\ next_op c' = 1
    /\ insertion c' = in_module
    /\ table vars c' = table vars new_context
    /\ table_lookup (inr "h") (table funcdecls c') = Some (OpResult 0).
Proof.
  intros lens.
  exact (declared_function_is_private (lens := lens) NoStructor
           Examples.h_declaration new_context eq_refl eq_refl).
Defined.

(** ** Redeclarations of an enum *)

Section enum_branches.
Context `{lens : visitor_lens}.

Lemma complete_previous_redefinition decl skipped prev earlier prev_op c :
  (forall s, s ∈ skipped ->
     table_lookup (inl (prev_id s)) (table enumdecls c) ≫= getDefiningOp = None) ->
  table_lookup (inl (prev_id prev)) (table enumdecls c) = Some (OpResult prev_op) ->
  prev_isComplete prev = true ->
  complete_previous decl (skipped ++ prev :: earlier) c
  = (Fatal "assertion failed", c).
Proof.
  intros Hskip Hprev Hcomplete.
  induction skipped as [|s skipped IH]; cbn [app complete_previous].
  - unfold lookup_op, lookup. cbv [mbind M_bind mret M_ret VAST_CHECK fatal].
    rewrite Hprev, Hcomplete. by cbn.
  - unfold lookup_op at 1, lookup. cbv [mbind M_bind mret M_ret].
    change (option_bind _ _ getDefiningOp ?x) with (x ≫= getDefiningOp).
    rewrite (Hskip s) by (by left). apply IH.
    intros s' Hs'. apply Hskip. by right.
Qed.

End enum_branches.

(** X18. The other branches of [VisitEnumDecl]. A redeclaration that is not
    a definition answers with the operation of its immediate predecessor,
    null when that one has none, and changes nothing. A definition none of
    whose predecessors has an operation is declared like a first
    declaration. A definition whose nearest predecessor with an operation
    is itself a definition fails the assertion of the visitor, before
    anything is changed. *)
Theorem enum_redeclaration_branches `{lens : visitor_lens}
    (decl : EnumDecl) (c : codegen_context) :
  (forall prev rest,
     previous_decls decl = prev :: rest ->
     isComplete decl = false ->
     VisitEnumDecl decl c
     = (Done (table_lookup (inl (prev_id prev)) (table enumdecls c)
                ≫= getDefiningOp), c))
  /\ (isComplete decl = true ->
      (forall s, s ∈ previous_decls decl ->
         table_lookup (inl (prev_id s)) (table enumdecls c) ≫= getDefiningOp
         = None) ->
      VisitEnumDecl decl c = declare_enum decl c)
  /\ (forall skipped prev earlier prev_op,
      isComplete decl = true ->
      previous_decls decl = skipped ++ prev :: earlier ->
      (forall s, s ∈ skipped ->
         table_lookup (inl (prev_id s)) (table enumdecls c) ≫= getDefiningOp
         = None) ->
      table_lookup (inl (prev_id prev)) (table enumdecls c)
      = Some (OpResult prev_op) ->
      prev_isComplete prev = true ->
      VisitEnumDecl decl c = (Fatal "assertion failed", c)).
Proof.
  split; [|split].
  - intros prev rest Hprevs Hinc. unfold VisitEnumDecl.
    rewrite Hprevs, Hinc. cbn [negb]. unfold lookup_op, lookup.
    by cbv [mbind M_bind mret M_ret].
  - intros Hcomplete Hnone. unfold VisitEnumDecl. rewrite Hcomplete.
    destruct (previous_decls decl) as [|prev rest] eqn:Hprevs; [done|].
    cbn [negb]. unfold mbind at 1, M_bind at 1.
    by rewrite complete_previous_none.
  - intros skipped prev earlier prev_op Hcomplete Hprevs Hskip Hprev Hdef.
    unfold VisitEnumDecl. rewrite Hprevs, Hcomplete.
    destruct (skipped ++ prev :: earlier) as [|p ps] eqn:Hl; [by destruct skipped|].
    rewrite <- Hl. cbn [negb]. unfold mbind at 1, M_bind at 1.
    by rewrite (complete_previous_redefinition decl skipped prev earlier prev_op c).
Qed.

(** The theorem applied to a second definition of [E] after the first one
    has been lowered. *)
Lemma enum_redeclaration_branches_witness :
  let lens := Examples.enum_lens in
  let c := (VisitEnumDecl Examples.E_complete new_context).2 in
  VisitEnumDecl Examples.E_redefinition c = (Fatal "assertion failed", c).
Proof.
  intros lens c.
  refine (proj2 (proj2 (enum_redeclaration_branches (lens := lens)
            Examples.E_redefinition c))
            [] {| prev_id := 34; prev_isComplete := true |} [] 0
            eq_refl eq_refl _ _ eq_refl).
  - intros s Hs. by apply elem_of_nil in Hs.
  - vm_compute. reflexivity.
Defined.

(** ** Members of a record that are not lowered *)

Section record_children.
Context `{lens : visitor_lens}.

Lemma for_each_app {A} (l1 l2 : list A) (f : A -> M unit) c :
  for_each (l1 ++ l2) f c = (for_each l1 f;; for_each l2 f) c.
Proof.
  revert c. induction l1 as [|x l1 IH]; intros c; [done|].
  cbn [app for_each]. cbv [mbind M_bind] in *.
  destruct (f x c) as [[[]|msg] c1]; [apply IH|done].
Qed.

Lemma create_with_region_ext o (fill fill' : M unit) c :
  (forall c0, fill c0 = fill' c0) ->
  create_with_region o fill c = create_with_region o fill' c.
Proof.
  intros Hext. unfold create_with_region. cbv [mbind M_bind mret M_ret].
  destruct (create o c) as [[id|msg] c1]; [|done].
  cbv [save_insertion_point restore_insertion_point modify].
  by rewrite Hext.
Qed.

Lemma visit_record_children_skip before child after c :
  getChildKind child = FunctionChild false \/ getChildKind child = OtherChild ->
  visit_record_children (before ++ child :: after) c
  = visit_record_children (before ++ after) c.
Proof.
  intros Hkind. unfold visit_record_children. rewrite !for_each_app.
  cbv [mbind M_bind]. destruct (for_each before _ c) as [[[]|msg] c1]; [|done].
  cbn [for_each]. cbv [mbind M_bind mret M_ret].
  by destruct Hkind as [-> | ->].
Qed.

End record_children.

(** X19. Members a record is lowered without. A member function whose name
    is not an identifier (an operator, a conversion function), and any
    child that is not a field, an access specifier, a variable, a
    constructor, a destructor or a function, is skipped: the record, a C
    record or a C++ one, is lowered exactly as the record without that
    child. The remaining children are visited in their order, those before
    the skipped child first. *)
Theorem skipped_record_members `{lens : visitor_lens}
    (decl decl' : RecordDecl) (before after : list ChildDecl)
    (child : ChildDecl) (c : codegen_context) :
  getChildKind child = FunctionChild false \/ getChildKind child = OtherChild ->
  decls decl = before ++ child :: after ->
  decls decl' = before ++ after ->
  record_id decl' = record_id decl ->
  record_name decl' = record_name decl ->
  getTagKind decl' = getTagKind decl ->
  isCompleteDefinition decl' = isCompleteDefinition decl ->
  VisitRecordDecl decl c = VisitRecordDecl decl' c
  /\ VisitCXXRecordDecl decl c = VisitCXXRecordDecl decl' c
  /\ visit_record_children (decls decl) c
     = (visit_record_children before;; visit_record_children after) c.
Proof.
  intros Hkind Hdecls Hdecls' Hid Hname Hrk Hcomplete.
  assert (Hmake : forall Op, make_record_decl Op decl c = make_record_decl Op decl' c).
  { intros Op. unfold make_record_decl.
    rewrite Hcomplete, Hid, Hname, Hdecls, Hdecls'.
    destruct (isCompleteDefinition decl); cbn [negb]; [|done].
    unfold mbind, M_bind.
    rewrite (create_with_region_ext _ _ (visit_record_children (before ++ after)));
      [done|].
    intros c0. by apply visit_record_children_skip. }
  split; [|split].
  - unfold VisitRecordDecl, isUnion. rewrite Hrk.
    by destruct (getTagKind decl).
  - unfold VisitCXXRecordDecl, isClass. rewrite Hrk.
    by destruct (getTagKind decl).
  - rewrite Hdecls, visit_record_children_skip by done.
    unfold visit_record_children. apply for_each_app.
Qed.

(** The theorem applied to [struct T { int x; T &operator=(const T &); }]. *)
Lemma skipped_record_members_witness :
  let lens := Examples.c_lens Examples.no_representative in
  VisitRecordDecl Examples.T_with_operator new_context
  = VisitRecordDecl Examples.T_without_operator new_context
  /\ VisitCXXRecordDecl Examples.T_with_operator new_context
     = VisitCXXRecordDecl Examples.T_without_operator new_context
  /\ visit_record_children (decls Examples.T_with_operator) new_context
     = (visit_record_children [Examples.field_x];; visit_record_children [])
         new_context.
Proof.
  intros lens.
  exact (skipped_record_members (lens := lens) Examples.T_with_operator
           Examples.T_without_operator [Examples.field_x] []
           Examples.operator_assign new_context
           (or_introl eq_refl) eq_refl eq_refl eq_refl eq_refl eq_refl eq_refl).
Defined.

(** ** The function an emission request creates *)

(** X20. The function [create_vast_function] creates for a name that has
    no binding in the table of functions. It is a function of that name
    and of the requested type, with the linkage of the declaration; its
    attributes are those of the declaration set on an operation that had
    none; its visibility is that of its linkage for a definition, public
    for a declaration that forces an externally visible definition, and
    private otherwise. The name is bound to it in the table of functions.
    The function is created where the builder stands: at module level it
    is appended to the module and, its name being free there, becomes the
    symbol of that name; anywhere else the children and the symbols of the
    module stay as they are. The insertion point is put back where it
    was. *)
Theorem created_function `{lens : visitor_lens}
    (name : string) (fty : function_type) (d : FunctionDecl)
    (c c1 : codegen_context) (fn : op_id) :
  table_lookup (inr name) (table funcdecls c) = None ->
  create_vast_function name fty d c = (Done fn, c1) ->
  let linkage := get_function_linkage (get_gdecl NoStructor d) in
  exists o attrs,
    fn = next_op c
    /\ ops c1 !! fn = Some o
    /\ op_kind_of o = FuncOp
    /\ sym_name o = name
    /\ op_type o = Some (FunctionType fty)
    /\ op_linkage o = Some linkage
    /\ op_blocks o = []
    /\ Attrs.visit_decl_attrs visit_attr (fn_attrs d) ∅ = Done attrs
    /\ op_attrs o = attrs
    /\ op_visibility o
       = Some (if isThisDeclarationADefinition d
               then get_visibility_from_linkage linkage
               else if doesDeclarationForceExternallyVisibleDefinition d
               then Public
               else Private)
    /\ table_lookup (inr name) (table funcdecls c1) = Some (OpResult fn)
    /\ (insertion c = in_module ->
        module_body c1 = module_body c ++ [fn]
        /\ (symbol_table c !! name = None ->
            symbol_table c1 !! name = Some fn))
    /\ (insertion c <> in_module ->
        module_body c1 = module_body c
        /\ symbol_table c1 = symbol_table c)
    /\ insertion c1 = insertion c.
Proof.
  intros Hfree H linkage. unfold create_vast_function in H.
  apply bind_inv in H as (guard & c0 & H0 & H). injection H0 as <- <-.
  apply bind_inv in H as (fn' & c2 & H2 & H).
  fold linkage in H2, H.
  set (o0 := with_linkage (Some linkage)
               (new_op FuncOp name (Some (FunctionType fty)))) in H2.
  rewrite declare_op_run in H2.
  rewrite (declare_unbound funcdecls (inr name) _ c (OpResult (next_op c))
             (create o0 c).2 Hfree) in H2.
  2:{ cbv [mbind M_bind mret M_ret]. by rewrite create_run. }
  injection H2 as <- <-. cbn [getDefiningOp] in H.
  destruct (create_post o0 c) as (_ & _ & _ & Hsymbol & _).
  specialize (Hsymbol eq_refl). cbn [sym_name o0 with_linkage new_op] in Hsymbol.
  destruct (create_placement o0 c) as [Hmodule Helsewhere].
  destruct (create_fields o0 c) as (o1 & Ho1 & Hfields).
  assert (Heq : forall X (f : op_state -> X),
             f (with_members [] (with_blocks [] o1))
             = f (with_members [] (with_blocks [] o0))) by (by rewrite Hfields).
  apply bind_inv in H as ([] & c3 & H3 & H).
  unfold visit_decl_attrs in H3.
  apply bind_inv in H3 as (o1' & c3' & Hget & H3).
  apply get_op_inv in Hget as [Hget ->]. cbn [ops set_tables] in Hget.
  rewrite Ho1 in Hget. injection Hget as <-.
  pose proof (Heq _ op_attrs) as Hattrs0. cbn in Hattrs0.
  rewrite Hattrs0 in H3.
  destruct (Attrs.visit_decl_attrs visit_attr (fn_attrs d) ∅)
    as [attrs|] eqn:Hattrs; [|done].
  injection H3 as <-.
  apply bind_inv in H as (o2 & c4 & H4 & H).
  apply get_op_inv in H4 as [Ho2 ->].
  cbn [ops set_ops set_tables] in Ho2. rewrite lookup_alter_eq, Ho1 in Ho2.
  injection Ho2 as <-.
  apply bind_inv in H as ([] & c4 & H4 & H).
  apply VAST_CHECK_inv in H4 as [Hdecl ->].
  apply bind_inv in H as ([] & c4 & H4 & H). injection H4 as <-.
  apply bind_inv in H as ([] & c5 & H5 & H). injection H5 as <-.
  injection H as <- <-.
  eexists _, attrs. split; [done|]. split.
  { cbn. rewrite !lookup_alter_eq, Ho1. by cbn. }
  split; [exact (Heq _ op_kind_of)|].
  split; [exact (Heq _ sym_name)|].
  split; [exact (Heq _ op_type)|].
  split; [exact (Heq _ op_linkage)|].
  split.
  { unfold isDeclaration in Hdecl. cbn in *. by destruct (op_blocks o1). }
  split; [done|]. split; [done|]. split; [done|].
  split.
  { unfold table. cbn. rewrite lookup_insert_eq. cbn.
    apply table_lookup_insert. }
  split; [intros Hip; split; [by apply Hmodule|by apply Hsymbol]|].
  split; [exact Helsewhere|]. done.
Qed.

(** The theorem applied to [int g(void);], created at module level and
    inside the body of [f]. *)
Lemma created_function_witness :
  let lens := Examples.c_lens Examples.no_representative in
  let c1 := (create_vast_function "g" Examples.int_fty Examples.int_g
               new_context).2 in
  let in_f := (VisitFunctionDecl Examples.int_f new_context).2 in
  let c2 := (create_vast_function "g" Examples.int_fty Examples.int_g
               (set_insertion (in_function 0 0) in_f)).2 in
  (exists o,
     ops c1 !! 0 = Some o
     /\ op_kind_of o = FuncOp
     /\ sym_name o = "g"
     /\ op_type o = Some (FunctionType Examples.int_fty)
     /\ op_visibility o = Some Private
     /\ module_body c1 = [0]
     /\ symbol_table c1 !! "g" = Some 0
     /\ insertion c1 = in_module)
  /\ (exists o,
        ops c2 !! 1 = Some o
        /\ sym_name o = "g"
        /\ module_body c2 = [0]
        /\ symbol_table c2 !! "g" = None
        /\ insertion c2 = in_function 0 0).
Proof.
  intros lens c1 in_f c2. split.
  - destruct (created_function (lens := lens) "g" Examples.int_fty
                Examples.int_g new_context c1 0 eq_refl eq_refl)
      as (o & attrs & _ & Ho & Hkind & Hname & Hty & _ & _ & _ & _ & Hvis & _
          & Hmodule & _ & Hip).
    destruct (Hmodule eq_refl) as [Hbody Hsym].
    exists o. split; [exact Ho|]. split; [exact Hkind|]. split; [exact Hname|].
    split; [exact Hty|]. split; [exact Hvis|]. split; [exact Hbody|].
    split; [exact (Hsym eq_refl)|exact Hip].
  - assert (Hrun : create_vast_function "g" Examples.int_fty Examples.int_g
                     (set_insertion (in_function 0 0) in_f) = (Done 1, c2))
      by (vm_compute; reflexivity).
    destruct (created_function (lens := lens) "g" Examples.int_fty
                Examples.int_g (set_insertion (in_function 0 0) in_f) c2 1
                eq_refl Hrun)
      as (o & attrs & _ & Ho & _ & Hname & _ & _ & _ & _ & _ & _ & _
          & _ & Helsewhere & Hip).
    destruct Helsewhere as [Hbody Hsym]; [done|].
    exists o. split; [exact Ho|]. split; [exact Hname|].
    split; [by rewrite Hbody|]. split; [by rewrite Hsym|exact Hip].
Defined.

(** ** Translation units *)

(** X21. A translation unit is lowered declaration by declaration, in
    order. Lowering two lists of declarations one after the other is
    lowering their concatenation; the visit answers null, never an
    operation; and when the visit of a declaration aborts, the translation
    unit aborts with the same message and context, and no later declaration
    is visited. *)
Theorem translation_unit_in_order `{lens : visitor_lens}
    (tu1 tu2 : list decl_id) (c : codegen_context) :
  VisitTranslationUnitDecl (tu1 ++ tu2) c
  = (VisitTranslationUnitDecl tu1;; VisitTranslationUnitDecl tu2) c
  /\ (forall r c', VisitTranslationUnitDecl tu1 c = (Done r, c') -> r = None)
  /\ (forall d c0 msg c1,
        VisitTranslationUnitDecl tu1 c = (Done None, c0) ->
        visit_decl d c0 = (Fatal msg, c1) ->
        VisitTranslationUnitDecl (tu1 ++ d :: tu2) c = (Fatal msg, c1)).
Proof.
  unfold VisitTranslationUnitDecl. split; [|split].
  - unfold mbind at 1, M_bind at 1. rewrite for_each_app.
    cbv [mbind M_bind mret M_ret].
    by destruct (for_each tu1 _ c) as [[[]|msg] c0].
  - intros r c' H. apply bind_inv in H as ([] & c0 & _ & H).
    by injection H as <- _.
  - intros d c0 msg c1 H1 Hd.
    apply bind_inv in H1 as ([] & c0' & H1 & Hret). injection Hret as <-.
    unfold mbind at 1, M_bind at 1. rewrite for_each_app.
    cbv [mbind M_bind mret M_ret] in *. rewrite H1. cbn [for_each].
    cbv [mbind M_bind]. by rewrite Hd.
Qed.
